(** * InstaClick: URL linkifier, preview manager and click tracker

    A shallow embedding of the content script (src/content.js), the link
    preview manager (src/preview.js) and the background click tracker
    (background.js) of the InstaClick browser extension, with the properties
    of its linkification, sanitisation, caching and tracking code.

    Layout: part I holds the definitions (JavaScript strings, the regular
    expression matcher, the URL parser, then the program's own functions in
    their source order); part II holds the lemmas and theorems. *)

From Stdlib Require Import ZArith NArith List String Ascii Bool Lia DecimalString.
From stdpp Require Import gmap strings.
Import ListNotations.

(* ===================================================================== *)
(** * Part I: definitions *)
(* ===================================================================== *)

(** ** JavaScript strings

    A JavaScript string is a sequence of UTF-16 code units. *)

Abbreviation jschar := N (only parsing).
Abbreviation jsstring := (list N) (only parsing).

Module JS.

Definition ch (a : ascii) : N := N_of_ascii a.

(** An ASCII literal of the source as a JavaScript string. *)
Definition lit (s : string) : jsstring := map N_of_ascii (list_ascii_of_string s).

Definition streq (a b : jsstring) : bool := bool_decide (a = b).

Definition between (lo hi c : N) : bool := (lo <=? c)%N && (c <=? hi)%N.

Definition is_lower (c : N) : bool := between 97 122 c.
Definition is_upper (c : N) : bool := between 65 90 c.
Definition is_digit (c : N) : bool := between 48 57 c.
Definition is_alpha (c : N) : bool := is_lower c || is_upper c.
Definition is_alnum (c : N) : bool := is_alpha c || is_digit c.

Definition to_lower (c : N) : N := if is_upper c then (c + 32)%N else c.
Definition to_upper (c : N) : N := if is_lower c then (c - 32)%N else c.

(** [String.prototype.toLowerCase] on the ASCII letters (the hostnames it is
    applied to are ASCII after URL parsing). *)
Definition toLowerCase (s : jsstring) : jsstring := map to_lower s.

(** White space and line terminators, as [String.prototype.trim] strips them. *)
Definition is_space (c : N) : bool :=
  between 9 13 c || (c =? 32)%N || (c =? 160)%N || (c =? 5760)%N ||
  between 8192 8202 c || (c =? 8232)%N || (c =? 8233)%N || (c =? 8239)%N ||
  (c =? 8287)%N || (c =? 12288)%N || (c =? 65279)%N.

Fixpoint trimStart (s : jsstring) : jsstring :=
  match s with
  | c :: t => if is_space c then trimStart t else s
  | [] => []
  end.

Definition trim (s : jsstring) : jsstring := rev (trimStart (rev (trimStart s))).

(** [s.slice(from, to)] and [s.slice(from)] for indices within the string. *)
Definition slice (s : jsstring) (from to : nat) : jsstring :=
  firstn (to - from) (skipn from s).
Definition slice_from (s : jsstring) (from : nat) : jsstring := skipn from s.

Fixpoint starts_with (p s : jsstring) : bool :=
  match p, s with
  | [], _ => true
  | a :: p', b :: s' => (a =? b)%N && starts_with p' s'
  | _ :: _, [] => false
  end.

(** [s.includes(p)] *)
Fixpoint includes (p s : jsstring) : bool :=
  starts_with p s || match s with [] => false | _ :: t => includes p t end.

(** [s.indexOf(p)] counted from [i]. *)
Fixpoint index_from (p s : jsstring) (i : nat) : option nat :=
  if starts_with p s then Some i
  else match s with [] => None | _ :: t => index_from p t (S i) end.

(** [s.replace(p, r)] with a string pattern: the first occurrence only. *)
Definition replace_str (p r s : jsstring) : jsstring :=
  match index_from p s 0 with
  | Some i => firstn i s ++ r ++ skipn (i + length p) s
  | None => s
  end.

(** [s.split(sep)] for a one-unit separator. *)
Fixpoint split_on (sep : N) (s : jsstring) : list jsstring :=
  match s with
  | [] => [[]]
  | c :: t =>
      if (c =? sep)%N then [] :: split_on sep t
      else match split_on sep t with
           | h :: r => (c :: h) :: r
           | [] => [[c]]
           end
  end.

End JS.

(** ** Regular expressions

    The constructs that occur in the regular expression literals of the
    program, with the backtracking semantics of ECMAScript (the pattern
    semantics of the language specification: continuation-passing matchers,
    alternatives tried left to right, greedy quantifiers). None of the
    literals has a capture group, the [u] flag or the [m] flag. *)

Module Regex.
Import JS.

Inductive regex : Type :=
| Eps                                          (* empty pattern *)
| Chr (c : N)                                  (* a pattern character *)
| Class (rs : list (N * N))                    (* [...] as a list of ranges *)
| Seq (a b : regex)                            (* ab *)
| Alt (a b : regex)                            (* a|b *)
| Rep (r : regex) (min : nat) (max : option nat) (* greedy r{min,max}; None is no bound *)
| WordB                                        (* \b *)
| BeginA                                       (* ^ *)
| EndA                                         (* $ *)
| NotBehind (rs : list (N * N)).               (* (?<![...]) *)

Definition Star (r : regex) : regex := Rep r 0 None.
Definition Plus (r : regex) : regex := Rep r 1 None.
Definition Opt (r : regex) : regex := Rep r 0 (Some 1).

Definition one (a : ascii) : N * N := (ch a, ch a).
Definition range (a b : ascii) : N * N := (ch a, ch b).

(** A literal run of pattern characters. *)
Fixpoint str_chars (l : list ascii) : regex :=
  match l with
  | [] => Eps
  | [a] => Chr (ch a)
  | a :: t => Seq (Chr (ch a)) (str_chars t)
  end.
Definition str (s : string) : regex := str_chars (list_ascii_of_string s).

(** [a|b|...|z] over literal alternatives, in their order. *)
Fixpoint alts (l : list string) : regex :=
  match l with
  | [] => Eps
  | [s] => str s
  | s :: t => Alt (str s) (alts t)
  end.

Fixpoint in_ranges (rs : list (N * N)) (c : N) : bool :=
  match rs with
  | [] => false
  | (lo, hi) :: t => between lo hi c || in_ranges t c
  end.

(** Canonicalize (no [u] flag): with [ignoreCase] a code unit is compared
    through its upper-case form, and a unit outside ASCII never maps into
    ASCII. The literals that carry the [i] flag are ASCII only, so units
    from 128 up are left as they are. *)
Definition canonicalize (ic : bool) (c : N) : N := if ic then to_upper c else c.

(** A pattern character against an input unit. *)
Definition chr_match (ic : bool) (p c : N) : bool :=
  (canonicalize ic p =? canonicalize ic c)%N.

(** A class against an input unit: some member has the same canonical form. *)
Definition class_match (ic : bool) (rs : list (N * N)) (c : N) : bool :=
  in_ranges rs c || (ic && (in_ranges rs (to_upper c) || in_ranges rs (to_lower c))).

(** [\w] *)
Definition is_word (c : N) : bool := is_alnum c || (c =? 95)%N.

(** The matcher's position in the input: the units before it (nearest
    first), the units from it on, and the number of units consumed since the
    match attempt began (the end index relative to the attempt's start). *)
Record mstate : Type := MState {
  before : list N;
  after : list N;
  consumed : nat
}.

Definition step (x : mstate) (c : N) (t : list N) : mstate :=
  MState (c :: before x) t (S (consumed x)).

Definition word_before (x : mstate) : bool :=
  match before x with c :: _ => is_word c | [] => false end.
Definition word_after (x : mstate) : bool :=
  match after x with c :: _ => is_word c | [] => false end.

(** RepeatMatcher, for a greedy quantifier over the matcher [m] with the
    continuation [k]: an iteration that consumes nothing once [min] is
    reached is refused, so each further level either lowers [min] or
    consumes a unit; the fuel counts the levels. *)
Fixpoint repeat_matcher (m : mstate -> (mstate -> option mstate) -> option mstate)
         (k : mstate -> option mstate) (fuel mn : nat) (mx : option nat) (x : mstate)
         {struct fuel} : option mstate :=
  match fuel with
  | O => None
  | S fuel' =>
      match mx with
      | Some O => k x
      | _ =>
          let d := fun y : mstate =>
            if (mn =? 0)%nat && (consumed y =? consumed x)%nat then None
            else repeat_matcher m k fuel' (Nat.pred mn) (option_map Nat.pred mx) y in
          match mn with
          | S _ => m x d
          | O =>
              match m x d with
              | Some z => Some z
              | None => k x
              end
          end
      end
  end.

(** The matcher of a pattern: [rmatch ic r x k] runs [r] at [x] and hands
    every end state to the continuation [k], in priority order, until [k]
    succeeds. A quantifier gets the fuel [S (min + length (after x))], which
    covers every level it can reach. *)
Fixpoint rmatch (ic : bool) (r : regex) (x : mstate)
         (k : mstate -> option mstate) {struct r} : option mstate :=
  match r with
  | Eps => k x
  | Chr p =>
      match after x with
      | c :: t => if chr_match ic p c then k (step x c t) else None
      | [] => None
      end
  | Class rs =>
      match after x with
      | c :: t => if class_match ic rs c then k (step x c t) else None
      | [] => None
      end
  | Seq a b => rmatch ic a x (fun y => rmatch ic b y k)
  | Alt a b =>
      match rmatch ic a x k with
      | Some z => Some z
      | None => rmatch ic b x k
      end
  | Rep r' mn mx => repeat_matcher (rmatch ic r') k (S (mn + length (after x))) mn mx x
  | WordB => if xorb (word_before x) (word_after x) then k x else None
  | BeginA => match before x with [] => k x | _ :: _ => None end
  | EndA => match after x with [] => k x | _ :: _ => None end
  | NotBehind rs =>
      match before x with
      | c :: _ => if class_match ic rs c then None else k x
      | [] => k x
      end
  end.

(** One match attempt at a position: the length of the match. *)
Definition match_at (ic : bool) (r : regex) (bef aft : list N) : option nat :=
  option_map consumed (rmatch ic r (MState bef aft 0) Some).

(** The scan of RegExpBuiltinExec: attempts at the start index, then at
    each later index up to the end of the input. [Some (index, length)]. *)
Fixpoint scan (ic : bool) (r : regex) (bef aft : list N) (idx : nat)
  : option (nat * nat) :=
  match match_at ic r bef aft with
  | Some len => Some (idx, len)
  | None =>
      match aft with
      | [] => None
      | c :: t => scan ic r (c :: bef) t (S idx)
      end
  end.

(** [r.exec(s)] for a regular expression object with the [g] flag whose
    [lastIndex] is [li]: the match, as index and length, and the new
    [lastIndex] (the end of the match, or 0 after a failure). *)
Definition exec_global (ic : bool) (r : regex) (s : jsstring) (li : nat)
  : option (nat * nat) * nat :=
  if (length s <? li)%nat then (None, 0%nat)
  else match scan ic r (rev (firstn li s)) (skipn li s) li with
       | Some (i, len) => (Some (i, len), (i + len)%nat)
       | None => (None, 0%nat)
       end.

(** [r.test(s)] for a regular expression without the [g] flag. *)
Definition test (ic : bool) (r : regex) (s : jsstring) : bool :=
  match scan ic r [] s 0 with Some _ => true | None => false end.

(** [s.match(r)] used as a condition, and [s.replace(r, by)], for a regular
    expression without the [g] flag: the first match only. *)
Definition replace_first (ic : bool) (r : regex) (by_ s : jsstring) : jsstring :=
  match scan ic r [] s 0 with
  | Some (i, len) => firstn i s ++ by_ ++ skipn (i + len) s
  | None => s
  end.

(** Two readings of a pattern, for the proofs: a number of units that every
    match of it consumes at least, and the units that it can consume. *)
Fixpoint min_len (r : regex) : nat :=
  match r with
  | Chr _ | Class _ => 1
  | Seq a b => min_len a + min_len b
  | Alt a b => Nat.min (min_len a) (min_len b)
  | Rep r' (S _) None => min_len r'
  | _ => 0
  end.

Fixpoint consumes (ic : bool) (r : regex) (c : N) : bool :=
  match r with
  | Chr p => chr_match ic p c
  | Class rs => class_match ic rs c
  | Seq a b | Alt a b => consumes ic a c || consumes ic b c
  | Rep r' _ _ => consumes ic r' c
  | _ => false
  end.

End Regex.

(** ** The platform's URL parser

    [new URL(s)] is the browser's, not the program's. [URLObject] is the
    part of the resulting object that the program reads. The program's
    functions take the parser as a parameter ([new_URL]), and the general
    theorems hold for every parser.

    [URLStd.new_URL] is a model of the URL Standard's basic URL parser
    (no base URL) and serialiser, used to evaluate the program on concrete
    inputs. It covers the http, https, ws, wss and ftp schemes and the
    non-special schemes, with ASCII hosts and IPv4 hosts. Outside this
    fragment the model reports a failure where a browser may succeed: file
    URLs, IPv6 literals, and hosts that need IDNA processing (a unit from 128
    up, also after percent-decoding, or a label that starts with xn--). *)

Module Platform.

Record URLObject : Type := mkURL {
  protocol : jsstring;
  hostname : jsstring;
  href : jsstring
}.

End Platform.

Abbreviation URLObject := Platform.URLObject (only parsing).

Module URLStd.
Import JS.

Record url : Type := Url {
  scheme : jsstring;
  username : jsstring;
  password : jsstring;
  host : option jsstring;
  port : option N;
  opaque_path : option jsstring;   (* Some: the path is an opaque string *)
  path : list jsstring;
  query : option jsstring;
  fragment : option jsstring
}.

(** Code units to scalar values (a lone surrogate becomes U+FFFD). *)
Fixpoint code_points (s : list N) : list N :=
  match s with
  | [] => []
  | h :: t =>
      if between 55296 56319 h then
        match t with
        | l :: t' =>
            if between 56320 57343 l
            then (65536 + (h - 55296) * 1024 + (l - 56320))%N :: code_points t'
            else 65533%N :: code_points t
        | [] => [65533%N]
        end
      else if between 56320 57343 h then 65533%N :: code_points t
      else h :: code_points t
  end.

Definition utf8 (c : N) : list N :=
  if (c <? 128)%N then [c]
  else if (c <? 2048)%N then [192 + c / 64; 128 + c mod 64]%N
  else if (c <? 65536)%N then [224 + c / 4096; 128 + (c / 64) mod 64; 128 + c mod 64]%N
  else [240 + c / 262144; 128 + (c / 4096) mod 64; 128 + (c / 64) mod 64; 128 + c mod 64]%N.

Definition hex_digit (d : N) : N := if (d <? 10)%N then (48 + d)%N else (55 + d)%N.
Definition percent_byte (b : N) : jsstring := [37%N; hex_digit (b / 16); hex_digit (b mod 16)].

Definition mem (c : N) (s : string) : bool := existsb (N.eqb c) (lit s).

(** The percent-encode sets. *)
Definition c0_set (c : N) : bool := (c <? 32)%N || (126 <? c)%N.
Definition fragment_set (c : N) : bool := c0_set c || mem c " <>`" || (c =? 34)%N.
Definition query_set (c : N) : bool := c0_set c || mem c " #<>" || (c =? 34)%N.
Definition special_query_set (c : N) : bool := query_set c || (c =? 39)%N.
Definition path_set (c : N) : bool := query_set c || mem c "?^`{}".
Definition userinfo_set (c : N) : bool := path_set c || mem c "/:;=@[\]|".

Definition encode_cp (set : N -> bool) (c : N) : jsstring :=
  if set c then flat_map percent_byte (utf8 c) else [c].
Definition encode (set : N -> bool) (s : list N) : jsstring := flat_map (encode_cp set) s.

Definition hex_value (c : N) : option N :=
  if is_digit c then Some (c - 48)%N
  else if between 65 70 c then Some (c - 55)%N
  else if between 97 102 c then Some (c - 87)%N
  else None.

(** Percent-decoding of an ASCII string, to bytes. *)
Fixpoint percent_decode (s : list N) : list N :=
  match s with
  | [] => []
  | c :: t =>
      match t with
      | h :: l :: t' =>
          match (if (c =? 37)%N then Some tt else None), hex_value h, hex_value l with
          | Some _, Some a, Some b => (a * 16 + b)%N :: percent_decode t'
          | _, _, _ => c :: percent_decode t
          end
      | _ => c :: percent_decode t
      end
  end.

Definition special_scheme (s : jsstring) : bool :=
  existsb (streq s) (map lit ["http"; "https"; "ws"; "wss"; "ftp"; "file"]%string).

Definition default_port (s : jsstring) : option N :=
  if streq s (lit "http") || streq s (lit "ws") then Some 80%N
  else if streq s (lit "https") || streq s (lit "wss") then Some 443%N
  else if streq s (lit "ftp") then Some 21%N
  else None.

Definition forbidden_host_cp (c : N) : bool :=
  (c =? 0)%N || (c =? 9)%N || (c =? 10)%N || (c =? 13)%N || mem c " #/:<>?@[\]^|".
Definition forbidden_domain_cp (c : N) : bool :=
  forbidden_host_cp c || (c <? 32)%N || (c =? 37)%N || (c =? 127)%N.

(** Natural numbers in a radix, most significant digit first. *)
Definition digit_in (radix : N) (c : N) : option N :=
  match hex_value c with
  | Some d => if (d <? radix)%N then Some d else None
  | None => None
  end.
Fixpoint number_in (radix : N) (acc : N) (s : list N) : option N :=
  match s with
  | [] => Some acc
  | c :: t =>
      match digit_in radix c with
      | Some d => number_in radix (acc * radix + d)%N t
      | None => None
      end
  end.

(** The IPv4 number parser. *)
Definition ipv4_number (s : list N) : option N :=
  match s with
  | [] => None
  | [48%N] => Some 0%N
  | 48%N :: x :: t =>
      if (x =? 120)%N || (x =? 88)%N then number_in 16 0 t
      else number_in 8 0 (x :: t)
  | _ => number_in 10 0 s
  end.

Definition drop_last_empty (parts : list jsstring) : list jsstring :=
  match rev parts with
  | [] :: x :: r => rev (x :: r)
  | _ => parts
  end.

(** The ends-in-a-number checker. *)
Definition ends_in_number (s : list N) : bool :=
  match rev (drop_last_empty (split_on 46 s)) with
  | last :: _ =>
      match last with
      | [] => false
      | _ :: _ => forallb is_digit last || bool_decide (is_Some (ipv4_number last))
      end
  | [] => false
  end.

Fixpoint ipv4_sum (parts : list N) (n : nat) : option N :=
  match parts, n with
  | [last], _ => if (last <? 256 ^ N.of_nat (S n))%N then Some last else None
  | p :: t, S n' =>
      if (255 <? p)%N then None
      else option_map (fun r => (p * 256 ^ N.of_nat (S n') + r)%N) (ipv4_sum t n')
  | _, _ => None
  end.

Fixpoint all_some {A} (l : list (option A)) : option (list A) :=
  match l with
  | [] => Some []
  | Some a :: t => option_map (cons a) (all_some t)
  | None :: _ => None
  end.

(** Decimal digits of a number. *)
Definition dec (n : N) : jsstring :=
  lit (DecimalString.NilZero.string_of_uint (N.to_uint n)).

Definition ipv4_parse (s : list N) : option jsstring :=
  let parts := drop_last_empty (split_on 46 s) in
  if (4 <? length parts)%nat then None
  else match all_some (map ipv4_number parts) with
       | Some nums =>
           match ipv4_sum nums 3 with
           | Some a =>
               Some (dec (a / 16777216) ++ [46%N] ++ dec ((a / 65536) mod 256) ++ [46%N] ++
                     dec ((a / 256) mod 256) ++ [46%N] ++ dec (a mod 256))%N
           | None => None
           end
       | None => None
       end.

Definition has_xn_label (s : list N) : bool :=
  existsb (fun l => starts_with (lit "xn--") (toLowerCase l)) (split_on 46 s).

(** The host parser. *)
Definition host_parse (opaque : bool) (s : list N) : option jsstring :=
  match s with
  | 91%N :: _ => None
  | _ =>
      if opaque then
        if existsb forbidden_host_cp s then None else Some (encode c0_set s)
      else if existsb (fun c => (127 <? c)%N) s then None
      else
        let domain := percent_decode s in
        if existsb (fun c => (127 <? c)%N) domain || has_xn_label domain then None
        else
          let ascii_domain := toLowerCase domain in
          match ascii_domain with
          | [] => None
          | _ :: _ =>
              if existsb forbidden_domain_cp ascii_domain then None
              else if ends_in_number ascii_domain then ipv4_parse ascii_domain
              else Some ascii_domain
          end
  end.

(** Splitting at the first unit that satisfies [p]. *)
Fixpoint break (p : N -> bool) (s : list N) : list N * list N :=
  match s with
  | [] => ([], [])
  | c :: t => if p c then ([], s) else let '(a, b) := break p t in (c :: a, b)
  end.

(** Splitting at the last occurrence of [sep], which is left out. *)
Definition split_last (sep : N) (s : list N) : option (list N * list N) :=
  let '(b, a) := break (N.eqb sep) (rev s) in
  match a with
  | _ :: a' => Some (rev a', rev b)
  | [] => None
  end.

Definition is_double_dot (seg : jsstring) : bool :=
  existsb (streq (toLowerCase seg)) (map lit [".."; ".%2e"; "%2e."; "%2e%2e"]%string).
Definition is_single_dot (seg : jsstring) : bool :=
  existsb (streq (toLowerCase seg)) (map lit ["."; "%2e"]%string).

(** The path state: [segs] is the path so far, last segment first. *)
Fixpoint path_segments (special : bool) (segs : list jsstring) (buf : jsstring)
         (s : list N) : list jsstring :=
  let is_sep (c : N) := (c =? 47)%N || (special && (c =? 92)%N) in
  let close (more : bool) :=
    if is_double_dot buf then (if more then tl segs else [] :: tl segs)
    else if is_single_dot buf then (if more then segs else [] :: segs)
    else buf :: segs in
  match s with
  | [] => rev (close false)
  | c :: t =>
      if is_sep c then path_segments special (close true) [] t
      else path_segments special segs (buf ++ encode_cp path_set c) t
  end.

Definition strip_c0_space (s : list N) : list N :=
  let drop := fix drop (l : list N) :=
    match l with c :: t => if (c <=? 32)%N then drop t else l | [] => [] end in
  rev (drop (rev (drop s))).

Definition is_tab_or_newline (c : N) : bool := (c =? 9)%N || (c =? 10)%N || (c =? 13)%N.

Definition is_scheme_char (c : N) : bool := is_alnum c || mem c "+-.".

(** Query and fragment of what follows the path. *)
Definition query_fragment (special : bool) (s : list N)
  : option jsstring * option jsstring :=
  let '(q, f) := break (N.eqb 35) s in
  (match q with
   | 63%N :: q' => Some (encode (if special then special_query_set else query_set) q')
   | _ => None
   end,
   match f with
   | _ :: f' => Some (encode fragment_set f')
   | [] => None
   end).

(** Authority, from the authority state to the port state. *)
Definition authority_parse (special : bool) (sch : jsstring) (auth : list N)
  : option (jsstring * jsstring * option jsstring * option N) :=
  let '(cred, hostport, at_seen) :=
    match split_last 64 auth with
    | Some (c, h) => (c, h, true)
    | None => ([], auth, false)
    end in
  if at_seen && bool_decide (hostport = []) then None
  else
    let '(user, pass) := break (N.eqb 58) cred in
    let '(h, p) := break (N.eqb 58) hostport in
    match p with
    | _ :: digits =>
        match h, host_parse (negb special) h with
        | _ :: _, Some hst =>
            match digits, number_in 10 0 digits with
            | [], _ =>
                Some (encode userinfo_set user, encode userinfo_set (tl pass), Some hst, None)
            | _ :: _, Some n =>
                if negb (forallb is_digit digits) || (65535 <? n)%N then None
                else Some (encode userinfo_set user, encode userinfo_set (tl pass), Some hst,
                           if bool_decide (default_port sch = Some n) then None else Some n)
            | _ :: _, None => None
            end
        | _, _ => None
        end
    | [] =>
        if special && bool_decide (h = []) then None
        else match host_parse (negb special) h with
             | Some hst =>
                 Some (encode userinfo_set user, encode userinfo_set (tl pass), Some hst, None)
             | None => None
             end
    end.

Definition is_path_end (c : N) : bool := (c =? 63)%N || (c =? 35)%N.

(** The basic URL parser with no base URL. *)
Definition parse (input : jsstring) : option url :=
  let s := List.filter (fun c => negb (is_tab_or_newline c)) (strip_c0_space (code_points input)) in
  match s with
  | c0 :: _ =>
      if is_alpha c0 then
        let '(sch0, rest0) := break (fun c => negb (is_scheme_char c)) s in
        match rest0 with
        | 58%N :: rest =>
            let sch := toLowerCase sch0 in
            if streq sch (lit "file") then None
            else if special_scheme sch then
              let after_slashes :=
                snd (break (fun c => negb ((c =? 47)%N || (c =? 92)%N)) rest) in
              let '(auth, rest1) :=
                break (fun c => (c =? 47)%N || (c =? 92)%N || is_path_end c) after_slashes in
              match authority_parse true sch auth with
              | Some (u, pw, h, pt) =>
                  let '(p, qf) := break is_path_end rest1 in
                  let '(q, f) := query_fragment true qf in
                  Some (Url sch u pw h pt None (path_segments true [] [] (tl p)) q f)
              | None => None
              end
            else
              match rest with
              | 47%N :: 47%N :: rest' =>
                  let '(auth, rest1) :=
                    break (fun c => (c =? 47)%N || is_path_end c) rest' in
                  match authority_parse false sch auth with
                  | Some (u, pw, h, pt) =>
                      let '(p, qf) := break is_path_end rest1 in
                      let '(q, f) := query_fragment false qf in
                      Some (Url sch u pw h pt None
                                (match p with
                                 | [] => []
                                 | _ :: p' => path_segments false [] [] p'
                                 end) q f)
                  | None => None
                  end
              | 47%N :: rest' =>
                  let '(p, qf) := break is_path_end rest' in
                  let '(q, f) := query_fragment false qf in
                  Some (Url sch [] [] None None None (path_segments false [] [] p) q f)
              | _ =>
                  let '(p, qf) := break is_path_end rest in
                  let '(q, f) := query_fragment false qf in
                  Some (Url sch [] [] None None (Some (encode c0_set p)) [] q f)
              end
        | _ => None
        end
      else None
  | [] => None
  end.

(** The URL serialiser. *)
Definition serialize (u : url) : jsstring :=
  scheme u ++ [58%N] ++
  match host u with
  | Some h =>
      lit "//" ++
      (if bool_decide (username u = []) && bool_decide (password u = []) then []
       else username u ++
            (if bool_decide (password u = []) then [] else 58%N :: password u) ++ [64%N]) ++
      h ++ match port u with Some n => 58%N :: dec n | None => [] end
  | None =>
      match opaque_path u, path u with
      | None, [] :: _ :: _ => lit "/."
      | _, _ => []
      end
  end ++
  match opaque_path u with
  | Some p => p
  | None => flat_map (fun seg => 47%N :: seg) (path u)
  end ++
  match query u with Some q => 63%N :: q | None => [] end ++
  match fragment u with Some f => 35%N :: f | None => [] end.

(** [new URL(s)]: [None] stands for the TypeError it throws. *)
Definition new_URL (s : jsstring) : option URLObject :=
  match parse s with
  | Some u =>
      Some (Platform.mkURL (scheme u ++ [58%N]) (match host u with Some h => h | None => [] end)
                  (serialize u))
  | None => None
  end.

(** [encodeURIComponent], of the platform too: every unit but the
    unreserved ones is written as the percent-encoded bytes of its UTF-8
    form; [None] is the URIError for a lone surrogate. *)
Definition uri_unreserved (c : N) : bool := is_alnum c || mem c "-_.!~*'()".

Fixpoint encodeURIComponent (s : jsstring) : option jsstring :=
  match s with
  | [] => Some []
  | h :: t =>
      if between 55296 56319 h then
        match t with
        | l :: t' =>
            if between 56320 57343 l
            then option_map
                   (app (flat_map percent_byte
                                  (utf8 (65536 + (h - 55296) * 1024 + (l - 56320))%N)))
                   (encodeURIComponent t')
            else None
        | [] => None
        end
      else if between 56320 57343 h then None
      else option_map (app (if uri_unreserved h then [h] else flat_map percent_byte (utf8 h)))
                      (encodeURIComponent t)
  end.

End URLStd.

(** ** The content script (src/content.js) *)

Module Content.
Import JS Regex.

(** *** Configuration and constants *)

Definition alnum : list (N * N) := [range "a" "z"; range "A" "Z"; range "0" "9"].

(** [[-a-zA-Z0-9@:%._+~#=]] *)
Definition host_chars : list (N * N) :=
  one "-" :: alnum ++ [one "@"; one ":"; one "%"; one "."; one "_"; one "+"; one "~";
                       one "#"; one "="].

(** [[-a-zA-Z0-9@:%_+.~#?&/=()]] *)
Definition path_chars : list (N * N) :=
  one "-" :: alnum ++ [one "@"; one ":"; one "%"; one "_"; one "+"; one "."; one "~";
                       one "#"; one "?"; one "&"; one "/"; one "="; one "("; one ")"].

Definition bare_tlds : list string :=
  ["com"; "org"; "net"; "edu"; "gov"; "co"; "io"; "ai"; "app"; "dev"; "me"; "info";
   "biz"; "xyz"; "online"; "site"; "tech"; "store"; "blog"; "shop"; "club"; "live";
   "news"; "social"; "link"; "page"; "web"; "cloud"; "space"; "world"; "pro"; "gg";
   "tv"; "be"]%string.

(** First alternative of [URL_REGEX]: the prefix [https?://(www.)?] or
    [www.], one alphanumeric, up to 255 units of [host_chars], a dot, 2 to
    63 letters, a word boundary, then any number of [path_chars]. *)
Definition prefixed_url : regex :=
  Seq (Alt (Seq (str "http") (Seq (Opt (Chr (ch "s"))) (Seq (str "://") (Opt (str "www.")))))
           (str "www."))
 (Seq (Class alnum)
 (Seq (Rep (Class host_chars) 0 (Some 255))
 (Seq (Chr (ch "."))
 (Seq (Rep (Class [range "a" "z"]) 2 (Some 63))
 (Seq WordB
      (Star (Class path_chars))))))).

(** Second alternative of [URL_REGEX]: not preceded by an alphanumeric,
    [@] or a dot; one or more labels, each an alphanumeric, alphanumerics
    or hyphens, and a dot; one of [bare_tlds]; a word boundary; then
    optionally one of [/?#] followed by any number of [path_chars]. *)
Definition bare_domain : regex :=
  Seq (NotBehind (alnum ++ [one "@"; one "."]))
 (Seq (Plus (Seq (Class alnum) (Seq (Star (Class (one "-" :: alnum))) (Chr (ch ".")))))
 (Seq (alts bare_tlds)
 (Seq WordB
      (Opt (Seq (Class [one "/"; one "?"; one "#"]) (Star (Class path_chars))))))).

(** [URL_REGEX], flags [gi]. *)
Definition URL_REGEX : regex := Alt prefixed_url bare_domain.

(** [FILE_EXTENSIONS], flag [i]: a dot, one of the listed extensions, and
    the end of the input. *)
Definition FILE_EXTENSIONS : regex :=
  Seq (Chr (ch "."))
 (Seq (alts ["js"; "css"; "png"; "jpg"; "jpeg"; "gif"; "svg"; "webp"; "ico"; "woff";
             "woff2"; "ttf"; "eot"; "map"]%string)
      EndA).

Definition VALID_TLDS : list jsstring :=
  map lit
    ["com"; "org"; "net"; "edu"; "gov"; "co"; "io"; "ai"; "app"; "dev";
     "me"; "info"; "biz"; "us"; "uk"; "ca"; "au"; "de"; "fr"; "it";
     "es"; "nl"; "ru"; "jp"; "cn"; "in"; "br"; "mx"; "kr"; "tv";
     "xyz"; "online"; "site"; "tech"; "store"; "blog"; "shop"; "club"; "live"; "news";
     "social"; "link"; "page"; "web"; "cloud"; "space"; "world"; "pro"; "gg"; "be"]%string.

(** *** State management *)

Record Settings : Type := mkSettings {
  enabled : bool;
  openInNewTab : bool;
  showPreview : bool;
  highlightLinks : bool;
  linkStyle : jsstring;
  trackHistory : bool
}.

(** The initial value of the script's [settings] variable. *)
Definition default_settings : Settings :=
  mkSettings true true true true (lit "default") false.

(** *** Utility functions *)

Section Utilities.

(** [new URL], of the platform. *)
Variable new_URL : jsstring -> option URLObject.

(** [/^https?:\/\//i] *)
Definition PROTOCOL_PREFIX : regex :=
  Seq BeginA (Seq (str "http") (Seq (Opt (Chr (ch "s"))) (str "://"))).

(** [sanitizeUrl]: [None] is the source's [null]. The [try] block's only
    throwing call is [new URL]. *)
Definition sanitizeUrl (urlString : jsstring) : option jsstring :=
  let url :=
    if negb (test true PROTOCOL_PREFIX urlString)
    then lit "https://" ++ urlString
    else urlString in
  match new_URL url with
  | None => None
  | Some parsed =>
      if negb (existsb (streq (Platform.protocol parsed)) [lit "http:"; lit "https:"]) then None
      else
        let hostname := toLowerCase (Platform.hostname parsed) in
        let tld := List.last (split_on (ch ".") hostname) [] in
        if negb (existsb (streq tld) VALID_TLDS) then
          let parts := split_on (ch ".") hostname in
          if (length parts <? 2)%nat then None else Some (Platform.href parsed)
        else Some (Platform.href parsed)
  end.

End Utilities.

(** [escapeHtml]: the text is set as a [div]'s [textContent] and read back
    as [innerHTML], which the HTML serialisation of a text node defines:
    ampersand, no-break space, less-than and greater-than are replaced. *)
Definition escape_unit (c : N) : jsstring :=
  if (c =? 38)%N then lit "&amp;"
  else if (c =? 160)%N then lit "&nbsp;"
  else if (c =? 60)%N then lit "&lt;"
  else if (c =? 62)%N then lit "&gt;"
  else [c].
Definition escapeHtml (text : jsstring) : jsstring := flat_map escape_unit text.


(** The two patterns of [isTruncatedUrl]: two or more dots at the end, and
    the three units U+00E2 U+20AC U+00A6 at the end (the source file spells
    the second pattern with these three characters). *)
Definition TRAILING_DOTS : regex := Seq (Rep (Chr (ch ".")) 2 None) EndA.
Definition TRAILING_ELLIPSIS : regex :=
  Seq (Chr 226) (Seq (Chr 8364) (Seq (Chr 166) EndA)).

Definition isTruncatedUrl (text : jsstring) : bool :=
  test false TRAILING_DOTS (trim text) || test false TRAILING_ELLIPSIS (trim text).

Definition isFileExtension (text : jsstring) : bool := test true FILE_EXTENSIONS text.

(** *** Link processing *)

(** What one [result += ...] of [linkifyText] appends: escaped plain text,
    or an anchor for a match. *)
Inductive piece : Type :=
| Plain (text : jsstring)
| Anchor (index : nat) (sanitizedUrl matchedUrl : jsstring).

Definition quote : jsstring := [34%N].



Section Linkify.

Variable new_URL : jsstring -> option URLObject.
(** [chrome.runtime.getURL], of the platform. *)
Variable getURL : jsstring -> jsstring.
Variable settings : Settings.

(** The markup of one piece, as the template literals build it. *)
Definition render (p : piece) : jsstring :=
  match p with
  | Plain text => escapeHtml text
  | Anchor _ sanitizedUrl matchedUrl =>
      let target := if openInNewTab settings then lit " target=" ++ quote ++ lit "_blank" ++ quote
                    else [] in
      let styleClass := lit "instaclick-link instaclick-style-" ++ linkStyle settings in
      let faviconHtml :=
        lit "<img class=" ++ quote ++ lit "instaclick-favicon" ++ quote ++
        lit " src=" ++ quote ++ getURL (lit "icons/icon16.png") ++ quote ++
        lit " alt=" ++ quote ++ quote ++ lit " aria-hidden=" ++ quote ++ lit "true" ++ quote ++
        lit ">" in
      lit "<a href=" ++ quote ++ sanitizedUrl ++ quote ++ target ++
      lit " rel=" ++ quote ++ lit "noopener noreferrer" ++ quote ++
      lit " class=" ++ quote ++ styleClass ++ quote ++
      lit " data-instaclick-url=" ++ quote ++ sanitizedUrl ++ quote ++ lit ">" ++
      faviconHtml ++ escapeHtml matchedUrl ++ lit "</a>"
  end.

(** The [while] loop of [linkifyText]: [reLastIndex] is
    [URL_REGEX.lastIndex], [lastIndex] the local variable, [result] the
    pieces appended so far. Each iteration costs one unit of fuel;
    [None] is fuel exhausted. *)
Fixpoint linkify_loop (fuel : nat) (text : jsstring) (reLastIndex lastIndex : nat)
         (result : list piece) : option (list piece * nat) :=
  match fuel with
  | O => None
  | S fuel' =>
      match exec_global true URL_REGEX text reLastIndex with
      | (None, _) => Some (result, lastIndex)
      | (Some (index, len), reLastIndex') =>
          let matchedUrl := slice text index (index + len) in
          if isFileExtension matchedUrl || isTruncatedUrl matchedUrl
          then linkify_loop fuel' text reLastIndex' lastIndex result
          else
            match sanitizeUrl new_URL matchedUrl with
            | None | Some [] => linkify_loop fuel' text reLastIndex' lastIndex result
            | Some sanitizedUrl =>
                linkify_loop fuel' text reLastIndex' (index + length matchedUrl)
                  (result ++ [Plain (slice text lastIndex index);
                              Anchor index sanitizedUrl matchedUrl])
            end
      end
  end.

(** The pieces of [linkifyText(text)], in the order they are appended.
    The regular expression's [lastIndex] is reset to 0 first, and is 0
    again when the loop ends. *)
Definition linkifyPieces (text : jsstring) : option (list piece) :=
  match linkify_loop (S (length text)) text 0 0 [] with
  | Some (result, lastIndex) => Some (result ++ [Plain (slice_from text lastIndex)])
  | None => None
  end.

(** [linkifyText(text)]: the string returned. *)
Definition linkifyText (text : jsstring) : option jsstring :=
  option_map (flat_map render) (linkifyPieces text).

End Linkify.

(** *** The page

    The DOM as a tree. An element carries an identity [eid] (the object
    reference of the source), its tag name (HTML elements: upper case), its
    attributes as written, and its child nodes. *)
#[warnings="-register-all"]
Inductive node : Type :=
| TextNode (data : jsstring)
| Element (eid : nat) (tagName : jsstring) (attributes : list (jsstring * jsstring))
          (childNodes : list node).

(** What the script asks of its collaborators while it processes nodes. *)
Inductive effect : Type :=
| PreloadLink (url : jsstring)      (* manager.preloadLink(url) *)
| Observe (link : nat).             (* instaclickPreloadObserver.observe(link) *)

(** The mutable state of the script and of the page it runs in. *)
Record Page : Type := mkPage {
  document : node;
  reLastIndex : nat;          (* URL_REGEX.lastIndex *)
  nextId : nat;               (* identities not yet given to an element *)
  effects : list effect
}.

Definition getAttribute (name : jsstring) (attrs : list (jsstring * jsstring))
  : option jsstring :=
  match List.filter (fun a => streq (fst a) name) attrs with
  | a :: _ => Some (snd a)
  | [] => None
  end.

Definition hasAttribute (name : jsstring) (attrs : list (jsstring * jsstring)) : bool :=
  existsb (fun a => streq (fst a) name) attrs.

Definition setAttribute (name value : jsstring) (attrs : list (jsstring * jsstring))
  : list (jsstring * jsstring) :=
  if hasAttribute name attrs
  then map (fun a => if streq (fst a) name then (name, value) else a) attrs
  else attrs ++ [(name, value)].

Definition PROCESSED : jsstring := lit "data-instaclick-processed".

(** The element with identity [id] under [n]. *)
Fixpoint find (id : nat) (n : node) : option node :=
  match n with
  | TextNode _ => None
  | Element i _ _ ch =>
      if (i =? id)%nat then Some n
      else (fix go (l : list node) : option node :=
              match l with
              | [] => None
              | c :: t => match find id c with Some r => Some r | None => go t end
              end) ch
  end.

(** [tagName === 'A' || closest('a')] for the element with identity [id]:
    whether it or one of its ancestors is an anchor. *)
Fixpoint in_anchor (id : nat) (above : bool) (n : node) : option bool :=
  match n with
  | TextNode _ => None
  | Element i tag _ ch =>
      let here := above || streq tag (lit "A") in
      if (i =? id)%nat then Some here
      else (fix go (l : list node) : option bool :=
              match l with
              | [] => None
              | c :: t => match in_anchor id here c with Some r => Some r | None => go t end
              end) ch
  end.

(** The tree with the element of identity [id] replaced by [e]. *)
Fixpoint replace_element (id : nat) (e : node) (n : node) : node :=
  match n with
  | TextNode _ => n
  | Element i tag attrs ch =>
      if (i =? id)%nat then e else Element i tag attrs (map (replace_element id e) ch)
  end.

(** The tokens of a [class] attribute: its value split at ASCII white
    space. *)
Definition is_html_space (c : N) : bool :=
  (c =? 9)%N || (c =? 10)%N || (c =? 12)%N || (c =? 13)%N || (c =? 32)%N.

Fixpoint tokens_from (cur : jsstring) (s : jsstring) : list jsstring :=
  match s with
  | [] => match cur with [] => [] | _ => [rev cur] end
  | c :: t =>
      if is_html_space c
      then match cur with [] => tokens_from [] t | _ => rev cur :: tokens_from [] t end
      else tokens_from (c :: cur) t
  end.

Definition has_class (name : jsstring) (attrs : list (jsstring * jsstring)) : bool :=
  match getAttribute (lit "class") attrs with
  | Some value => existsb (streq name) (tokens_from [] value)
  | None => false
  end.

(** [root.querySelectorAll('.' + name)]: the elements at or under a node
    that carry the class, in tree order, each with its identity and its
    attributes. *)
Fixpoint select_class (name : jsstring) (n : node)
  : list (nat * list (jsstring * jsstring)) :=
  match n with
  | TextNode _ => []
  | Element i _ attrs ch =>
      (if has_class name attrs then [(i, attrs)] else []) ++ flat_map (select_class name) ch
  end.

Section Process.

Variable new_URL : jsstring -> option URLObject.
Variable getURL : jsstring -> jsstring.
Variable settings : Settings.
(** Whether [getPreviewManager()] yields a manager, and whether
    [window.instaclickPreloadObserver] is set. *)
Variable hasManager : bool.
Variable hasObserver : bool.
(** The HTML parser of the platform, as [temp.innerHTML = markup] uses
    it on a fresh [span]: the child nodes that the markup gives, their
    elements taking their identities from the given number on, and the
    first number not taken. *)
Variable innerHTML : jsstring -> nat -> list node * nat.

(** [processTextNode] for a text node with a parent: the nodes that
    replace it ([None]: the node is left alone), the number of links
    created, and the state after. The outer [None] is a [linkifyText]
    that does not return. *)
Definition processTextNode (pg : Page) (text : jsstring)
  : option (option (list node) * nat * Page) :=
  match text, exec_global true URL_REGEX text (reLastIndex pg) with
  | [], _ => Some (None, 0%nat, pg)
  | _ :: _, (None, li) =>
      Some (None, 0%nat, mkPage (document pg) li (nextId pg) (effects pg))
  | _ :: _, (Some _, _) =>
      match linkifyText new_URL getURL settings text with
      | None => None
      | Some linkedHtml =>
          let pg0 := mkPage (document pg) 0 (nextId pg) (effects pg) in
          if negb (includes (lit "instaclick-link") linkedHtml)
          then Some (None, 0%nat, pg0)
          else
            let '(ns, nx) := innerHTML linkedHtml (nextId pg) in
            let newLinks := flat_map (select_class (lit "instaclick-link")) ns in
            let preloads :=
              if hasManager && showPreview settings
              then flat_map (fun l => match getAttribute (lit "data-instaclick-url") (snd l) with
                                      | Some ((_ :: _) as url) => [PreloadLink url]
                                      | _ => []
                                      end) newLinks
              else [] in
            let observes :=
              if hasObserver then map (fun l => Observe (fst l)) newLinks else [] in
            Some (Some ns, length newLinks,
                  mkPage (document pg) 0 nx (effects pg ++ preloads ++ observes))
      end
  end.

(** The text nodes under an element, as the tree walker accepts them, each
    processed in document order: [inA] tells whether the parent or one of
    its ancestors is an anchor, [parentTag] is the parent's tag name. *)
Fixpoint process_node (inA : bool) (parentTag : jsstring) (pg : Page) (n : node)
  : option (list node * nat * Page) :=
  match n with
  | TextNode data =>
      if inA || streq parentTag (lit "SCRIPT") || streq parentTag (lit "STYLE")
         || bool_decide (trim data = [])
      then Some ([n], 0%nat, pg)
      else match processTextNode pg data with
           | Some (Some ns, k, pg') => Some (ns, k, pg')
           | Some (None, k, pg') => Some ([n], k, pg')
           | None => None
           end
  | Element i tag attrs ch =>
      match (fix go (l : list node) (pg : Page) : option (list node * nat * Page) :=
               match l with
               | [] => Some ([], 0%nat, pg)
               | c :: t =>
                   match process_node (inA || streq tag (lit "A")) tag pg c with
                   | Some (ns, k, pg') =>
                       match go t pg' with
                       | Some (ns', k', pg'') => Some (ns ++ ns', (k + k')%nat, pg'')
                       | None => None
                       end
                   | None => None
                   end
               end) ch pg with
      | Some (ch', k, pg') => Some ([Element i tag attrs ch'], k, pg')
      | None => None
      end
  end.

(** [processElement(element)]: the number of links created and the state
    after. [element] is the identity of an element of the document, or
    [None] for the source's [null]. *)
Definition processElement (pg : Page) (element : option nat) : option (nat * Page) :=
  match element with
  | None => Some (0%nat, pg)
  | Some id =>
      match find id (document pg) with
      | Some (Element _ tag attrs ch) =>
          if negb (enabled settings) then Some (0%nat, pg)
          else if hasAttribute PROCESSED attrs then Some (0%nat, pg)
          else if default false (in_anchor id false (document pg)) then Some (0%nat, pg)
          else if streq tag (lit "SCRIPT") || streq tag (lit "STYLE") then Some (0%nat, pg)
          else
            let marked := Element id tag (setAttribute PROCESSED (lit "true") attrs) ch in
            match process_node false [] pg marked with
            | Some ([e], linksCreated, pg') =>
                Some (linksCreated,
                      mkPage (replace_element id e (document pg)) (reLastIndex pg')
                             (nextId pg') (effects pg'))
            | _ => None
            end
      | _ => Some (0%nat, pg)
      end
  end.

(** [LinkProcessor]: the queue (a set of elements, in insertion order),
    the [isProcessing] flag, and whether the debounce timer of
    [processDebounced] is pending. *)
Record LinkProcessor : Type := mkProcessor {
  queue : list nat;
  isProcessing : bool;
  timerPending : bool
}.

(** [LinkProcessor.add(element)] *)
Definition add (pg : Page) (lp : LinkProcessor) (element : option nat) : LinkProcessor :=
  match element with
  | None => lp
  | Some id =>
      match find id (document pg) with
      | Some (Element _ _ attrs _) =>
          if hasAttribute PROCESSED attrs then lp
          else mkProcessor (if existsb (Nat.eqb id) (queue lp) then queue lp
                            else queue lp ++ [id])
                           (isProcessing lp) true
      | _ => lp
      end
  end.

End Process.

End Content.

(** ** The platform's HTML parser

    [temp.innerHTML = markup] is the browser's, not the program's. The
    program's functions take the parser as a parameter ([innerHTML]), and
    the general theorems hold for every parser.

    [HTMLStd.innerHTML] is a model of the HTML Standard's fragment parser
    for a [span], used to evaluate the program on concrete inputs. It
    covers what the markup of [linkifyText] needs: the input stream's line
    ends, text with NUL dropped, start tags with quoted and unquoted
    attributes (a name that occurs again in a tag is dropped), end tags,
    comments that end with [-->], numeric character references and the
    named references [amp], [lt], [gt], [quot], [apos] and [nbsp], and a
    tree builder that nests elements, leaves void elements empty and
    closes an element at its end tag. Elements take their identities in
    the order of their start tags. Outside the model: every other named
    reference (its ampersand is read as text, or one of the names above
    at its start is decoded), raw text elements, foreign content, and the
    tree builder's rules for start tags that end other elements, for
    tables and for the tags of the document's skeleton. *)

Module HTMLStd.
Import JS Content.

(** The input stream: a carriage return, alone or before a line feed,
    reads as a line feed. *)
Fixpoint normalize_newlines (s : jsstring) : jsstring :=
  match s with
  | 13%N :: 10%N :: t => 10%N :: normalize_newlines t
  | 13%N :: t => 10%N :: normalize_newlines t
  | c :: t => c :: normalize_newlines t
  | [] => []
  end.

Definition is_hex (c : N) : bool := is_digit c || between 97 102 c || between 65 70 c.

Definition hex_value (c : N) : N :=
  if is_digit c then (c - 48)%N
  else if between 97 102 c then (c - 87)%N else (c - 55)%N.

(** The digits of a numeric character reference, read in the given base
    (the value is capped: every value past 0x10FFFF reads alike). *)
Fixpoint digits (base : N) (ok : N -> bool) (acc : N) (s : jsstring) : N * jsstring :=
  match s with
  | c :: t =>
      if ok c
      then digits base ok (N.min 1114112 (acc * base + hex_value c)) t
      else (acc, s)
  | [] => (acc, [])
  end.

(** The replacements for the code points 0x80 to 0x9F. *)
Definition c1_replacement (n : N) : N :=
  nth (N.to_nat (n - 128))
      [8364; 129; 8218; 402; 8222; 8230; 8224; 8225; 710; 8240; 352; 8249; 338; 141; 381; 143;
       144; 8216; 8217; 8220; 8221; 8226; 8211; 8212; 732; 8482; 353; 8250; 339; 157; 382; 376]%N
      n.

(** The code units of the code point that a numeric reference names. *)
Definition numeric_units (n : N) : jsstring :=
  if (n =? 0)%N || (1114111 <? n)%N || between 55296 57343 n then [65533%N]
  else
    let n := if between 128 159 n then c1_replacement n else n in
    if (n <? 65536)%N then [n]
    else [(55296 + (n - 65536) / 1024)%N; (56320 + (n - 65536) mod 1024)%N].

Definition named : list (jsstring * N) :=
  [(lit "amp", 38); (lit "lt", 60); (lit "gt", 62); (lit "quot", 34); (lit "nbsp", 160)]%N.

(** A character reference, read after its ampersand: the units it stands
    for and the input left, or [None] where the ampersand stands for
    itself. The five names of [named] may lack their semicolon, but not in
    an attribute value before an equals sign or an alphanumeric. *)
Definition reference (in_attribute : bool) (s : jsstring) : option (jsstring * jsstring) :=
  match s with
  | 35%N :: r =>
      let '(hex, r') := match r with
                        | c :: r' => if (c =? 120)%N || (c =? 88)%N then (true, r') else (false, r)
                        | [] => (false, r)
                        end in
      let ok := if hex then is_hex else is_digit in
      match r' with
      | c :: _ =>
          if ok c then
            let '(n, rest) := digits (if hex then 16 else 10) ok 0 r' in
            Some (numeric_units n, match rest with 59%N :: rest' => rest' | _ => rest end)
          else None
      | [] => None
      end
  | _ =>
      if starts_with (lit "apos;") s then Some ([39%N], skipn 5 s)
      else
        match List.filter (fun e => starts_with (fst e) s) named with
        | (name, unit) :: _ =>
            match skipn (length name) s with
            | 59%N :: rest => Some ([unit], rest)
            | rest =>
                if in_attribute &&
                   match rest with c :: _ => (c =? 61)%N || is_alnum c | [] => false end
                then None else Some ([unit], rest)
            end
        | [] => None
        end
  end.

(** A tag or attribute name: up to the first unit that ends it, in lower
    case, with U+FFFD for NUL. *)
Fixpoint name_until (stop : N -> bool) (s : jsstring) : jsstring * jsstring :=
  match s with
  | c :: t =>
      if stop c then ([], s)
      else let '(n, r) := name_until stop t in
           ((if (c =? 0)%N then 65533%N else to_lower c) :: n, r)
  | [] => ([], [])
  end.

(** An attribute value up to the unit that ends it, with its character
    references read; [None] where the input ends first. *)
Fixpoint value_until (fuel : nat) (stop : N -> bool) (s : jsstring)
  : option (jsstring * jsstring) :=
  match fuel with
  | O => None
  | S fuel' =>
      match s with
      | [] => None
      | c :: t =>
          if stop c then Some ([], s)
          else
            let '(units, rest) :=
              if (c =? 38)%N
              then match reference true t with
                   | Some (u, r) => (u, r)
                   | None => ([c], t)
                   end
              else ([if (c =? 0)%N then 65533%N else c], t) in
            match value_until fuel' stop rest with
            | Some (v, r) => Some (units ++ v, r)
            | None => None
            end
      end
  end.

Fixpoint skip_space (s : jsstring) : jsstring :=
  match s with
  | c :: t => if is_html_space c then skip_space t else s
  | [] => []
  end.

Definition ends_name (c : N) : bool := is_html_space c || (c =? 47)%N || (c =? 62)%N.

(** The attributes of a start tag, from the state before an attribute
    name to the end of the tag: the attributes in their order (a name
    that occurs again is dropped) and the input after the tag; [None]
    where the input ends within the tag, which drops the tag. *)
Fixpoint tag_attributes (fuel : nat) (seen : list (jsstring * jsstring)) (s : jsstring)
  : option (list (jsstring * jsstring) * jsstring) :=
  match fuel with
  | O => None
  | S fuel' =>
      match skip_space s with
      | [] => None
      | 62%N :: rest => Some (seen, rest)
      | 47%N :: rest =>
          match rest with
          | 62%N :: rest' => Some (seen, rest')
          | _ => tag_attributes fuel' seen rest
          end
      | c :: rest =>
          let '(name0, r) := name_until (fun d => ends_name d || (d =? 61)%N) rest in
          let name := (if (c =? 0)%N then 65533%N else to_lower c) :: name0 in
          let add value := if hasAttribute name seen then seen else seen ++ [(name, value)] in
          match skip_space r with
          | 61%N :: r1 =>
              match skip_space r1 with
              | 34%N :: r2 =>
                  match value_until fuel' (fun d => (d =? 34)%N) r2 with
                  | Some (v, _ :: r3) => tag_attributes fuel' (add v) r3
                  | _ => None
                  end
              | 39%N :: r2 =>
                  match value_until fuel' (fun d => (d =? 39)%N) r2 with
                  | Some (v, _ :: r3) => tag_attributes fuel' (add v) r3
                  | _ => None
                  end
              | 62%N :: r2 => Some (add [], r2)
              | r2 =>
                  match value_until fuel' (fun d => is_html_space d || (d =? 62)%N) r2 with
                  | Some (v, r3) => tag_attributes fuel' (add v) r3
                  | None => None
                  end
              end
          | r1 => tag_attributes fuel' (add []) r1
          end
      end
  end.

(** An element that is open: its identity, tag name and attributes, and
    the children it has so far, last first. *)
Record Open : Type := mkOpen {
  oid : nat;
  otag : jsstring;
  oattrs : list (jsstring * jsstring);
  okids : list node
}.

(** The tree under construction: the open elements, innermost first, and
    the nodes at the top, last first. *)
Definition Tree : Type := (list Open * list node)%type.

Definition add_node (n : node) (t : Tree) : Tree :=
  match t with
  | (o :: r, top) => (mkOpen (oid o) (otag o) (oattrs o) (n :: okids o) :: r, top)
  | ([], top) => ([], n :: top)
  end.

(** The text gathered so far becomes a text node. *)
Definition flush (text : jsstring) (t : Tree) : Tree :=
  match text with
  | [] => t
  | _ => add_node (TextNode (rev text)) t
  end.

Definition close_innermost (t : Tree) : Tree :=
  match t with
  | (o :: r, top) => add_node (Element (oid o) (otag o) (oattrs o) (rev (okids o))) (r, top)
  | ([], _) => t
  end.

Fixpoint close_all (fuel : nat) (t : Tree) : Tree :=
  match fuel, fst t with
  | S fuel', _ :: _ => close_all fuel' (close_innermost t)
  | _, _ => t
  end.

(** An end tag closes the innermost open element of its name and those
    inside it; with no such element it is ignored. *)
Fixpoint close_to (fuel : nat) (tag : jsstring) (t : Tree) : Tree :=
  match fuel, fst t with
  | S fuel', o :: _ =>
      if streq (otag o) tag then close_innermost t else close_to fuel' tag (close_innermost t)
  | _, _ => t
  end.

Definition end_tag (tag : jsstring) (t : Tree) : Tree :=
  if existsb (fun o => streq (otag o) tag) (fst t) then close_to (length (fst t)) tag t else t.

Definition void_elements : list jsstring :=
  map lit ["AREA"; "BASE"; "BR"; "COL"; "EMBED"; "HR"; "IMG"; "INPUT"; "LINK"; "META";
           "SOURCE"; "TRACK"; "WBR"]%string.

(** The input after the comment that starts here. *)
Fixpoint after_comment (dashes : bool) (s : jsstring) : jsstring :=
  match s with
  | [] => []
  | c :: t =>
      if dashes
      then if starts_with (lit "-->") s then skipn 3 s else after_comment dashes t
      else if (c =? 62)%N then t else after_comment dashes t
  end.

(** The tokenizer and the tree builder, one step for each token or unit
    of text. *)
Fixpoint build (fuel : nat) (s : jsstring) (text : jsstring) (t : Tree) (next : nat)
  : list node * nat :=
  match fuel with
  | O => (rev (snd (close_all (length (fst t)) (flush text t))), next)
  | S fuel' =>
      match s with
      | [] => (rev (snd (close_all (length (fst t)) (flush text t))), next)
      | 60%N :: rest =>
          match rest with
          | 47%N :: c :: _ =>
              if is_alpha c then
                let '(name, r) := name_until ends_name (skipn 1 rest) in
                match tag_attributes (S (length r)) [] r with
                | Some (_, r') => build fuel' r' [] (end_tag (map to_upper name) (flush text t)) next
                | None => (rev (snd (close_all (length (fst t)) (flush text t))), next)
                end
              else if (c =? 62)%N then build fuel' (skipn 2 rest) text t next
              else build fuel' (after_comment false (skipn 1 rest)) text t next
          | c :: _ =>
              if is_alpha c then
                let '(name, r) := name_until ends_name rest in
                match tag_attributes (S (length r)) [] r with
                | Some (attrs, r') =>
                    let tag := map to_upper name in
                    let t := flush text t in
                    if existsb (streq tag) void_elements
                    then build fuel' r' [] (add_node (Element next tag attrs []) t) (S next)
                    else build fuel' r' [] (mkOpen next tag attrs [] :: fst t, snd t) (S next)
                | None => (rev (snd (close_all (length (fst t)) (flush text t))), next)
                end
              else if (c =? 33)%N
              then build fuel' (after_comment (starts_with (lit "!--") rest)
                                              (skipn (if starts_with (lit "!--") rest then 3 else 1)
                                                     rest)) text t next
              else if (c =? 63)%N then build fuel' (after_comment false rest) text t next
              else build fuel' rest (60%N :: text) t next
          | [] => build fuel' rest (60%N :: text) t next
          end
      | 38%N :: rest =>
          match reference false rest with
          | Some (units, r) => build fuel' r (rev units ++ text) t next
          | None => build fuel' rest (38%N :: text) t next
          end
      | 0%N :: rest => build fuel' rest text t next
      | c :: rest => build fuel' rest (c :: text) t next
      end
  end.

(** [temp.innerHTML = markup] on a fresh [span]: its child nodes. *)
Definition innerHTML (markup : jsstring) (next : nat) : list node * nat :=
  let s := normalize_newlines markup in
  build (S (length s)) s [] ([], []) next.

End HTMLStd.
(** ** The link preview manager (src/preview.js) *)

Module Preview.
Import JS.

(** The metadata record of a preview. [None] is the source's [null] (for
    [image]) or an absent field (for [siteBadge]). *)
Record PreviewData : Type := mkData {
  type : jsstring;
  url : jsstring;
  domain : jsstring;
  favicon : jsstring;
  siteBadge : option jsstring;
  title : jsstring;
  description : jsstring;
  image : option jsstring;
  is404 : bool
}.

Record CacheEntry : Type := mkEntry {
  data : PreviewData;
  timestamp : Z
}.

(** The preview card: the properties of its elements that the manager
    writes, keyed by the element's class and the property's name. *)
Abbreviation Card := (gmap (string * string) jsstring) (only parsing).

Definition set_prop (sel prop : string) (value : jsstring) (card : Card) : Card :=
  <[(sel, prop) := value]> card.

Definition CARD : string := ".instaclick-preview-card".

(** The hovered link: its identity and its bounding rectangle (CSS pixels,
    taken as integers). *)
Record LinkElement : Type := mkLink {
  link : nat;
  rect_top : Z;
  rect_bottom : Z;
  rect_left : Z
}.

(** A [fetch] in flight: the page whose metadata it asks for, and the
    abort signal it was given, if any. *)
Record Request : Type := mkRequest {
  target : jsstring;
  signal : option nat
}.

(** What the manager acts on outside itself: the window, the network, the
    abort controllers created so far, and the anchors flagged as dead. *)
Record World : Type := mkWorld {
  innerWidth : Z;
  innerHeight : Z;
  inflight : list Request;
  aborted : list nat;
  nextController : nat;
  deadLinks : list jsstring
}.

Record Manager : Type := mkManager {
  cache : gmap jsstring CacheEntry;
  cacheDuration : Z;
  previewElement : option Card;
  qrPopup : option bool;              (* its [visible] class, once created *)
  currentUrl : option jsstring;
  currentLink : option LinkElement;
  hoverTimeout : option nat;
  hideTimeout : option nat;
  fetchController : option nat;
  preloadQueue : list jsstring;
  isPreloading : bool
}.

(** [constructor] *)
Definition constructor : Manager :=
  mkManager ∅ (30 * 60 * 1000) None None None None None None None [] false.

Definition with_cache (c : gmap jsstring CacheEntry) (m : Manager) : Manager :=
  mkManager c (cacheDuration m) (previewElement m) (qrPopup m) (currentUrl m) (currentLink m)
            (hoverTimeout m) (hideTimeout m) (fetchController m) (preloadQueue m) (isPreloading m).

Definition with_card (c : Card) (m : Manager) : Manager :=
  mkManager (cache m) (cacheDuration m) (Some c) (qrPopup m) (currentUrl m) (currentLink m)
            (hoverTimeout m) (hideTimeout m) (fetchController m) (preloadQueue m) (isPreloading m).

Definition with_qr (q : option bool) (m : Manager) : Manager :=
  mkManager (cache m) (cacheDuration m) (previewElement m) q (currentUrl m) (currentLink m)
            (hoverTimeout m) (hideTimeout m) (fetchController m) (preloadQueue m) (isPreloading m).

Definition with_current (u : option jsstring) (l : option LinkElement) (m : Manager) : Manager :=
  mkManager (cache m) (cacheDuration m) (previewElement m) (qrPopup m) u l
            (hoverTimeout m) (hideTimeout m) (fetchController m) (preloadQueue m) (isPreloading m).

Definition with_controller (c : option nat) (m : Manager) : Manager :=
  mkManager (cache m) (cacheDuration m) (previewElement m) (qrPopup m) (currentUrl m)
            (currentLink m) (hoverTimeout m) (hideTimeout m) c (preloadQueue m) (isPreloading m).

(** *** Cache *)

(** [setCache(url, data)] when [Date.now()] is [now]. *)
Definition setCache (m : Manager) (url : jsstring) (data : PreviewData) (now : Z) : Manager :=
  with_cache (<[url := mkEntry data now]> (cache m)) m.

(** [getFromCache(url)] when [Date.now()] is [now]: the data, or [None] for
    the source's [null], and the manager after. *)
Definition getFromCache (m : Manager) (url : jsstring) (now : Z)
  : option PreviewData * Manager :=
  match cache m !! url with
  | None => (None, m)
  | Some cached =>
      if (now - timestamp cached >? cacheDuration m)%Z
      then (None, with_cache (delete url (cache m)) m)
      else (Some (data cached), m)
  end.

(** [markDeadLink(url)]: the anchors of the page that carry [url] get the
    class [instaclick-dead-link]. *)
Definition markDeadLink (w : World) (url : jsstring) : World :=
  mkWorld (innerWidth w) (innerHeight w) (inflight w) (aborted w) (nextController w)
          (deadLinks w ++ [url]).

(** *** Preview element *)

Definition LABEL_EXPAND : jsstring :=
  [240; 376; 8221; 8220]%N ++ lit " Expand URL".
Definition LABEL_QR : jsstring :=
  [240; 376; 8220; 177]%N ++ lit " QR Code".

(** The card as [createPreviewElement] builds it from its template. *)
Definition new_card : Card :=
  set_prop ".preview-link-area" "href" (lit "#")
 (set_prop ".preview-content" "style.display" (lit "none")
 (set_prop ".preview-expanded-url" "style.display" (lit "none")
 (set_prop ".preview-error" "style.display" (lit "none")
 (set_prop ".preview-error-title" "textContent" (lit "Page Not Found")
 (set_prop ".preview-error-desc" "textContent"
           (lit "This link may be broken or the page no longer exists")
 (set_prop ".preview-expand-btn" "textContent" LABEL_EXPAND
 (set_prop ".preview-qr-btn" "textContent" LABEL_QR ∅))))))).

(** [createPreviewElement] *)
Definition createPreviewElement (m : Manager) : Card * Manager :=
  match previewElement m with
  | Some card => (card, m)
  | None => (new_card, with_card new_card m)
  end.

(** [hideQRPopup] *)
Definition hideQRPopup (m : Manager) : Manager :=
  let m1 := match qrPopup m with Some _ => with_qr (Some false) m | None => m end in
  match previewElement m1 with
  | Some card => with_card (set_prop ".preview-qr-btn" "textContent" LABEL_QR card) m1
  | None => m1
  end.

(** *** Show and hide *)

(** A number followed by [px]. *)
Definition px (z : Z) : jsstring :=
  (if (z <? 0)%Z then lit "-" else []) ++ URLStd.dec (Z.to_N (Z.abs z)) ++ lit "px".

(** [positionPreview(linkElement)] *)
Definition positionPreview (w : World) (linkElement : LinkElement) (card : Card) : Card :=
  let previewHeight := 350%Z in
  let previewWidth := 320%Z in
  let gap := 10%Z in
  let top := (rect_bottom linkElement + gap)%Z in
  let left := rect_left linkElement in
  let top := if (top + previewHeight >? innerHeight w)%Z
             then (rect_top linkElement - previewHeight - gap)%Z else top in
  let top := if (top <? 10)%Z then 10%Z else top in
  let left := if (left + previewWidth >? innerWidth w)%Z
              then (innerWidth w - previewWidth - 10)%Z else left in
  let left := if (left <? 10)%Z then 10%Z else left in
  set_prop CARD "style.left" (px left) (set_prop CARD "style.top" (px top) card).

(** [showLoading] *)
Definition showLoading (card : Card) : Card :=
  set_prop ".preview-error" "style.display" (lit "none")
 (set_prop ".preview-content" "style.display" (lit "none")
 (set_prop ".preview-loading" "style.display" (lit "flex") card)).

(** [a || b] on strings: the empty string is falsy. *)
Definition or_else (a : option jsstring) (b : jsstring) : jsstring :=
  match a with Some ((_ :: _) as s) => s | _ => b end.

Definition truthy (a : option jsstring) : bool :=
  match a with Some (_ :: _) => true | _ => false end.

(** [renderPreview(data)] *)
Definition renderPreview (data : PreviewData) (card : Card) : Card :=
  if is404 data then
    set_prop ".preview-error-url" "textContent" (domain data)
   (set_prop ".preview-error-desc" "textContent"
             (lit "This page no longer exists or has been moved")
   (set_prop ".preview-error-title" "textContent" (lit "Page Not Found (404)")
   (set_prop ".preview-error" "style.display" (lit "flex")
   (set_prop ".preview-content" "style.display" (lit "none")
   (set_prop ".preview-loading" "style.display" (lit "none") card)))))
  else
    let card :=
      set_prop ".preview-content" "style.display" (lit "flex")
     (set_prop ".preview-error" "style.display" (lit "none")
     (set_prop ".preview-loading" "style.display" (lit "none") card)) in
    let card :=
      if truthy (image data) then
        set_prop ".preview-play-button" "style.display"
                 (if streq (type data) (lit "youtube") || streq (type data) (lit "video")
                  then lit "flex" else lit "none")
       (set_prop ".preview-image-container" "style.display" (lit "block")
       (set_prop ".preview-image" "alt" (title data)
       (set_prop ".preview-image" "src" (or_else (image data) []) card)))
      else set_prop ".preview-image-container" "style.display" (lit "none") card in
    let card :=
      if truthy (siteBadge data) then
        set_prop ".preview-site-badge" "style.display" (lit "block")
       (set_prop ".preview-site-badge" "className"
                 (lit "preview-site-badge badge-" ++ or_else (Some (type data)) (lit "default"))
       (set_prop ".preview-site-badge" "textContent" (or_else (siteBadge data) []) card))
      else set_prop ".preview-site-badge" "style.display" (lit "none") card in
    let card :=
      set_prop ".preview-title" "textContent"
               (or_else (Some (title data)) (or_else (Some (domain data)) (lit "Unknown"))) card in
    let card :=
      match favicon data with
      | _ :: _ =>
          set_prop ".preview-favicon" "style.display" (lit "block")
         (set_prop ".preview-favicon" "src" (favicon data) card)
      | [] => set_prop ".preview-favicon" "style.display" (lit "none") card
      end in
    set_prop ".preview-domain" "textContent" (domain data) card.

(** [AbortController.abort()], of the platform: the controller's signal is
    aborted, which cancels the requests that were given that signal. *)
Definition abort (c : nat) (w : World) : World :=
  mkWorld (innerWidth w) (innerHeight w)
          (List.filter (fun r => negb (bool_decide (signal r = Some c))) (inflight w))
          (c :: aborted w) (nextController w) (deadLinks w).

(** [fetch(resource)], of the platform, called with no options: a request
    goes out with no abort signal. *)
Definition fetch (resource : jsstring) (w : World) : World :=
  mkWorld (innerWidth w) (innerHeight w) (inflight w ++ [mkRequest resource None])
          (aborted w) (nextController w) (deadLinks w).

(** [new AbortController()] *)
Definition new_controller (w : World) : nat * World :=
  (nextController w,
   mkWorld (innerWidth w) (innerHeight w) (inflight w) (aborted w) (S (nextController w))
           (deadLinks w)).

(** *** Fetch data *)

Inductive Site : Type :=
| YouTube | Twitter | GitHub | Reddit | Spotify | TikTok | LinkedIn.

(** The table of [getSiteHandler], in its order. *)
Definition handlers : list (jsstring * Site) :=
  [(lit "youtube.com", YouTube); (lit "youtu.be", YouTube); (lit "twitter.com", Twitter);
   (lit "x.com", Twitter); (lit "github.com", GitHub); (lit "reddit.com", Reddit);
   (lit "spotify.com", Spotify); (lit "tiktok.com", TikTok); (lit "linkedin.com", LinkedIn)].

(** [getSiteHandler(domain)] *)
Definition getSiteHandler (domain : jsstring) : option Site :=
  match List.filter (fun h => includes (fst h) domain) handlers with
  | h :: _ => Some (snd h)
  | [] => None
  end.

(** The answer of the metadata service to a request: no usable answer (the
    request failed or the body is not the expected JSON), a [fail] status
    with its message, or the data fields the handler reads. *)
Inductive Response : Type :=
| NoAnswer
| ApiFail (message : option jsstring)
| ApiData (title description image_url logo_url : option jsstring).

(** What [await this.fetchPreviewData(url)] waits for. *)
Inductive Pending : Type :=
| Resolved (data : PreviewData)          (* settled without the network *)
| Rejected                               (* an exception escaped *)
| Fetching (domain encoded : jsstring).  (* a request is in flight *)

Section Fetch.

Variable new_URL : jsstring -> option URLObject.
(** [encodeURIComponent], of the platform ([None]: a URIError). *)
Variable encodeURIComponent : jsstring -> option jsstring.
(** The bodies of the site-specific handlers: each builds its record from
    the URL alone, with no network request. *)
Variable siteHandler : Site -> jsstring -> URLObject -> PreviewData.

Definition google_favicon (domain : jsstring) : jsstring :=
  lit "https://www.google.com/s2/favicons?domain=" ++ domain ++ lit "&sz=32".

Definition thumbnail (encoded : jsstring) : jsstring :=
  lit "https://image.thum.io/get/width/400/crop/300/" ++ encoded.

(** The record returned when the service gives no usable answer, and for
    a failure that is not a dead link. *)
Definition fallback_data (url domain encoded : jsstring) : PreviewData :=
  mkData (lit "website") url domain (google_favicon domain) None domain url
         (Some (thumbnail encoded)) false.

(** [fetchGenericPreview(url, domain)] up to its [await fetch(apiUrl)]. *)
Definition fetchGenericPreview (w : World) (url domain : jsstring) : Pending * World :=
  if includes (lit "instagram.com") domain then
    (Resolved (mkData (lit "instagram") url (lit "instagram.com")
                      (lit "https://www.instagram.com/favicon.ico") (Some (lit "Instagram"))
                      (lit "Instagram Content") (lit "View on Instagram") None false), w)
  else
    match encodeURIComponent url with
    | Some encoded => (Fetching domain encoded, fetch (lit "https://api.microlink.io?url=" ++ encoded) w)
    | None => (Rejected, w)
    end.

(** [fetchGenericPreview] from the service's answer on. *)
Definition generic_data (url domain encoded : jsstring) (r : Response) : PreviewData :=
  match r with
  | NoAnswer => fallback_data url domain encoded
  | ApiFail message =>
      let errorMsg := or_else message [] in
      if includes (lit "404") errorMsg || includes (lit "not found") errorMsg
         || includes (lit "ENOTFOUND") errorMsg
      then mkData (lit "website") url domain (google_favicon domain) None
                  (lit "Page Not Found") (lit "This page no longer exists") None true
      else fallback_data url domain encoded
  | ApiData t d i l =>
      mkData (lit "website") url domain (or_else l (google_favicon domain)) None
             (or_else t domain) (or_else d []) (Some (or_else i (thumbnail encoded))) false
  end.

(** [fetchPreviewData(url)] up to its first wait. *)
Definition fetchPreviewData (w : World) (url : jsstring) : Pending * World :=
  match new_URL url with
  | None => (Rejected, w)
  | Some parsedUrl =>
      let domain := replace_str (lit "www.") [] (Platform.hostname parsedUrl) in
      match getSiteHandler domain with
      | Some site => (Resolved (siteHandler site url parsedUrl), w)
      | None => fetchGenericPreview w url domain
      end
  end.

(** The network answers the request made for [url]: the request leaves the
    network and [fetchPreviewData] settles with the record. *)
Fixpoint settle (resource : jsstring) (l : list Request) : list Request :=
  match l with
  | [] => []
  | q :: t => if streq (target q) resource then t else q :: settle resource t
  end.

Definition answer (w : World) (url domain encoded : jsstring) (r : Response)
  : PreviewData * World :=
  (generic_data url domain encoded r,
   mkWorld (innerWidth w) (innerHeight w)
           (settle (lit "https://api.microlink.io?url=" ++ encoded) (inflight w))
           (aborted w) (nextController w) (deadLinks w)).

(** [show(linkElement, url)] up to its [await]: the manager and the world
    after, and what the call then waits for ([None]: it has returned). *)
Definition show (m : Manager) (w : World) (linkElement : LinkElement) (url : jsstring)
           (now : Z) : Manager * World * option Pending :=
  match url with
  | [] => (m, w, None)
  | _ :: _ =>
      let m := with_current (Some url) (Some linkElement) m in
      let '(preview, m) := createPreviewElement m in
      let preview := set_prop ".preview-link-area" "href" url preview in
      let w := match fetchController m with Some c => abort c w | None => w end in
      let preview := positionPreview w linkElement preview in
      let m := hideQRPopup (with_card preview m) in
      let preview := default preview (previewElement m) in
      let preview :=
        set_prop ".preview-expand-btn" "disabled" (lit "false")
       (set_prop ".preview-expand-btn" "textContent" LABEL_EXPAND
       (set_prop ".preview-expanded-url" "style.display" (lit "none") preview)) in
      let '(cached, m) := getFromCache (with_card preview m) url now in
      match cached with
      | Some data =>
          (with_card (set_prop CARD "class.visible" (lit "true") (renderPreview data preview)) m,
           w, None)
      | None =>
          let preview := set_prop CARD "class.visible" (lit "true") (showLoading preview) in
          let '(c, w) := new_controller w in
          let m := with_controller (Some c) (with_card preview m) in
          let '(pending, w) := fetchPreviewData w url in
          (m, w, Some pending)
      end
  end.

(** What the [await] of [show] yields. *)
Inductive Outcome : Type :=
| Data (data : PreviewData)
| Error (name : jsstring).

(** [show] from its [await] on, for the call made with [url]. *)
Definition show_resume (m : Manager) (w : World) (url : jsstring) (o : Outcome) (now : Z)
  : Manager * World :=
  match o with
  | Data data =>
      if negb (bool_decide (currentUrl m = Some url)) then (m, w)
      else
        let m := setCache m url data now in
        let m := match previewElement m with
                 | Some card => with_card (renderPreview data card) m
                 | None => m
                 end in
        (m, if is404 data then markDeadLink w url else w)
  | Error name =>
      if streq name (lit "AbortError") then (m, w)
      else
        match new_URL url, previewElement m with
        | Some parsed, Some card =>
            let domain := replace_str (lit "www.") [] (Platform.hostname parsed) in
            (with_card (renderPreview
                          (mkData (lit "website") url domain (google_favicon domain) None domain
                                  url None false) card) m, w)
        | _, _ => (m, w)
        end
  end.

End Fetch.

(** [hide] *)
Definition hide (m : Manager) : Manager :=
  let m := match previewElement m with
           | Some card => with_card (delete (CARD, "class.visible"%string) card) m
           | None => m
           end in
  with_current None None (hideQRPopup m).

End Preview.

(** ** The background click tracker (background.js) *)

Module Background.
Import JS Regex.

Record Settings : Type := mkSettings {
  enabled : bool;
  openInNewTab : bool;
  showPreview : bool;
  highlightLinks : bool;
  linkStyle : jsstring;
  trackHistory : bool;
  expandShortUrls : bool;
  maxHistoryItems : Z
}.

Definition DEFAULT_SETTINGS : Settings :=
  mkSettings true true true true (lit "default") true true 100.

Record Entry : Type := mkEntry {
  url : jsstring;
  hostname : jsstring;
  timestamp : Z;
  id : jsstring
}.

(** What a property of [stats.domains] holds: a number, or a string once
    a string has been added to. *)
Inductive Count : Type :=
| Num (n : Z)
| Str (s : jsstring).

(** The [stats] object: [domains] is a plain object keyed by hostname, and
    the map holds its own properties. *)
Record Stats : Type := mkStats {
  totalClicks : Z;
  domains : gmap jsstring Count
}.

(** What a plain object inherits from [Object.prototype]: built-in
    functions, given by their [name], and the accessor [__proto__]. *)
Inductive Inherited : Type :=
| Builtin (name : jsstring)
| Proto.

Definition inherited (key : jsstring) : option Inherited :=
  if streq key (lit "constructor") then Some (Builtin (lit "Object"))
  else if existsb (streq key)
            (map lit ["hasOwnProperty"; "isPrototypeOf"; "propertyIsEnumerable";
                      "toLocaleString"; "toString"; "valueOf"; "__defineGetter__";
                      "__defineSetter__"; "__lookupGetter__"; "__lookupSetter__"]%string)
  then Some (Builtin key)
  else if streq key (lit "__proto__") then Some Proto
  else None.

(** The text of a built-in function, as the engine of the browser that
    runs the extension prints it. *)
Definition native_text (name : jsstring) : jsstring :=
  lit "function " ++ name ++ lit "() { [native code] }".

(** [(domains[key] || 0) + 1]: an own property is read first, then the
    inherited ones; a number is added to, any other truthy value is turned
    into a string and has [1] put after it. *)
Definition bumped (domains : gmap jsstring Count) (key : jsstring) : Count :=
  match domains !! key with
  | Some (Num n) => Num (n + 1)
  | Some (Str []) => Num 1
  | Some (Str s) => Str (s ++ lit "1")
  | None =>
      match inherited key with
      | Some (Builtin name) => Str (native_text name ++ lit "1")
      | Some Proto => Str (lit "[object Object]1")
      | None => Num 1
      end
  end.

(** [domains[key] = value]: an own property is written or made, except
    that without an own property the key [__proto__] reaches the inherited
    setter, which ignores a value that is not an object. *)
Definition assign (domains : gmap jsstring Count) (key : jsstring) (value : Count)
  : gmap jsstring Count :=
  match domains !! key, inherited key with
  | None, Some Proto => domains
  | _, _ => <[key := value]> domains
  end.

(** The extension's storage: [chrome.storage.sync] holds [settings],
    [chrome.storage.local] holds [clickHistory] and [stats]; a key not yet
    written is [None]. *)
Record Storage : Type := mkStorage {
  settings : option Settings;
  clickHistory : option (list Entry);
  stats : option Stats
}.

(** The handler's response: [success: true] with [tracked], or
    [success: false] with [error]. *)
Inductive Reply : Type :=
| Success (tracked : bool)
| Failure (error : jsstring).

(** A number as the template literal prints it. *)
Definition number (z : Z) : jsstring :=
  (if (z <? 0)%Z then lit "-" else []) ++ URLStd.dec (Z.to_N (Z.abs z)).

(** [/^www\./] *)
Definition LEADING_WWW : regex := Seq BeginA (str "www.").

Section Track.

Variable new_URL : jsstring -> option URLObject.
(** The message of the TypeError that [new URL] throws. *)
Variable invalid_url : jsstring.

(** [trackLinkClick(url)]: [url] is [None] for a message without one;
    [now_timestamp] and [now_id] are the two readings of [Date.now()], and
    [random] is [Math.random().toString(36).substr(2, 9)]. *)
Definition trackLinkClick (st : Storage) (url : option jsstring)
           (now_timestamp now_id : Z) (random : jsstring) : Reply * Storage :=
  match url with
  | None | Some [] => (Failure (lit "No URL provided"), st)
  | Some url =>
      let settings := default DEFAULT_SETTINGS (settings st) in
      if negb (trackHistory settings) then (Success false, st)
      else
        let clickHistory := default [] (clickHistory st) in
        match new_URL url with
        | None => (Failure invalid_url, st)
        | Some parsed =>
            let entry :=
              mkEntry url (replace_first false LEADING_WWW [] (Platform.hostname parsed))
                      now_timestamp (number now_id ++ lit "-" ++ random) in
            let clickHistory := entry :: clickHistory in
            let trimmedHistory := firstn 100 clickHistory in
            let stats := default (mkStats 0 ∅) (stats st) in
            let stats :=
              mkStats (totalClicks stats + 1)
                      (assign (domains stats) (hostname entry)
                              (bumped (domains stats) (hostname entry))) in
            (Success true, mkStorage (Background.settings st) (Some trimmedHistory) (Some stats))
        end
  end.

End Track.

End Background.

(** ** Vocabulary of the properties

    The predicates and sample values that the statements of part II use. *)

Module Vocabulary.
Import JS Regex Content.

(** *** Runs of the matcher *)

(** [y] is [x] moved forward over the units [mid]. *)
Definition moved (x y : mstate) (mid : list N) : Prop :=
  after x = mid ++ after y /\
  before y = rev mid ++ before x /\
  consumed y = (consumed x + length mid)%nat.

(** What a successful run of a matcher did: it handed some state [y] to the
    continuation, which succeeded there, and [y] lies forward of [x] by at
    least [n] units, all of them units that satisfy [P]. *)
Definition run_ok (P : N -> bool) (n : nat) (x : mstate)
           (k : mstate -> option mstate) (z : mstate) : Prop :=
  exists y mid, k y = Some z /\ moved x y mid /\ (n <= length mid)%nat /\
                forallb P mid = true.

(** The attempt of a pattern at index [j] of a string. *)
Definition attempt (ic : bool) (r : regex) (s : jsstring) (j : nat) : option nat :=
  match_at ic r (rev (firstn j s)) (skipn j s).

(** Whether a pattern has [$], [^], and whether one of its lookbehind
    classes holds the unit [d]. *)
Fixpoint uses_end (r : regex) : bool :=
  match r with
  | EndA => true
  | Seq a b | Alt a b => uses_end a || uses_end b
  | Rep r' _ _ => uses_end r'
  | _ => false
  end.

Fixpoint uses_begin (r : regex) : bool :=
  match r with
  | BeginA => true
  | Seq a b | Alt a b => uses_begin a || uses_begin b
  | Rep r' _ _ => uses_begin r'
  | _ => false
  end.

Fixpoint behind (ic : bool) (r : regex) (d : N) : bool :=
  match r with
  | NotBehind rs => class_match ic rs d
  | Seq a b | Alt a b => behind ic a d || behind ic b d
  | Rep r' _ _ => behind ic r' d
  | _ => false
  end.

(** Whether every pattern character and class bound of a pattern is ASCII. *)
Fixpoint ascii_only (r : regex) : bool :=
  match r with
  | Chr p => (p <? 128)%N
  | Class rs | NotBehind rs => forallb (fun b => (snd b <? 128)%N) rs
  | Seq a b | Alt a b => ascii_only a && ascii_only b
  | Rep r' _ _ => ascii_only r'
  | _ => true
  end.

(** Two results with the same length of match. *)
Definition same_len (a b : option mstate) : Prop :=
  option_map consumed a = option_map consumed b.

(** The input of the left run is the input of the right run followed by
    [tail], whose first unit is neither a word character nor one that the
    pattern can consume. *)
Definition cut_after (tail : list N) (x x' : mstate) : Prop :=
  before x = before x' /\ consumed x = consumed x' /\ after x = after x' ++ tail.

Definition blocked (tail : list N) (P : N -> bool) : Prop :=
  match tail with
  | [] => True
  | c :: _ => P c = false /\ is_word c = false
  end.

(** The units before the left run's position are those of the right run
    followed by [tail], whose nearest unit is neither a word character nor
    in a lookbehind class of the pattern. *)
Definition cut_before (tail : list N) (x x' : mstate) : Prop :=
  after x = after x' /\ consumed x = consumed x' /\ before x = before x' ++ tail.

Definition clear_before (tail : list N) (P : N -> bool) : Prop :=
  match tail with
  | [] => True
  | d :: _ => P d = false /\ is_word d = false
  end.

(** *** The sanitizer *)

(** Case-insensitive prefix test. *)
Fixpoint starts_with_ci (p s : jsstring) : bool :=
  match p, s with
  | [], _ => true
  | a :: p', c :: s' => chr_match true a c && starts_with_ci p' s'
  | _ :: _, [] => false
  end.

(** The string starts with [http://] or [https://], in any letter case. *)
Definition has_http_scheme (s : jsstring) : bool :=
  starts_with_ci (lit "http://") s || starts_with_ci (lit "https://") s.

(** The string that [sanitizeUrl] parses. *)
Definition with_https (s : jsstring) : jsstring :=
  if has_http_scheme s then s else lit "https://" ++ s.

(** The dot-separated labels of a hostname, in lower case. *)
Definition labels (hostname : jsstring) : list jsstring :=
  split_on (ch ".") (toLowerCase hostname).

(** What makes [sanitizeUrl] accept a parsed URL: the scheme is http or
    https, and the hostname's trailing label is in the allow-list or the
    hostname has at least two labels. *)
Definition acceptable (parsed : URLObject) : Prop :=
  (Platform.protocol parsed = lit "http:" \/ Platform.protocol parsed = lit "https:") /\
  (In (List.last (labels (Platform.hostname parsed)) []) VALID_TLDS \/
   (2 <= length (labels (Platform.hostname parsed)))%nat).

(** *** Pieces and tokens *)

(** The text of a piece, before escaping. *)
Definition piece_text (p : piece) : jsstring :=
  match p with
  | Plain text => text
  | Anchor _ _ matchedUrl => matchedUrl
  end.

(** What the loop guarantees of a piece it appends while
    [URL_REGEX.lastIndex] is at least [li]: an anchor stands for a match of
    [URL_REGEX] in the text, at an index from [li] on, that is neither
    file-extension-like nor truncated and that the sanitizer accepted; its
    href is the sanitizer's result. *)
Definition piece_ok (new_URL : jsstring -> option URLObject) (text : jsstring) (li : nat)
           (p : piece) : Prop :=
  match p with
  | Plain _ => True
  | Anchor i h l =>
      (li <= i)%nat /\ (i + length l <= length text)%nat /\
      l = slice text i (i + length l) /\
      attempt true URL_REGEX text i = Some (length l) /\
      isFileExtension l = false /\ isTruncatedUrl l = false /\
      sanitizeUrl new_URL l = Some h /\ h <> []
  end.


(** What each piece of the output for [text] satisfies: the text of an
    anchor is a match of [URL_REGEX] in [text] on which [isFileExtension]
    is false. *)
Definition no_extension (text : jsstring) (p : piece) : Prop :=
  match p with
  | Plain _ => True
  | Anchor i _ l =>
      l = slice text i (i + length l) /\
      attempt true URL_REGEX text i = Some (length l) /\
      isFileExtension l = false
  end.

(** A unit outside [[-a-zA-Z0-9@:%_+.~#?&/=()]]. *)
Definition outside (c : N) : bool := negb (class_match true path_chars c).

(** The text before a token is empty or ends with a unit outside the
    class; the text after it is empty or starts with one. *)
Definition ends_clear (pre : jsstring) : bool :=
  match rev pre with [] => true | d :: _ => outside d end.

Definition starts_clear (post : jsstring) : bool :=
  match post with [] => true | c :: _ => outside c end.

Definition is_anchor (p : piece) : bool :=
  match p with Anchor _ _ _ => true | Plain _ => false end.

(** Whether a piece is an anchor that overlaps the [n] units from index [a]. *)
Definition overlaps (a n : nat) (p : piece) : bool :=
  match p with
  | Anchor i _ l => (i <? a + n)%nat && (a <? i + length l)%nat
  | Plain _ => false
  end.

Definition shift (a : nat) (p : piece) : piece :=
  match p with
  | Anchor i h l => Anchor (a + i) h l
  | Plain t => Plain t
  end.

(** No anchor overlaps the [n] units from index [a]. *)
Definition untouched (a n : nat) (ps : list piece) : Prop :=
  List.filter (overlaps a n) ps = [].

(** The candidates of [linkifyText] for a text: the matches that the
    successive calls of [URL_REGEX.exec(text)] in its loop return, each
    with its index and its length, [reLastIndex] being [lastIndex] before
    the first call. Each call costs one unit of fuel. *)
Fixpoint candidates_from (fuel : nat) (text : jsstring) (reLastIndex : nat)
  : list (nat * nat) :=
  match fuel with
  | O => []
  | S fuel' =>
      match exec_global true URL_REGEX text reLastIndex with
      | (Some (index, len), reLastIndex') =>
          (index, len) :: candidates_from fuel' text reLastIndex'
      | (None, _) => []
      end
  end.

Definition candidates (text : jsstring) : list (nat * nat) :=
  candidates_from (S (length text)) text 0.


(** The pieces laid one after the other from offset [pos]: what the plain
    piece that covers the units from [index] to [index + len] holds there,
    and [None] when no plain piece covers them. *)
Fixpoint plain_span (pos : nat) (ps : list piece) (index len : nat) : option jsstring :=
  match ps with
  | [] => None
  | Plain t :: r =>
      if (pos <=? index)%nat && (index + len <=? pos + length t)%nat
      then Some (slice t (index - pos) (index - pos + len))
      else plain_span (pos + length t) r index len
  | Anchor _ _ l :: r => plain_span (pos + length l) r index len
  end.


(** *** The page *)

(** Whether a node is an element that carries the processed mark. *)
Definition marked (n : node) : bool :=
  match n with
  | Element _ _ attrs _ => hasAttribute PROCESSED attrs
  | TextNode _ => false
  end.

Definition eid_of (n : node) : option nat :=
  match n with
  | Element i _ _ _ => Some i
  | TextNode _ => None
  end.

Definition sample_page : Page :=
  mkPage (Element 1 (lit "DIV") []
            [Element 2 (lit "SPAN") [(lit "dir", lit "auto")]
               [TextNode (lit "see https://example.com/path for details")]])
         0 3 [].

(** *** The preview manager *)

Definition sample_data : Preview.PreviewData :=
  Preview.mkData (lit "website") (lit "https://example.com/") (lit "example.com")
         (lit "https://example.com/favicon.ico") None (lit "Example") [] None false.

Definition sample_world : Preview.World := Preview.mkWorld 1280 800 [] [] 0 [].

Definition sample_link (i : nat) : Preview.LinkElement := Preview.mkLink i 100 120 50.

Definition after_two_shows (siteHandler : Preview.Site -> jsstring -> URLObject -> Preview.PreviewData)
  : Preview.Manager * Preview.World * option Preview.Pending :=
  let '(m1, w1, _) :=
    Preview.show URLStd.new_URL URLStd.encodeURIComponent siteHandler Preview.constructor sample_world
         (sample_link 1) (lit "https://example.com/a") 0 in
  Preview.show URLStd.new_URL URLStd.encodeURIComponent siteHandler m1 w1
       (sample_link 2) (lit "https://example.org/b") 50.

Definition after_first_show : Preview.Manager * Preview.World * option Preview.Pending :=
  Preview.show URLStd.new_URL URLStd.encodeURIComponent (fun _ _ _ => sample_data) Preview.constructor
       sample_world (sample_link 1) (lit "https://example.com/a") 0.

Definition after_second_show : Preview.Manager * Preview.World * option Preview.Pending :=
  Preview.show URLStd.new_URL URLStd.encodeURIComponent (fun _ _ _ => sample_data)
       (fst (fst after_first_show)) (snd (fst after_first_show))
       (sample_link 2) (lit "https://example.org/b") 50.

(** *** The click tracker *)

(** A hostname without a leading [www.]. *)
Definition strip_www (hostname : jsstring) : jsstring :=
  if starts_with (lit "www.") hostname then skipn 4 hostname else hostname.

(** The settings in force: the stored ones, or the defaults. *)
Definition settings_in_force (st : Background.Storage) : Background.Settings :=
  default Background.DEFAULT_SETTINGS (Background.settings st).

Definition sample_storage (track : bool) : Background.Storage :=
  Background.mkStorage (Some (Background.mkSettings true true true true (lit "default") track true 100))
            (Some [Background.mkEntry (lit "https://old.example/") (lit "old.example") 5 (lit "5-abc")])
            (Some (Background.mkStats 1 {[ lit "old.example" := Background.Num 1 ]})).

End Vocabulary.

(** ** content.js: what the linkifier's output looks like *)

Module Shape.
Import JS Regex Content.

(** The units that HTML escaping leaves as they are. *)
Definition plain_unit (c : N) : bool :=
  negb ((c =? 38) || (c =? 160) || (c =? 60) || (c =? 62))%N.

(** The units that a match of [URL_REGEX] can hold: ASCII letters and
    digits and the punctuation of its character classes. *)
Definition url_char (c : N) : bool :=
  is_alnum c || existsb (N.eqb c) (lit "-@:%._+~#=?&/()").

(** The label of an anchor has at least four units, all of them
    [url_char]s. *)
Definition label_ok (p : piece) : Prop :=
  match p with
  | Plain _ => True
  | Anchor _ _ l => (4 <= length l)%nat /\ forallb url_char l = true
  end.

(** The pieces lie one after the other from offset [pos] of the text:
    the index of each anchor is the offset at which its label starts. *)
Fixpoint aligned (pos : nat) (ps : list piece) : Prop :=
  match ps with
  | [] => True
  | Plain t :: r => aligned (pos + length t) r
  | Anchor i _ l :: r => i = pos /\ aligned (pos + length l) r
  end.

(** The number of anchors among the pieces. *)
Definition anchors (ps : list piece) : nat :=
  length (List.filter (fun p => match p with Anchor _ _ _ => true | Plain _ => false end) ps).

End Shape.

(** ** content.js: the two exclusion tests, as string predicates *)

Module Suffix.
Import JS Regex Content Vocabulary.

(** The matcher's state [n] units further on. *)
Definition advance (x : mstate) (n : nat) : mstate :=
  MState (rev (firstn n (after x)) ++ before x) (skipn n (after x)) (consumed x + n).

(** [s.endsWith(p)], and the same up to the case of ASCII letters. *)
Definition ends_with (p s : jsstring) : bool :=
  (length p <=? length s)%nat && starts_with p (skipn (length s - length p) s).

Definition ends_with_ci (p s : jsstring) : bool :=
  (length p <=? length s)%nat && starts_with_ci p (skipn (length s - length p) s).

(** The extensions that [FILE_EXTENSIONS] lists. *)
Definition LISTED_EXTENSIONS : list string :=
  ["js"; "css"; "png"; "jpg"; "jpeg"; "gif"; "svg"; "webp"; "ico"; "woff"; "woff2"; "ttf";
   "eot"; "map"]%string.

(** The text ends with a dot and a listed extension, in any letter case. *)
Definition has_listed_extension (text : jsstring) : bool :=
  existsb (fun e => ends_with_ci (ch "." :: lit e) text) LISTED_EXTENSIONS.

(** The text ends with two dots, or with the three units U+00E2 U+20AC
    U+00A6. *)
Definition ends_truncated (text : jsstring) : bool :=
  ends_with (lit "..") text || ends_with [226; 8364; 166]%N text.

End Suffix.

(** ** content.js: what every match of a pattern holds *)

Module Dots.
Import JS Regex Content Vocabulary.

(** Whether the pattern cannot match without consuming a full stop: a
    sufficient reading of the pattern. *)
Fixpoint needs_dot (r : regex) : bool :=
  match r with
  | Chr p => (p =? 46)%N
  | Seq a b => needs_dot a || needs_dot b
  | Alt a b => needs_dot a && needs_dot b
  | Rep r' (S _) None | Rep r' (S _) (Some (S _)) => needs_dot r'
  | _ => false
  end.

(** A successful run handed the continuation a state that lies forward
    by units among which, if [flag] is set, there is a full stop. *)
Definition run_has (flag : bool) (x : mstate) (k : mstate -> option mstate) (z : mstate)
  : Prop :=
  exists y mid, k y = Some z /\ moved x y mid /\ (flag = true -> In 46%N mid).

(** The text holds no full stop. *)
Definition dotless (text : jsstring) : bool := forallb (fun c => negb (c =? 46)%N) text.

(** The label of an anchor holds a full stop. *)
Definition label_has_dot (p : piece) : Prop :=
  match p with
  | Plain _ => True
  | Anchor _ _ l => In 46%N l
  end.

End Dots.

(** ** preview.js: what the card shows *)

Module CardView.
Import JS Preview.

(** The [style.display] of the card's three panels: loading, content and
    error, in this order. *)
Definition panels (card : Card) : option jsstring * option jsstring * option jsstring :=
  (card !! (".preview-loading", "style.display")%string,
   card !! (".preview-content", "style.display")%string,
   card !! (".preview-error", "style.display")%string).

(** Whether the card carries the class [visible]. *)
Definition visible (card : Card) : bool :=
  bool_decide (card !! (CARD, "class.visible"%string) = Some (lit "true")).

(** The address that [fetchGenericPreview] asks the metadata service for. *)
Definition api_url (encoded : jsstring) : jsstring :=
  lit "https://api.microlink.io?url=" ++ encoded.

(** Whether a failure message of the service tells of a dead link. *)
Definition tells_dead (message : jsstring) : bool :=
  includes (lit "404") message || includes (lit "not found") message
  || includes (lit "ENOTFOUND") message.

End CardView.

(** ** preview.js: preloading *)

Module Preload.
Import JS Preview.

Definition with_preload (q : list jsstring) (p : bool) (m : Manager) : Manager :=
  mkManager (cache m) (cacheDuration m) (previewElement m) (qrPopup m) (currentUrl m)
            (currentLink m) (hoverTimeout m) (hideTimeout m) (fetchController m) q p.

(** [this.cache.has(url)] *)
Definition cache_has (m : Manager) (url : jsstring) : bool :=
  match cache m !! url with Some _ => true | None => false end.

(** [this.preloadQueue.has(url)] and [this.preloadQueue.delete(url)] *)
Definition queue_has (m : Manager) (url : jsstring) : bool :=
  existsb (streq url) (preloadQueue m).
Definition queue_delete (url : jsstring) (q : list jsstring) : list jsstring :=
  List.filter (fun u => negb (streq url u)) q.

(** Where [processPreloadQueue] waits: for the metadata of [url], or for
    the pause after a URL; [rest] is what is left of the URLs it took
    from the queue. *)
Inductive PreloadWait : Type :=
| AwaitData (url : jsstring) (p : Pending) (rest : list jsstring)
| AwaitPause (rest : list jsstring).

(** What a call of the preloader leaves behind: nothing (it returned at
    once), a wait, or the end of its loop, with whether it has set the
    timer that calls it again. *)
Inductive PreloadState : Type :=
| Idle
| Waiting (wt : PreloadWait)
| Finished (again : bool).

Section Preloader.

Variable new_URL : jsstring -> option URLObject.
Variable encodeURIComponent : jsstring -> option jsstring.
Variable siteHandler : Site -> jsstring -> URLObject -> PreviewData.
(** Whether [chrome.runtime?.id] is set: the extension is still loaded. *)
Variable runtime : bool.

(** The [for] loop of [processPreloadQueue] from the head of a turn to
    the next wait, or to the end of the function. *)
Definition preload_turn (m : Manager) (w : World) (urls : list jsstring)
  : Manager * World * PreloadState :=
  match urls with
  | url :: rest =>
      let m := with_preload (queue_delete url (preloadQueue m)) (isPreloading m) m in
      if negb (cache_has m url)
      then let '(p, w) := fetchPreviewData new_URL encodeURIComponent siteHandler w url in
           (m, w, Waiting (AwaitData url p rest))
      else (m, w, Waiting (AwaitPause rest))
  | [] =>
      let m := with_preload (preloadQueue m) false m in
      (m, w, Finished (negb (length (preloadQueue m) =? 0)%nat && runtime))
  end.

(** [processPreloadQueue()] up to its first wait. *)
Definition processPreloadQueue (m : Manager) (w : World) : Manager * World * PreloadState :=
  if isPreloading m || (length (preloadQueue m) =? 0)%nat then (m, w, Idle)
  else if negb runtime then (with_preload [] (isPreloading m) m, w, Idle)
  else
    let m := with_preload (preloadQueue m) true m in
    let urls := firstn 5 (preloadQueue m) in
    preload_turn m w urls.

(** [processPreloadQueue] from the end of [await this.fetchPreviewData(url)]
    to the pause. *)
Definition preload_settled (m : Manager) (w : World) (o : Outcome) (url : jsstring)
           (rest : list jsstring) (now : Z) : Manager * World * PreloadState :=
  match o with
  | Data data =>
      (setCache m url data now, if is404 data then markDeadLink w url else w,
       Waiting (AwaitPause rest))
  | Error _ => (m, w, Waiting (AwaitPause rest))
  end.

(** [processPreloadQueue] from the end of the pause on. *)
Definition preload_resumed (m : Manager) (w : World) (rest : list jsstring)
  : Manager * World * PreloadState :=
  preload_turn m w rest.

(** [preloadLink(url)] *)
Definition preloadLink (m : Manager) (w : World) (url : jsstring)
  : Manager * World * PreloadState :=
  match url with
  | [] => (m, w, Idle)
  | _ :: _ =>
      if cache_has m url || queue_has m url then (m, w, Idle)
      else
        match new_URL url with
        | None => (m, w, Idle)
        | Some parsed =>
            if includes (lit "instagram.com") (Platform.hostname parsed) then (m, w, Idle)
            else
              let m := with_preload (preloadQueue m ++ [url]) (isPreloading m) m in
              if negb (isPreloading m) then processPreloadQueue m w else (m, w, Idle)
        end
  end.

End Preloader.

End Preload.

(** ** background.js: history and statistics handlers *)

Module Handlers.
Import JS Regex Background.

(** The [stats] object of a storage that has none yet. *)
Definition NO_STATS : Stats := mkStats 0 ∅.

(** [getClickHistory]: the [history] of the response. *)
Definition getClickHistory (st : Storage) : list Entry := default [] (clickHistory st).

(** [clearClickHistory]: the storage after. *)
Definition clearClickHistory (st : Storage) : Storage :=
  mkStorage (settings st) (Some []) (Some NO_STATS).

(** [getStats]: the [stats] of the response. *)
Definition getStats (st : Storage) : Stats := default NO_STATS (stats st).

(** The entry that [trackLinkClick] makes for a parsed URL. *)
Definition entry_of (url : jsstring) (parsed : URLObject) (now_timestamp now_id : Z)
           (random : jsstring) : Entry :=
  mkEntry url (replace_first false LEADING_WWW [] (Platform.hostname parsed))
          now_timestamp (number now_id ++ lit "-" ++ random).

End Handlers.

(* ===================================================================== *)
(** * Part II: properties *)
(* ===================================================================== *)

(** ** The regular expression matcher *)

Module RegexFacts.
Import JS Regex Vocabulary.

Lemma moved_refl x : moved x x [].
Proof. unfold moved; simpl. repeat split; lia. Qed.

Lemma moved_step x c t : after x = c :: t -> moved x (step x c t) [c].
Proof. intros H. unfold moved, step; simpl. rewrite H. repeat split; lia. Qed.

Lemma moved_trans x y z m1 m2 :
  moved x y m1 -> moved y z m2 -> moved x z (m1 ++ m2).
Proof.
  intros (A1 & B1 & C1) (A2 & B2 & C2). unfold moved.
  rewrite A1, A2, B2, B1, C2, C1, rev_app_distr, length_app, <- !app_assoc.
  repeat split; lia.
Qed.

Lemma run_ok_weaken (P Q : N -> bool) n n' x k z :
  (forall c, P c = true -> Q c = true) -> (n' <= n)%nat ->
  run_ok P n x k z -> run_ok Q n' x k z.
Proof.
  intros HPQ Hn (y & mid & Hk & Hm & Hl & Hf).
  exists y, mid. repeat split; try apply Hm; auto; try lia.
  rewrite forallb_forall in *. auto.
Qed.

(** The levels of a quantifier keep the property of the matcher they
    repeat; with a positive minimum and no maximum, at least one run of it
    is part of every match. *)
Lemma repeat_matcher_ok (P : N -> bool) (n : nat) m k :
  (forall x d z, m x d = Some z -> run_ok P n x d z) ->
  forall fuel mn mx x z,
    repeat_matcher m k fuel mn mx x = Some z ->
    run_ok P (match mn, mx with S _, None => n | _, _ => 0 end) x k z.
Proof.
  intros Hm. induction fuel as [|fuel IH]; intros mn mx x z H; [discriminate|].
  simpl in H.
  assert (Hstop : k x = Some z -> run_ok P 0 x k z).
  { intros Hk. exists x, []. split; [exact Hk|]. split; [apply moved_refl|].
    split; [simpl; lia|reflexivity]. }
  assert (Hgo : forall d,
             (forall y, d y = Some z ->
                repeat_matcher m k fuel (Nat.pred mn) (option_map Nat.pred mx) y = Some z) ->
             m x d = Some z -> run_ok P n x k z).
  { intros d Hd Hmx. destruct (Hm _ _ _ Hmx) as (y & mid & Hdy & Hmv & Hl & Hf).
    destruct (IH _ _ _ _ (Hd _ Hdy)) as (y' & mid' & Hk & Hmv' & _ & Hf').
    exists y', (mid ++ mid'). split; [exact Hk|]. split; [eapply moved_trans; eauto|].
    split; [rewrite length_app; lia|]. rewrite forallb_app, Hf, Hf'. reflexivity. }
  assert (Hd : forall y,
             (if (mn =? 0)%nat && (consumed y =? consumed x)%nat then None
              else repeat_matcher m k fuel (Nat.pred mn) (option_map Nat.pred mx) y) = Some z ->
             repeat_matcher m k fuel (Nat.pred mn) (option_map Nat.pred mx) y = Some z).
  { intros y Hy. destruct (_ && _); [discriminate|exact Hy]. }
  assert (Hweak : run_ok P n x k z -> run_ok P 0 x k z).
  { apply run_ok_weaken; [auto|lia]. }
  destruct mx as [[|mx']|].
  - destruct mn; auto.
  - destruct mn as [|mn'].
    + destruct (m x _) eqn:E; [|auto]. inversion H; subst. apply Hweak. eapply Hgo; [|exact E]. exact Hd.
    + apply Hweak. eapply Hgo; [|exact H]. exact Hd.
  - destruct mn as [|mn'].
    + destruct (m x _) eqn:E; [|auto]. inversion H; subst. apply Hweak. eapply Hgo; [|exact E]. exact Hd.
    + eapply Hgo; [|exact H]. exact Hd.
Qed.

(** Every successful run of a pattern hands the continuation a state that
    lies forward by at least [min_len r] units, all of which [r] can
    consume. *)
Lemma rmatch_ok ic r :
  forall x k z, rmatch ic r x k = Some z -> run_ok (consumes ic r) (min_len r) x k z.
Proof.
  assert (Hhere : forall P x (k : mstate -> option mstate) z,
             k x = Some z -> run_ok P 0 x k z).
  { intros P x k z Hk. exists x, []. split; [exact Hk|]. split; [apply moved_refl|].
    split; [simpl; lia|reflexivity]. }
  induction r as [|p|rs|a IHa b IHb|a IHa b IHb|r' IH mn mx| | | |rs]; intros x k z H;
    cbn [rmatch] in H.
  - apply Hhere; exact H.
  - destruct (after x) as [|c t] eqn:E; [discriminate|].
    destruct (chr_match ic p c) eqn:Ec; [|discriminate].
    exists (step x c t), [c]. split; [exact H|]. split; [apply moved_step; exact E|].
    split; [simpl; lia|]. simpl. rewrite Ec. reflexivity.
  - destruct (after x) as [|c t] eqn:E; [discriminate|].
    destruct (class_match ic rs c) eqn:Ec; [|discriminate].
    exists (step x c t), [c]. split; [exact H|]. split; [apply moved_step; exact E|].
    split; [simpl; lia|]. simpl. rewrite Ec. reflexivity.
  - destruct (IHa _ _ _ H) as (y & mid & Hy & Hmv & Hl & Hf).
    destruct (IHb _ _ _ Hy) as (y' & mid' & Hk & Hmv' & Hl' & Hf').
    exists y', (mid ++ mid'). split; [exact Hk|]. split; [eapply moved_trans; eauto|].
    split; [rewrite length_app; simpl; lia|].
    rewrite forallb_app. apply andb_true_intro. split.
    + rewrite forallb_forall in *. intros c Hc. simpl. rewrite (Hf c Hc). reflexivity.
    + rewrite forallb_forall in *. intros c Hc. simpl. rewrite (Hf' c Hc). apply orb_true_r.
  - destruct (rmatch ic a x k) eqn:E.
    + inversion H; subst. eapply run_ok_weaken; [| |apply (IHa _ _ _ E)].
      * intros c Hc. simpl. rewrite Hc. reflexivity.
      * simpl. lia.
    + eapply run_ok_weaken; [| |apply (IHb _ _ _ H)].
      * intros c Hc. simpl. rewrite Hc. apply orb_true_r.
      * simpl. lia.
  - pose proof (repeat_matcher_ok (consumes ic r') (min_len r') (rmatch ic r') k IH
                  _ _ _ _ _ H) as Hr.
    eapply run_ok_weaken; [| |exact Hr]; [auto|].
    simpl. destruct mn; [lia|]. destruct mx; lia.
  - destruct (xorb _ _); [|discriminate]. apply Hhere; exact H.
  - destruct (before x); [|discriminate]. apply Hhere; exact H.
  - destruct (after x); [|discriminate]. apply Hhere; exact H.
  - destruct (before x) as [|c t]; [apply Hhere; exact H|].
    destruct (class_match ic rs c); [discriminate|]. apply Hhere; exact H.
Qed.

Lemma match_at_ok ic r bef aft len :
  match_at ic r bef aft = Some len ->
  exists mid rest, aft = mid ++ rest /\ len = length mid /\ (min_len r <= len)%nat /\
                   forallb (consumes ic r) mid = true.
Proof.
  unfold match_at. destruct (rmatch _ _ _ _) as [z|] eqn:E; [|discriminate].
  simpl. intros H; inversion H; subst; clear H.
  destruct (rmatch_ok _ _ _ _ _ E) as (y & mid & Hk & (Ha & _ & Hc) & Hl & Hf).
  inversion Hk; subst. simpl in *. exists mid, (after z). repeat split; auto; lia.
Qed.

(** The scan returns the first position, from its start on, at which an
    attempt succeeds. *)
Lemma scan_some ic r :
  forall aft bef idx i len,
    scan ic r bef aft idx = Some (i, len) ->
    exists pre rest,
      aft = pre ++ rest /\ i = (idx + length pre)%nat /\
      match_at ic r (rev pre ++ bef) rest = Some len /\
      (forall p1 p2, pre = p1 ++ p2 -> p2 <> [] ->
                     match_at ic r (rev p1 ++ bef) (p2 ++ rest) = None).
Proof.
  induction aft as [|c t IH]; intros bef idx i len H; simpl in H.
  - destruct (match_at ic r bef []) as [l|] eqn:E; [|discriminate].
    inversion H; subst. exists [], []. simpl. repeat split; auto; try lia.
    intros p1 p2 Hp Hne. destruct p1; destruct p2; simpl in *; congruence.
  - destruct (match_at ic r bef (c :: t)) as [l|] eqn:E.
    + inversion H; subst. exists [], (c :: t). simpl. repeat split; auto; try lia.
      intros p1 p2 Hp Hne. destruct p1; destruct p2; simpl in *; congruence.
    + destruct (IH _ _ _ _ H) as (pre & rest & Ht & Hi & Hm & Hfirst).
      exists (c :: pre), rest. simpl. rewrite <- app_assoc. simpl.
      split; [rewrite Ht; reflexivity|]. split; [lia|]. split; [exact Hm|].
      intros p1 p2 Hp Hne. destruct p1 as [|c' p1]; simpl in *.
      * subst p2. simpl. rewrite <- Ht. exact E.
      * inversion Hp; subst. rewrite <- app_assoc. simpl. apply Hfirst; auto.
Qed.

Lemma scan_none ic r :
  forall aft bef idx,
    scan ic r bef aft idx = None ->
    forall p1 p2, aft = p1 ++ p2 -> match_at ic r (rev p1 ++ bef) p2 = None.
Proof.
  induction aft as [|c t IH]; intros bef idx H p1 p2 Hp; simpl in H.
  - destruct p1; destruct p2; simpl in *; try discriminate.
    destruct (match_at ic r bef []); [discriminate|reflexivity].
  - destruct (match_at ic r bef (c :: t)) as [l|] eqn:E; [discriminate|].
    destruct p1 as [|c' p1]; simpl in *.
    + subst p2. exact E.
    + inversion Hp; subst. rewrite <- app_assoc. simpl. eapply IH; eauto.
Qed.

Lemma split_at (s : list N) li pre rest :
  skipn li s = pre ++ rest -> (li <= length s)%nat ->
  firstn (li + length pre) s = firstn li s ++ pre /\
  skipn (li + length pre) s = rest.
Proof.
  intros Hs Hl.
  assert (E : s = (firstn li s ++ pre) ++ rest).
  { rewrite <- app_assoc, <- Hs. symmetry. apply firstn_skipn. }
  assert (Hlen : length (firstn li s ++ pre) = (li + length pre)%nat).
  { rewrite length_app, firstn_length_le; lia. }
  split.
  - rewrite E at 1. rewrite <- Hlen. rewrite firstn_app.
    rewrite Nat.sub_diag, firstn_all. simpl. apply app_nil_r.
  - rewrite E at 1. rewrite <- Hlen. rewrite skipn_app.
    rewrite Nat.sub_diag, skipn_all. reflexivity.
Qed.

(** A successful [exec]: the match lies at or after [lastIndex], within the
    string, at the first index where an attempt succeeds; the new
    [lastIndex] is its end. *)
Lemma exec_global_some ic r s li i len li' :
  exec_global ic r s li = (Some (i, len), li') ->
  (li <= i)%nat /\ (i + len <= length s)%nat /\ li' = (i + len)%nat /\
  (min_len r <= len)%nat /\
  attempt ic r s i = Some len /\
  forallb (consumes ic r) (slice s i (i + len)) = true /\
  (forall j, (li <= j < i)%nat -> attempt ic r s j = None).
Proof.
  unfold exec_global. destruct (Nat.ltb_spec (length s) li) as [Hlt|Hle]; [discriminate|].
  destruct (scan _ _ _ _ _) as [[i0 len0]|] eqn:E; [|discriminate].
  intros H; inversion H; subst; clear H.
  destruct (scan_some _ _ _ _ _ _ _ E) as (pre & rest & Hs & Hi & Hm & Hfirst).
  destruct (split_at _ _ _ _ Hs Hle) as [Hf Hk].
  destruct (match_at_ok _ _ _ _ _ Hm) as (mid & rest' & Hr & Hlen & Hmin & Hall).
  assert (Hlens : length s = (li + length pre + length mid + length rest')%nat).
  { rewrite <- (firstn_skipn li s), Hs, Hr, !length_app, firstn_length_le; lia. }
  split; [lia|]. split; [lia|]. split; [reflexivity|]. split; [exact Hmin|].
  split; [|split].
  - unfold attempt. rewrite Hi, Hf, Hk, rev_app_distr. exact Hm.
  - unfold slice. rewrite Hi, Hk, Hr.
    replace (li + length pre + len - (li + length pre))%nat with (length mid) by lia.
    rewrite firstn_app, Nat.sub_diag, firstn_all. simpl. rewrite app_nil_r. exact Hall.
  - intros j Hj. unfold attempt.
    assert (Hp : pre = firstn (j - li) pre ++ skipn (j - li) pre)
      by (symmetry; apply firstn_skipn).
    assert (Hl1 : length (firstn (j - li) pre) = (j - li)%nat)
      by (rewrite firstn_length_le; lia).
    assert (Hne : skipn (j - li) pre <> []).
    { intros C. apply (f_equal (@length N)) in C. rewrite length_skipn in C. simpl in C. lia. }
    pose proof (Hfirst _ _ Hp Hne) as Hnone.
    assert (Hs' : skipn li s = firstn (j - li) pre ++ (skipn (j - li) pre ++ rest)).
    { rewrite app_assoc, <- Hp. exact Hs. }
    destruct (split_at _ _ _ _ Hs' Hle) as [Hf' Hk'].
    rewrite Hl1 in Hf', Hk'. replace (li + (j - li))%nat with j in * by lia.
    rewrite Hf', Hk', rev_app_distr. exact Hnone.
Qed.

(** A failed [exec]: no attempt from [lastIndex] on succeeds, and
    [lastIndex] is reset. *)
Lemma exec_global_none ic r s li li' :
  exec_global ic r s li = (None, li') ->
  li' = 0%nat /\ forall j, (li <= j <= length s)%nat -> attempt ic r s j = None.
Proof.
  unfold exec_global. destruct (Nat.ltb_spec (length s) li) as [Hlt|Hle].
  - intros H; inversion H. split; [reflexivity|]. intros j Hj. lia.
  - destruct (scan _ _ _ _ _) as [[i0 len0]|] eqn:E; [discriminate|].
    intros H; inversion H. split; [reflexivity|]. intros j Hj. unfold attempt.
    assert (Hs' : skipn li s = firstn (j - li) (skipn li s) ++ (skipn (j - li) (skipn li s) ++ []))
      by (rewrite app_nil_r; symmetry; apply firstn_skipn).
    assert (Hl1 : length (firstn (j - li) (skipn li s)) = (j - li)%nat)
      by (rewrite firstn_length_le; [lia|rewrite length_skipn; lia]).
    destruct (split_at _ _ _ _ Hs' Hle) as [Hf' Hk'].
    rewrite Hl1 in Hf', Hk'. replace (li + (j - li))%nat with j in * by lia.
    rewrite Hf', Hk', rev_app_distr, app_nil_r.
    eapply scan_none; [exact E|]. symmetry. apply firstn_skipn.
Qed.

End RegexFacts.

(** ** A unit that a pattern cannot consume acts as the end of the input *)

Module Boundary.
Import JS Regex RegexFacts Vocabulary.

Lemma same_len_alt a b a' b' :
  same_len a a' -> same_len b b' ->
  same_len (match a with Some z => Some z | None => b end)
           (match a' with Some z => Some z | None => b' end).
Proof. destruct a, a'; simpl; unfold same_len; simpl; intros; congruence. Qed.

Section After.

Variable ic : bool.
Variable tail : list N.

Lemma cut_after_step x x' c t :
  cut_after tail x x' -> after x' = c :: t ->
  after x = c :: t ++ tail /\ cut_after tail (step x c (t ++ tail)) (step x' c t).
Proof.
  intros (Hb & Hc & Ha) E. rewrite E in Ha. simpl in Ha. split; [exact Ha|].
  unfold cut_after, step; simpl. rewrite Hb, Hc. auto.
Qed.

Lemma repeat_matcher_cut m m' k k' :
  (forall x x' d d',
      cut_after tail x x' ->
      (forall y y' mid, cut_after tail y y' -> moved x' y' mid -> same_len (d y) (d' y')) ->
      same_len (m x d) (m' x' d')) ->
  forall f' f mn mx x x',
    cut_after tail x x' ->
    (forall y y' mid, cut_after tail y y' -> moved x' y' mid -> same_len (k y) (k' y')) ->
    (S (mn + length (after x')) <= f')%nat -> (f' <= f)%nat ->
    same_len (repeat_matcher m k f mn mx x) (repeat_matcher m' k' f' mn mx x').
Proof.
  intros Hm. induction f' as [|g' IH]; intros f mn mx x x' Hcut Hk Hf' Hf; [lia|].
  destruct f as [|g]; [lia|]. simpl.
  assert (Hkx : same_len (k x) (k' x')) by (apply (Hk x x' []); [exact Hcut|apply moved_refl]).
  assert (Hd : forall y y' mid, cut_after tail y y' -> moved x' y' mid ->
             same_len
               (if (mn =? 0)%nat && (consumed y =? consumed x)%nat then None
                else repeat_matcher m k g (Nat.pred mn) (option_map Nat.pred mx) y)
               (if (mn =? 0)%nat && (consumed y' =? consumed x')%nat then None
                else repeat_matcher m' k' g' (Nat.pred mn) (option_map Nat.pred mx) y')).
  { intros y y' mid Hy Hmv.
    destruct Hcut as (_ & Hcx & _). destruct Hy as (Hyb & Hyc & Hya).
    rewrite Hyc, Hcx.
    destruct ((mn =? 0)%nat && (consumed y' =? consumed x')%nat) eqn:Et; [reflexivity|].
    apply IH.
    - repeat split; assumption.
    - intros z z' mid2 Hz Hmv2. apply (Hk z z' (mid ++ mid2)); [exact Hz|].
      eapply moved_trans; eauto.
    - destruct Hmv as (Ha & _ & Hc).
      assert (Hlen : length (after x') = (length mid + length (after y'))%nat)
        by (rewrite Ha, length_app; reflexivity).
      destruct mn as [|mn0]; simpl in *.
      + apply Nat.eqb_neq in Et. lia.
      + lia.
    - lia. }
  destruct mx as [[|mx']|].
  - exact Hkx.
  - destruct mn as [|mn0].
    + apply same_len_alt; [|exact Hkx]. apply Hm; [exact Hcut|exact Hd].
    + apply Hm; [exact Hcut|exact Hd].
  - destruct mn as [|mn0].
    + apply same_len_alt; [|exact Hkx]. apply Hm; [exact Hcut|exact Hd].
    + apply Hm; [exact Hcut|exact Hd].
Qed.

(** A pattern without [$] runs alike on an input and on the input
    followed by a blocked tail. *)
Lemma rmatch_cut_after r :
  uses_end r = false -> blocked tail (consumes ic r) ->
  forall x x' k k',
    cut_after tail x x' ->
    (forall y y' mid, cut_after tail y y' -> moved x' y' mid -> same_len (k y) (k' y')) ->
    same_len (rmatch ic r x k) (rmatch ic r x' k').
Proof.
  assert (Hsub : forall (P Q : N -> bool), (forall c, P c = true -> Q c = true) ->
                                           blocked tail Q -> blocked tail P).
  { intros P Q HPQ. unfold blocked. destruct tail as [|c t]; [auto|].
    intros [HQ Hw]. split; [|exact Hw]. destruct (P c) eqn:E; [|reflexivity].
    rewrite (HPQ _ E) in HQ. discriminate. }
  induction r as [|p|rs|a IHa b IHb|a IHa b IHb|r' IH mn mx| | | |rs];
    intros Hend Hblk x x' k k' Hcut Hk; cbn [rmatch].
  - apply (Hk x x' []); [exact Hcut|apply moved_refl].
  - destruct (after x') as [|c t] eqn:E.
    + destruct Hcut as (_ & _ & Ha). rewrite E in Ha. simpl in Ha. rewrite Ha.
      unfold blocked in Hblk. destruct tail as [|c0 t0]; [reflexivity|].
      simpl in Hblk. destruct Hblk as [Hb _]. rewrite Hb. reflexivity.
    + destruct (cut_after_step _ _ _ _ Hcut E) as [Ha Hs]. rewrite Ha.
      destruct (chr_match ic p c); [|reflexivity].
      apply (Hk _ _ [c]); [exact Hs|apply moved_step; exact E].
  - destruct (after x') as [|c t] eqn:E.
    + destruct Hcut as (_ & _ & Ha). rewrite E in Ha. simpl in Ha. rewrite Ha.
      unfold blocked in Hblk. destruct tail as [|c0 t0]; [reflexivity|].
      simpl in Hblk. destruct Hblk as [Hb _]. rewrite Hb. reflexivity.
    + destruct (cut_after_step _ _ _ _ Hcut E) as [Ha Hs]. rewrite Ha.
      destruct (class_match ic rs c); [|reflexivity].
      apply (Hk _ _ [c]); [exact Hs|apply moved_step; exact E].
  - simpl in Hend. apply orb_false_elim in Hend. destruct Hend as [Ea Eb].
    apply IHa; [exact Ea| |exact Hcut|].
    + eapply Hsub; [|exact Hblk]. intros c Hc. simpl. rewrite Hc. reflexivity.
    + intros y y' mid Hy Hmv. apply IHb; [exact Eb| |exact Hy|].
      * eapply Hsub; [|exact Hblk]. intros c Hc. simpl. rewrite Hc. apply orb_true_r.
      * intros z z' mid2 Hz Hmv2. apply (Hk z z' (mid ++ mid2)); [exact Hz|].
        eapply moved_trans; eauto.
  - simpl in Hend. apply orb_false_elim in Hend. destruct Hend as [Ea Eb].
    apply same_len_alt.
    + apply IHa; auto. eapply Hsub; [|exact Hblk]. intros c Hc. simpl. rewrite Hc. reflexivity.
    + apply IHb; auto. eapply Hsub; [|exact Hblk]. intros c Hc. simpl. rewrite Hc. apply orb_true_r.
  - simpl in Hend. apply repeat_matcher_cut; auto.
    destruct Hcut as (_ & _ & Ha). rewrite Ha, length_app. lia.
  - assert (Hw : xorb (word_before x) (word_after x) = xorb (word_before x') (word_after x')).
    { destruct Hcut as (Hb & _ & Ha). unfold word_before, word_after. rewrite Hb, Ha.
      destruct (after x') as [|c t]; [|reflexivity]. simpl.
      unfold blocked in Hblk. destruct tail as [|c0 t0]; [reflexivity|].
      destruct Hblk as [_ Hw]. rewrite Hw. reflexivity. }
    rewrite Hw. destruct (xorb (word_before x') (word_after x')); [|reflexivity].
    apply (Hk x x' []); [exact Hcut|apply moved_refl].
  - pose proof Hcut as (Hb & Hc & Ha). rewrite Hb. destruct (before x') eqn:E; [|reflexivity].
    apply (Hk x x' []); [exact Hcut|apply moved_refl].
  - discriminate.
  - pose proof Hcut as (Hb & Hc & Ha). rewrite Hb. destruct (before x') as [|c t] eqn:E.
    + apply (Hk x x' []); [exact Hcut|apply moved_refl].
    + destruct (class_match ic rs c); [reflexivity|].
      apply (Hk x x' []); [exact Hcut|apply moved_refl].
Qed.

(** One attempt: the tail does not change the length of the match. *)
Lemma match_at_cut_after r bef aft :
  uses_end r = false -> blocked tail (consumes ic r) ->
  match_at ic r bef (aft ++ tail) = match_at ic r bef aft.
Proof.
  intros He Hb. unfold match_at.
  apply (rmatch_cut_after r He Hb (MState bef (aft ++ tail) 0) (MState bef aft 0) Some Some).
  - repeat split.
  - intros y y' mid (_ & Hc & _) _. unfold same_len. simpl. rewrite Hc. reflexivity.
Qed.

End After.

Section Before.

Variable ic : bool.
Variable tail : list N.

Lemma repeat_matcher_cut_before m m' k k' :
  (forall x x' d d',
      cut_before tail x x' ->
      (forall y y', cut_before tail y y' -> same_len (d y) (d' y')) ->
      same_len (m x d) (m' x' d')) ->
  forall f mn mx x x',
    cut_before tail x x' ->
    (forall y y', cut_before tail y y' -> same_len (k y) (k' y')) ->
    same_len (repeat_matcher m k f mn mx x) (repeat_matcher m' k' f mn mx x').
Proof.
  intros Hm. induction f as [|g IH]; intros mn mx x x' Hcut Hk; [reflexivity|].
  simpl.
  assert (Hd : forall y y', cut_before tail y y' ->
             same_len
               (if (mn =? 0)%nat && (consumed y =? consumed x)%nat then None
                else repeat_matcher m k g (Nat.pred mn) (option_map Nat.pred mx) y)
               (if (mn =? 0)%nat && (consumed y' =? consumed x')%nat then None
                else repeat_matcher m' k' g (Nat.pred mn) (option_map Nat.pred mx) y')).
  { intros y y' Hy. pose proof Hcut as (_ & Hcx & _). pose proof Hy as (_ & Hyc & _).
    rewrite Hyc, Hcx.
    destruct ((mn =? 0)%nat && (consumed y' =? consumed x')%nat); [reflexivity|].
    apply IH; assumption. }
  destruct mx as [[|mx']|].
  - apply Hk; exact Hcut.
  - destruct mn as [|mn0].
    + apply same_len_alt; [|apply Hk; exact Hcut]. apply Hm; [exact Hcut|exact Hd].
    + apply Hm; [exact Hcut|exact Hd].
  - destruct mn as [|mn0].
    + apply same_len_alt; [|apply Hk; exact Hcut]. apply Hm; [exact Hcut|exact Hd].
    + apply Hm; [exact Hcut|exact Hd].
Qed.

(** A pattern without [^] runs alike whether or not a clear tail lies
    before what precedes its position. *)
Lemma rmatch_cut_before r :
  uses_begin r = false -> clear_before tail (behind ic r) ->
  forall x x' k k',
    cut_before tail x x' ->
    (forall y y', cut_before tail y y' -> same_len (k y) (k' y')) ->
    same_len (rmatch ic r x k) (rmatch ic r x' k').
Proof.
  assert (Hsub : forall (P Q : N -> bool), (forall c, P c = true -> Q c = true) ->
                                           clear_before tail Q -> clear_before tail P).
  { intros P Q HPQ. unfold clear_before. destruct tail as [|c t]; [auto|].
    intros [HQ Hw]. split; [|exact Hw]. destruct (P c) eqn:E; [|reflexivity].
    rewrite (HPQ _ E) in HQ. discriminate. }
  assert (Hstep : forall x x' c t, cut_before tail x x' -> after x' = c :: t ->
                                   after x = c :: t /\ cut_before tail (step x c t) (step x' c t)).
  { intros x x' c t (Ha & Hc & Hb) E. split; [congruence|].
    unfold cut_before, step; simpl. rewrite Hb, Hc. auto. }
  induction r as [|p|rs|a IHa b IHb|a IHa b IHb|r' IH mn mx| | | |rs];
    intros Hbeg Hclr x x' k k' Hcut Hk; cbn [rmatch].
  - apply Hk; exact Hcut.
  - destruct (after x') as [|c t] eqn:E.
    + destruct Hcut as (Ha & _ & _). rewrite Ha, E. reflexivity.
    + destruct (Hstep _ _ _ _ Hcut E) as [Ha Hs]. rewrite Ha.
      destruct (chr_match ic p c); [|reflexivity]. apply Hk; exact Hs.
  - destruct (after x') as [|c t] eqn:E.
    + destruct Hcut as (Ha & _ & _). rewrite Ha, E. reflexivity.
    + destruct (Hstep _ _ _ _ Hcut E) as [Ha Hs]. rewrite Ha.
      destruct (class_match ic rs c); [|reflexivity]. apply Hk; exact Hs.
  - simpl in Hbeg. apply orb_false_elim in Hbeg. destruct Hbeg as [Ea Eb].
    apply IHa; [exact Ea| |exact Hcut|].
    + eapply Hsub; [|exact Hclr]. intros c Hc. simpl. rewrite Hc. reflexivity.
    + intros y y' Hy. apply IHb; [exact Eb| |exact Hy|exact Hk].
      eapply Hsub; [|exact Hclr]. intros c Hc. simpl. rewrite Hc. apply orb_true_r.
  - simpl in Hbeg. apply orb_false_elim in Hbeg. destruct Hbeg as [Ea Eb].
    apply same_len_alt.
    + apply IHa; auto. eapply Hsub; [|exact Hclr]. intros c Hc. simpl. rewrite Hc. reflexivity.
    + apply IHb; auto. eapply Hsub; [|exact Hclr]. intros c Hc. simpl. rewrite Hc. apply orb_true_r.
  - simpl in Hbeg. pose proof Hcut as (Ha & _ & _). rewrite Ha.
    apply repeat_matcher_cut_before; auto.
  - assert (Hw : xorb (word_before x) (word_after x) = xorb (word_before x') (word_after x')).
    { destruct Hcut as (Ha & _ & Hb). unfold word_before, word_after. rewrite Hb, Ha.
      destruct (before x') as [|c t]; [|reflexivity]. simpl.
      unfold clear_before in Hclr. destruct tail as [|c0 t0]; [reflexivity|].
      destruct Hclr as [_ Hw]. rewrite Hw. reflexivity. }
    rewrite Hw. destruct (xorb (word_before x') (word_after x')); [|reflexivity].
    apply Hk; exact Hcut.
  - discriminate.
  - pose proof Hcut as (Ha & Hc & Hb). rewrite Ha. destruct (after x') eqn:E; [|reflexivity].
    apply Hk; exact Hcut.
  - pose proof Hcut as (Ha & Hc & Hb). rewrite Hb. destruct (before x') as [|c t] eqn:E; simpl.
    + unfold clear_before in Hclr. destruct tail as [|c0 t0]; [apply Hk; exact Hcut|].
      simpl in Hclr. destruct Hclr as [Hd _]. rewrite Hd. apply Hk; exact Hcut.
    + destruct (class_match ic rs c); [reflexivity|]. apply Hk; exact Hcut.
Qed.

Lemma match_at_cut_before r bef aft :
  uses_begin r = false -> clear_before tail (behind ic r) ->
  match_at ic r (bef ++ tail) aft = match_at ic r bef aft.
Proof.
  intros He Hb. unfold match_at.
  apply (rmatch_cut_before r He Hb (MState (bef ++ tail) aft 0) (MState bef aft 0) Some Some).
  - repeat split.
  - intros y y' (_ & Hc & _). unfold same_len. simpl. rewrite Hc. reflexivity.
Qed.

End Before.

End Boundary.

(** ** Patterns over ASCII and the units of [URL_REGEX] *)

Module UrlChars.
Import JS Regex Content RegexFacts Boundary Vocabulary.

Lemma between_high lo hi c : (hi < 128)%N -> (128 <= c)%N -> between lo hi c = false.
Proof.
  intros Hh Hc. unfold between. apply andb_false_intro2. apply N.leb_gt. lia.
Qed.

Lemma to_upper_high c : (128 <= c)%N -> to_upper c = c.
Proof. intros H. unfold to_upper, is_lower. rewrite between_high by lia. reflexivity. Qed.

Lemma to_lower_high c : (128 <= c)%N -> to_lower c = c.
Proof. intros H. unfold to_lower, is_upper. rewrite between_high by lia. reflexivity. Qed.

Lemma to_upper_le c : (to_upper c <= c)%N.
Proof. unfold to_upper. destruct (is_lower c); lia. Qed.

Lemma chr_match_high ic p c : (p < 128)%N -> (128 <= c)%N -> chr_match ic p c = false.
Proof.
  intros Hp Hc. unfold chr_match, canonicalize. apply N.eqb_neq.
  destruct ic; [|lia]. rewrite (to_upper_high c Hc). pose proof (to_upper_le p). lia.
Qed.

Lemma in_ranges_high rs c :
  forallb (fun b => (snd b <? 128)%N) rs = true -> (128 <= c)%N -> in_ranges rs c = false.
Proof.
  intros Hrs Hc. induction rs as [|[lo hi] t IH]; [reflexivity|].
  simpl in *. apply andb_prop in Hrs. destruct Hrs as [Hh Ht].
  apply N.ltb_lt in Hh. rewrite between_high by assumption. simpl. auto.
Qed.

Lemma class_match_high ic rs c :
  forallb (fun b => (snd b <? 128)%N) rs = true -> (128 <= c)%N -> class_match ic rs c = false.
Proof.
  intros Hrs Hc. unfold class_match.
  rewrite to_upper_high, to_lower_high by assumption.
  rewrite (in_ranges_high rs c Hrs Hc). destruct ic; reflexivity.
Qed.

Lemma is_word_high c : (128 <= c)%N -> is_word c = false.
Proof.
  intros H. unfold is_word, is_alnum, is_alpha, is_lower, is_upper, is_digit.
  rewrite !between_high by lia. simpl. apply N.eqb_neq. lia.
Qed.

(** A unit outside ASCII is neither consumed nor looked for by an ASCII
    pattern. *)
Lemma ascii_only_high ic r c :
  ascii_only r = true -> (128 <= c)%N -> consumes ic r c = false /\ behind ic r c = false.
Proof.
  intros Hr Hc. induction r as [|p|rs|a IHa b IHb|a IHa b IHb|r' IH mn mx| | | |rs]; simpl in *;
    try (split; reflexivity).
  - split; [|reflexivity]. apply chr_match_high; [apply N.ltb_lt; exact Hr|exact Hc].
  - split; [|reflexivity]. apply class_match_high; assumption.
  - apply andb_prop in Hr. destruct Hr as [Ha Hb].
    destruct (IHa Ha) as [-> ->]. destruct (IHb Hb) as [-> ->]. split; reflexivity.
  - apply andb_prop in Hr. destruct Hr as [Ha Hb].
    destruct (IHa Ha) as [-> ->]. destruct (IHb Hb) as [-> ->]. split; reflexivity.
  - auto.
  - split; [reflexivity|]. apply class_match_high; assumption.
Qed.

(** A property of the ASCII units, decided by running through them. *)
Lemma ascii_cases (P : N -> bool) :
  forallb P (map N.of_nat (seq 0 128)) = true -> forall c, (c < 128)%N -> P c = true.
Proof.
  intros H c Hc. rewrite forallb_forall in H. apply H.
  apply in_map_iff. exists (N.to_nat c). split; [apply N2Nat.id|].
  apply in_seq. lia.
Qed.

(** A unit outside [path_chars] (with the [i] flag: as [class_match] reads
    the class) is not a word character, is not consumed by [URL_REGEX], and
    is not in its lookbehind class. *)
Lemma outside_path_chars c :
  class_match true path_chars c = false ->
  consumes true URL_REGEX c = false /\ behind true URL_REGEX c = false /\ is_word c = false.
Proof.
  intros H. destruct (N.ltb_spec c 128) as [Hlt|Hge].
  - pose proof (ascii_cases
                  (fun c => class_match true path_chars c ||
                            negb (consumes true URL_REGEX c || behind true URL_REGEX c || is_word c))
                  ltac:(vm_compute; reflexivity) c Hlt) as Hc.
    cbv beta in Hc. rewrite H, orb_false_l in Hc.
    apply negb_true_iff in Hc. apply orb_false_elim in Hc. destruct Hc as [Hc Hw].
    apply orb_false_elim in Hc. destruct Hc as [Hc Hb]. auto.
  - destruct (ascii_only_high true URL_REGEX c ltac:(vm_compute; reflexivity) Hge) as [Hc Hb].
    split; [exact Hc|]. split; [exact Hb|]. apply is_word_high; exact Hge.
Qed.

End UrlChars.

(** ** The linkifier *)

Module ContentFacts.
Import JS Regex Content RegexFacts Vocabulary.

Lemma slice_length (s : jsstring) a b :
  (a <= b <= length s)%nat -> length (slice s a b) = (b - a)%nat.
Proof. intros H. unfold slice. rewrite firstn_length_le; [lia|]. rewrite length_skipn. lia. Qed.

Lemma firstn_plus (s : jsstring) n m :
  firstn (n + m) s = firstn n s ++ firstn m (skipn n s).
Proof.
  revert s. induction n as [|n IH]; intros [|c s]; simpl; auto.
  - destruct m; reflexivity.
  - rewrite IH. reflexivity.
Qed.

Lemma slice_app (s : jsstring) a b c :
  (a <= b <= c)%nat -> slice s a b ++ slice s b c = slice s a c.
Proof.
  intros H. unfold slice.
  replace (c - a)%nat with ((b - a) + (c - b))%nat by lia.
  rewrite firstn_plus. f_equal.
  rewrite skipn_skipn. replace (b - a + a)%nat with b by lia. reflexivity.
Qed.

Lemma slice_to_end (s : jsstring) a :
  (a <= length s)%nat -> slice s a (length s) = slice_from s a.
Proof.
  intros H. unfold slice, slice_from. apply firstn_all2. rewrite length_skipn. lia.
Qed.

Lemma slice_whole (s : jsstring) : slice s 0 (length s) = s.
Proof. unfold slice. simpl. rewrite Nat.sub_0_r. apply firstn_all. Qed.

Lemma URL_REGEX_min_len : min_len URL_REGEX = 4%nat.
Proof. vm_compute. reflexivity. Qed.

Lemma piece_ok_mono new_URL text li li' p :
  (li <= li')%nat -> piece_ok new_URL text li' p -> piece_ok new_URL text li p.
Proof. intros H. destruct p; simpl; [auto|]. intuition lia. Qed.

Section Loop.

Variable new_URL : jsstring -> option URLObject.
Variable text : jsstring.

(** The loop ends whenever the fuel exceeds what is left of the text, and
    then the pieces it appended spell the text between the two values of
    [lastIndex]. *)
Lemma linkify_loop_spec :
  forall fuel li last res,
    (last <= li <= length text)%nat -> (length text < li + fuel)%nat ->
    exists added last',
      linkify_loop new_URL fuel text li last res = Some (res ++ added, last') /\
      (last <= last' <= length text)%nat /\
      flat_map piece_text added = slice text last last' /\
      Forall (piece_ok new_URL text li) added.
Proof.
  induction fuel as [|fuel IH]; intros li last res Hli Hfuel; [lia|].
  simpl. destruct (exec_global true URL_REGEX text li) as [[[i len]|] li'] eqn:E.
  - destruct (exec_global_some _ _ _ _ _ _ _ E) as (H1 & H2 & H3 & H4 & H5 & _ & _).
    rewrite URL_REGEX_min_len in H4. subst li'.
    assert (Hskip : exists added last',
               linkify_loop new_URL fuel text (i + len) last res = Some (res ++ added, last') /\
               (last <= last' <= length text)%nat /\
               flat_map piece_text added = slice text last last' /\
               Forall (piece_ok new_URL text li) added).
    { destruct (IH (i + len)%nat last res) as (added & last' & Hl & Hb & Ht & Hok); [lia|lia|].
      exists added, last'. repeat split; auto; try lia.
      eapply List.Forall_impl; [|exact Hok]. intros p. apply piece_ok_mono. lia. }
    destruct (isFileExtension _ || isTruncatedUrl _) eqn:Eskip; [exact Hskip|].
    destruct (sanitizeUrl new_URL _) as [[|h0 h]|] eqn:Es; [exact Hskip| |exact Hskip].
    assert (Hlen : length (slice text i (i + len)) = len).
    { rewrite slice_length; lia. }
    rewrite Hlen.
    destruct (IH (i + len)%nat (i + len)%nat
                 (res ++ [Plain (slice text last i); Anchor i (h0 :: h) (slice text i (i + len))]))
      as (added & last' & Hl & Hb & Ht & Hok); [lia|lia|].
    exists ([Plain (slice text last i); Anchor i (h0 :: h) (slice text i (i + len))] ++ added), last'.
    split; [rewrite Hl, <- app_assoc; reflexivity|]. split; [lia|]. split.
    + rewrite flat_map_app. simpl. rewrite Ht, app_nil_r.
      rewrite slice_app by lia. apply slice_app. lia.
    + constructor; [exact I|]. constructor.
      * simpl. rewrite Hlen. apply orb_false_elim in Eskip. destruct Eskip.
        repeat split; auto; try lia; discriminate.
      * eapply List.Forall_impl; [|exact Hok]. intros p. apply piece_ok_mono. lia.
  - exists [], last. rewrite app_nil_r. split; [reflexivity|]. split; [lia|].
    split; [|constructor]. simpl. unfold slice. rewrite Nat.sub_diag. reflexivity.
Qed.

(** [linkifyText] returns: the fuel of [linkifyPieces] is enough. Its
    pieces spell the text, and every anchor among them satisfies [piece_ok]. *)
Lemma linkifyPieces_spec :
  exists ps,
    linkifyPieces new_URL text = Some ps /\
    flat_map piece_text ps = text /\
    Forall (piece_ok new_URL text 0) ps.
Proof.
  unfold linkifyPieces.
  destruct (linkify_loop_spec (S (length text)) 0 0 []) as (added & last' & Hl & Hb & Ht & Hok);
    [lia|lia|].
  rewrite Hl. simpl. eexists. split; [reflexivity|]. split.
  - rewrite flat_map_app, Ht. simpl. rewrite app_nil_r.
    rewrite <- slice_to_end by lia. rewrite slice_app by lia. apply slice_whole.
  - apply Forall_app. split; [exact Hok|]. constructor; [exact I|constructor].
Qed.

End Loop.

End ContentFacts.

(** ** A delimited token is linkified as it would be alone *)

Module Locality.
Import JS Regex Content RegexFacts Boundary UrlChars ContentFacts Vocabulary.

Lemma filter_none {A} (f : A -> bool) (l : list A) :
  Forall (fun x => f x = false) l -> List.filter f l = [].
Proof. induction 1 as [|x l Hx _ IH]; simpl; [reflexivity|]. rewrite Hx. exact IH. Qed.

Lemma exec_global_first ic r s li i len :
  (li <= i <= length s)%nat ->
  attempt ic r s i = Some len ->
  (forall j, (li <= j < i)%nat -> attempt ic r s j = None) ->
  exec_global ic r s li = (Some (i, len), (i + len)%nat).
Proof.
  intros Hi Ha Hnone.
  destruct (exec_global ic r s li) as [[[i' len']|] li'] eqn:E.
  - destruct (exec_global_some _ _ _ _ _ _ _ E) as (H1 & H2 & H3 & _ & H5 & _ & H7).
    destruct (Nat.lt_trichotomy i' i) as [Hlt|[Heq|Hgt]].
    + rewrite Hnone in H5 by lia. discriminate.
    + subst i'. rewrite Ha in H5. inversion H5; subst. reflexivity.
    + rewrite H7 in Ha by lia. discriminate.
  - destruct (exec_global_none _ _ _ _ _ E) as [_ Hn]. rewrite Hn in Ha by lia. discriminate.
Qed.

Lemma exec_global_nothing ic r s li :
  (forall j, (li <= j <= length s)%nat -> attempt ic r s j = None) ->
  exec_global ic r s li = (None, 0%nat).
Proof.
  intros Hnone.
  destruct (exec_global ic r s li) as [[[i' len']|] li'] eqn:E.
  - destruct (exec_global_some _ _ _ _ _ _ _ E) as (H1 & H2 & _ & _ & H5 & _).
    rewrite Hnone in H5 by lia. discriminate.
  - destruct (exec_global_none _ _ _ _ _ E) as [-> _]. reflexivity.
Qed.

Lemma attempt_ok ic r s j len :
  attempt ic r s j = Some len -> (j <= length s)%nat ->
  (j + len <= length s)%nat /\ forallb (consumes ic r) (slice s j (j + len)) = true.
Proof.
  unfold attempt. intros H Hj.
  destruct (match_at_ok _ _ _ _ _ H) as (mid & rest & Hs & Hl & _ & Hf).
  assert (Hlen : length (skipn j s) = (length mid + length rest)%nat)
    by (rewrite Hs, length_app; reflexivity).
  rewrite length_skipn in Hlen. split; [lia|].
  unfold slice. replace (j + len - j)%nat with (length mid) by lia.
  rewrite Hs, firstn_app, Nat.sub_diag, firstn_all. simpl. rewrite app_nil_r. exact Hf.
Qed.

Section Window.

Variable new_URL : jsstring -> option URLObject.
Variables pre w post : jsstring.
Hypothesis Hpre : ends_clear pre = true.
Hypothesis Hpost : starts_clear post = true.

Let T := pre ++ w ++ post.
Let a := length pre.
Let n := length w.

Lemma T_length : length T = (a + n + length post)%nat.
Proof. unfold T, a, n. rewrite !length_app. lia. Qed.

Lemma T_firstn j : (j <= n)%nat -> firstn (a + j) T = pre ++ firstn j w.
Proof.
  intros Hj. unfold T, a. rewrite firstn_app_2. f_equal.
  rewrite firstn_app. replace (j - length w)%nat with 0%nat by (unfold n in Hj; lia).
  simpl. apply app_nil_r.
Qed.

Lemma T_skipn j : (j <= n)%nat -> skipn (a + j) T = skipn j w ++ post.
Proof.
  intros Hj. unfold T, a. rewrite skipn_app.
  rewrite skipn_all2 by lia. simpl.
  replace (length pre + j - length pre)%nat with j by lia.
  rewrite skipn_app. replace (j - length w)%nat with 0%nat by (unfold n in Hj; lia).
  reflexivity.
Qed.

(** Within the token, an attempt in the whole text is the attempt in the
    token alone. *)
Lemma attempt_window j :
  (j <= n)%nat -> attempt true URL_REGEX T (a + j) = attempt true URL_REGEX w j.
Proof.
  intros Hj. unfold attempt. rewrite T_firstn, T_skipn by exact Hj.
  rewrite rev_app_distr.
  rewrite match_at_cut_after.
  - apply match_at_cut_before; [vm_compute; reflexivity|].
    unfold clear_before. unfold ends_clear in Hpre. destruct (rev pre) as [|d t]; [exact I|].
    unfold outside in Hpre. apply negb_true_iff in Hpre.
    destruct (outside_path_chars d Hpre) as (_ & Hb & Hw). auto.
  - vm_compute; reflexivity.
  - unfold blocked. unfold starts_clear in Hpost. destruct post as [|c t]; [exact I|].
    unfold outside in Hpost. apply negb_true_iff in Hpost.
    destruct (outside_path_chars c Hpost) as (Hc & _ & Hw). auto.
Qed.

Lemma slice_window j len :
  (j + len <= n)%nat -> slice T (a + j) (a + j + len) = slice w j (j + len).
Proof.
  intros Hj. unfold slice. rewrite T_skipn by lia.
  replace (a + j + len - (a + j))%nat with len by lia.
  replace (j + len - j)%nat with len by lia.
  rewrite firstn_app. rewrite length_skipn.
  replace (len - (length w - j))%nat with 0%nat by (unfold n in Hj; lia).
  simpl. apply app_nil_r.
Qed.

(** A match that starts before the token ends before the unit that
    precedes the token. *)
Lemma before_window j len :
  (j < a)%nat -> attempt true URL_REGEX T j = Some len -> (j + len < a)%nat.
Proof.
  intros Hj Ha.
  destruct (attempt_ok _ _ _ _ _ Ha) as [Hlen Hf]; [rewrite T_length; lia|].
  destruct (Nat.lt_ge_cases (j + len) a) as [|Hge]; [assumption|exfalso].
  unfold ends_clear in Hpre. destruct (rev pre) as [|d t] eqn:Er.
  { apply (f_equal (@length N)) in Er. rewrite length_rev in Er. simpl in Er. unfold a in Hj. lia. }
  assert (Epre : pre = rev t ++ [d]).
  { rewrite <- (rev_involutive pre), Er. reflexivity. }
  assert (Ht : length (rev t) = (a - 1)%nat).
  { unfold a. rewrite Epre, length_app. simpl. lia. }
  unfold outside in Hpre. apply negb_true_iff in Hpre.
  destruct (outside_path_chars d Hpre) as (Hc & _ & _).
  assert (Hin : In d (slice T j (j + len))).
  { unfold slice, T. rewrite Epre, <- !app_assoc. simpl.
    rewrite skipn_app. replace (j - length (rev t))%nat with 0%nat by lia. simpl.
    rewrite firstn_app. apply in_or_app. right.
    rewrite length_skipn.
    replace (j + len - j - (length (rev t) - j))%nat
      with (S (j + len - a))%nat by lia.
    simpl. left. reflexivity. }
  rewrite forallb_forall in Hf. rewrite (Hf d Hin) in Hc. discriminate.
Qed.

(** From inside the token on, the loop over the text and the loop over the
    token append the same anchors for the token. *)
Lemma loop_window :
  forall fuelw fuel j last lastw res resw,
    (j <= n)%nat -> (n < j + fuelw)%nat -> (length T < a + j + fuel)%nat ->
    (last <= a + j)%nat ->
    exists added last' addedw lastw',
      linkify_loop new_URL fuel T (a + j) last res = Some (res ++ added, last') /\
      linkify_loop new_URL fuelw w j lastw resw = Some (resw ++ addedw, lastw') /\
      List.filter (overlaps a n) added = map (shift a) (List.filter is_anchor addedw).
Proof.
  induction fuelw as [|gw IH]; intros fuel j last lastw res resw Hj Hfw Hf Hlast; [lia|].
  destruct fuel as [|g]; [rewrite T_length in Hf; lia|].
  destruct (exec_global true URL_REGEX w j) as [[[j1 len1]|] liw] eqn:Ew.
  - destruct (exec_global_some _ _ _ _ _ _ _ Ew) as (H1 & H2 & H3 & H4 & H5 & _ & H7).
    rewrite URL_REGEX_min_len in H4. subst liw. fold n in H2.
    assert (Et : exec_global true URL_REGEX T (a + j) = (Some (a + j1, len1), a + j1 + len1)%nat).
    { apply exec_global_first.
      - rewrite T_length. lia.
      - rewrite attempt_window by lia. exact H5.
      - intros j' Hj'. replace j' with (a + (j' - a))%nat by lia.
        rewrite attempt_window by lia. apply H7. lia. }
    cbn [linkify_loop]. rewrite Et, Ew.
    rewrite slice_window by lia.
    assert (Hskip : exists added last' addedw lastw',
               linkify_loop new_URL g T (a + j1 + len1) last res = Some (res ++ added, last') /\
               linkify_loop new_URL gw w (j1 + len1) lastw resw = Some (resw ++ addedw, lastw') /\
               List.filter (overlaps a n) added = map (shift a) (List.filter is_anchor addedw)).
    { replace (a + j1 + len1)%nat with (a + (j1 + len1))%nat by lia.
      apply IH; try lia; rewrite T_length in *; lia. }
    destruct (isFileExtension _ || isTruncatedUrl _); [exact Hskip|].
    destruct (sanitizeUrl new_URL _) as [[|h0 h]|]; [exact Hskip| |exact Hskip].
    assert (Hlen : length (slice w j1 (j1 + len1)) = len1) by (rewrite slice_length; lia).
    rewrite Hlen.
    destruct (IH g (j1 + len1)%nat (a + j1 + len1)%nat (j1 + len1)%nat
                 (res ++ [Plain (slice T last (a + j1));
                          Anchor (a + j1) (h0 :: h) (slice w j1 (j1 + len1))])
                 (resw ++ [Plain (slice w lastw j1);
                           Anchor j1 (h0 :: h) (slice w j1 (j1 + len1))]))
      as (added & last' & addedw & lastw' & Hl & Hlw & Hfl);
      try lia; try (rewrite T_length in *; lia).
    replace (a + (j1 + len1))%nat with (a + j1 + len1)%nat in Hl by lia.
    eexists (_ :: _ :: added), last', (_ :: _ :: addedw), lastw'.
    split; [rewrite Hl, <- app_assoc; reflexivity|].
    split; [rewrite Hlw, <- app_assoc; reflexivity|].
    cbn [List.filter overlaps is_anchor map shift]. rewrite Hlen.
    replace ((a + j1 <? a + n)%nat && (a <? a + j1 + len1)%nat) with true.
    + rewrite Hfl. reflexivity.
    + symmetry. apply andb_true_intro. split; apply Nat.ltb_lt; lia.
  - destruct (exec_global_none _ _ _ _ _ Ew) as [-> Hnone].
    destruct (linkify_loop_spec new_URL T (S g) (a + j) last res)
      as (added & last' & Hl & _ & _ & Hok); [rewrite T_length; lia|lia|].
    exists added, last', [], lastw. split; [exact Hl|].
    split; [cbn [linkify_loop]; rewrite Ew, app_nil_r; reflexivity|].
    simpl. apply filter_none. eapply List.Forall_impl; [|exact Hok].
    intros p Hp. destruct p as [t|i h l]; [reflexivity|]. simpl.
    destruct Hp as (Hi & _ & _ & Hat & _).
    apply andb_false_intro1. apply Nat.ltb_ge.
    destruct (Nat.lt_ge_cases i (a + n)) as [Hlt|]; [exfalso|assumption].
    replace i with (a + (i - a))%nat in Hat by lia.
    rewrite attempt_window in Hat by lia. fold n in Hnone.
    rewrite Hnone in Hat by lia. discriminate.
Qed.

(** Before the token, the loop over the text appends no anchor that
    reaches it. *)
Lemma loop_before pw lastw :
  linkify_loop new_URL (S n) w 0 0 [] = Some (pw, lastw) ->
  forall fuel li last res,
    (last <= li <= a)%nat -> (length T < li + fuel)%nat ->
    exists added last',
      linkify_loop new_URL fuel T li last res = Some (res ++ added, last') /\
      List.filter (overlaps a n) added = map (shift a) (List.filter is_anchor pw).
Proof.
  intros Hw. induction fuel as [|g IH]; intros li last res Hli Hf; [rewrite T_length in Hf; lia|].
  assert (Hin : exec_global true URL_REGEX T li = exec_global true URL_REGEX T a ->
                exists added last',
                  linkify_loop new_URL (S g) T li last res = Some (res ++ added, last') /\
                  List.filter (overlaps a n) added = map (shift a) (List.filter is_anchor pw)).
  { intros Heq.
    destruct (loop_window (S n) (S g) 0 last 0 res []) as
        (added & last' & addedw & lastw' & Hl & Hlw & Hfl); try lia.
    replace (a + 0)%nat with a in Hl by lia.
    rewrite Hw in Hlw. inversion Hlw; subst.
    exists added, last'. split; [|exact Hfl].
    rewrite <- Hl. cbn [linkify_loop]. rewrite Heq. reflexivity. }
  destruct (exec_global true URL_REGEX T li) as [[[i len]|] li'] eqn:E.
  - destruct (exec_global_some _ _ _ _ _ _ _ E) as (H1 & H2 & H3 & H4 & H5 & _ & H7).
    rewrite URL_REGEX_min_len in H4. subst li'.
    destruct (Nat.lt_ge_cases i a) as [Hlt|Hge].
    + pose proof (before_window _ _ Hlt H5) as Hend.
      cbn [linkify_loop]. rewrite E.
      destruct (isFileExtension _ || isTruncatedUrl _); [apply IH; lia|].
      destruct (sanitizeUrl new_URL _) as [[|h0 h]|]; [apply IH; lia| |apply IH; lia].
      assert (Hlen : length (slice T i (i + len)) = len) by (rewrite slice_length; lia).
      rewrite Hlen.
      destruct (IH (i + len)%nat (i + len)%nat
                   (res ++ [Plain (slice T last i); Anchor i (h0 :: h) (slice T i (i + len))]))
        as (added & last' & Hl & Hfl); try lia.
      eexists (_ :: _ :: added), last'.
      split; [rewrite Hl, <- app_assoc; reflexivity|].
      cbn [List.filter overlaps]. rewrite Hlen.
      replace ((i <? a + n)%nat && (a <? i + len)%nat) with false; [exact Hfl|].
      symmetry. apply andb_false_intro2. apply Nat.ltb_ge. lia.
    + apply Hin. symmetry. apply exec_global_first; [lia|exact H5|].
      intros j Hj. apply H7. lia.
  - destruct (exec_global_none _ _ _ _ _ E) as [-> Hnone].
    apply Hin. symmetry. apply exec_global_nothing. intros j Hj. apply Hnone. lia.
Qed.

(** The anchors that [linkifyText] gives for a delimited token, wherever
    it stands in a text, are those it gives for the token alone, moved to
    the token's index; no other anchor of the text overlaps the token. *)
Lemma linkify_window :
  exists ps pw,
    linkifyPieces new_URL T = Some ps /\
    linkifyPieces new_URL w = Some pw /\
    List.filter (overlaps a n) ps = map (shift a) (List.filter is_anchor pw).
Proof.
  destruct (linkify_loop_spec new_URL w (S n) 0 0 []) as (pw & lastw & Hw & _); [lia|unfold n; lia|].
  rewrite app_nil_l in Hw.
  destruct (loop_before pw lastw Hw (S (length T)) 0 0 []) as (added & last' & Hl & Hfl);
    [lia|lia|].
  rewrite app_nil_l in Hl. unfold linkifyPieces. fold n. rewrite Hw, Hl.
  eexists _, _. split; [reflexivity|]. split; [reflexivity|].
  rewrite !List.filter_app, map_app. simpl. rewrite !app_nil_r. exact Hfl.
Qed.

End Window.

End Locality.

(** ** The sanitizer and the pieces of [linkifyText] *)

Module SanitizerFacts.
Import JS Regex Content RegexFacts ContentFacts Vocabulary.

(** A pattern that starts with [^] matches at index 0 or nowhere. *)
Lemma scan_anchored ic r :
  forall aft bef idx, bef <> [] -> scan ic (Seq BeginA r) bef aft idx = None.
Proof.
  induction aft as [|c t IH]; intros bef idx Hb; simpl; unfold match_at; cbn [rmatch];
    destruct bef as [|b bef']; try congruence; simpl.
  - reflexivity.
  - apply IH. discriminate.
Qed.

Lemma scan_anchored_start ic r s :
  scan ic (Seq BeginA r) [] s 0 =
  option_map (fun len => (0%nat, len)) (match_at ic (Seq BeginA r) [] s).
Proof.
  destruct s as [|c t]; simpl; destruct (match_at _ _ _ _); try reflexivity.
  apply scan_anchored. discriminate.
Qed.

Ltac split_atoms :=
  repeat match goal with
         | |- context [chr_match ?ic ?p ?c] =>
             destruct (chr_match ic p c) eqn:?; cbn -[chr_match]
         end.

Lemma protocol_prefix_spec s : test true PROTOCOL_PREFIX s = has_http_scheme s.
Proof.
  unfold test, PROTOCOL_PREFIX. rewrite scan_anchored_start.
  unfold has_http_scheme, match_at.
  destruct s as [|c1 [|c2 [|c3 [|c4 [|c5 [|c6 [|c7 [|c8 s]]]]]]]];
    cbn -[chr_match]; split_atoms; reflexivity.
Qed.




Lemma existsb_streq (x : jsstring) l : existsb (streq x) l = true <-> In x l.
Proof.
  rewrite existsb_exists. split.
  - intros (y & Hy & E). unfold streq in E. apply bool_decide_eq_true in E. subst. exact Hy.
  - intros H. exists x. split; [exact H|]. unfold streq. apply bool_decide_eq_true. reflexivity.
Qed.

Lemma sanitizeUrl_unfold new_URL s :
  sanitizeUrl new_URL s =
  match new_URL (with_https s) with
  | None => None
  | Some parsed =>
      if existsb (streq (Platform.protocol parsed)) [lit "http:"; lit "https:"]
         && (existsb (streq (List.last (labels (Platform.hostname parsed)) [])) VALID_TLDS
             || (2 <=? length (labels (Platform.hostname parsed)))%nat)
      then Some (Platform.href parsed) else None
  end.
Proof.
  unfold sanitizeUrl, with_https. rewrite protocol_prefix_spec.
  destruct (has_http_scheme s); cbn [negb];
    (destruct (new_URL _) as [parsed|]; [|reflexivity]);
    fold (labels (Platform.hostname parsed));
    destruct (existsb (streq (Platform.protocol parsed)) _); cbn [negb andb]; try reflexivity;
    destruct (existsb (streq _) VALID_TLDS); cbn [negb orb]; try reflexivity;
    destruct (Nat.ltb_spec (length (labels (Platform.hostname parsed))) 2);
    destruct (Nat.leb_spec 2 (length (labels (Platform.hostname parsed)))); try reflexivity; lia.
Qed.

Lemma sanitizeUrl_some new_URL s h :
  sanitizeUrl new_URL s = Some h <->
  exists parsed, new_URL (with_https s) = Some parsed /\ h = Platform.href parsed /\
                 acceptable parsed.
Proof.
  rewrite sanitizeUrl_unfold. unfold acceptable. split.
  - destruct (new_URL _) as [parsed|]; [|discriminate].
    destruct (_ && _) eqn:E; [|discriminate]. intros H; inversion H; subst.
    exists parsed. split; [reflexivity|]. split; [reflexivity|].
    apply andb_prop in E. destruct E as [Ep Eh]. split.
    + apply existsb_streq in Ep. simpl in Ep. intuition.
    + apply orb_prop in Eh. destruct Eh as [Eh|Eh].
      * left. apply existsb_streq. exact Eh.
      * right. apply Nat.leb_le. exact Eh.
  - intros (parsed & Hp & -> & Hs & Hh). rewrite Hp.
    replace (_ && _) with true; [reflexivity|]. symmetry. apply andb_true_intro. split.
    + apply existsb_streq. simpl. intuition.
    + apply orb_true_intro. destruct Hh as [Hh|Hh].
      * left. apply existsb_streq. exact Hh.
      * right. apply Nat.leb_le. exact Hh.
Qed.

End SanitizerFacts.

(** ** The claims about the sanitizer and the linkifier *)

Module LinkifyClaims.
Import JS Regex Content RegexFacts ContentFacts Boundary UrlChars Locality SanitizerFacts Vocabulary.


(** C3. [sanitizeUrl] returns a URL exactly when the input, with [https://]
    put before it unless it starts with [http://] or [https://], parses to a
    URL whose scheme is http or https and whose hostname has its trailing
    label in the allow-list or has at least two labels; the URL returned is
    the parsed URL's [href]; in every other case the result is null. *)
Theorem sanitizeUrl_accepts_exactly (new_URL : jsstring -> option URLObject) (s : jsstring) :
  (forall h, sanitizeUrl new_URL s = Some h <->
             exists parsed, new_URL (with_https s) = Some parsed /\
                            h = Platform.href parsed /\ acceptable parsed) /\
  (sanitizeUrl new_URL s = None <->
   ~ exists parsed, new_URL (with_https s) = Some parsed /\ acceptable parsed).
Proof.
  split; [intros h; apply sanitizeUrl_some|].
  split.
  - intros Hn (parsed & Hp & Ha).
    assert (H : sanitizeUrl new_URL s = Some (Platform.href parsed))
      by (apply sanitizeUrl_some; exists parsed; auto).
    congruence.
  - intros Hn. destruct (sanitizeUrl new_URL s) as [h|] eqn:E; [|reflexivity].
    exfalso. apply Hn. apply sanitizeUrl_some in E. destruct E as (parsed & Hp & _ & Ha).
    exists parsed. auto.
Qed.

Section Candidates.

Variable new_URL : jsstring -> option URLObject.
Variable text : jsstring.







End Candidates.


(** A candidate that [sanitizeUrl] rejects: [www.a%zz.com] matches
    [URL_REGEX] and does not parse; it stays within the plain piece before
    the anchor of the next candidate. *)
Lemma rejected_candidate_example :
  candidates (lit "go www.a%zz.com or x.io") = [(3, 12); (19, 4)]%nat /\
  sanitizeUrl URLStd.new_URL (lit "www.a%zz.com") = None /\
  linkifyPieces URLStd.new_URL (lit "go www.a%zz.com or x.io")
  = Some [Plain (lit "go www.a%zz.com or "); Anchor 19 (lit "https://x.io/") (lit "x.io");
          Plain []] /\
  plain_span 0 [Plain (lit "go www.a%zz.com or "); Anchor 19 (lit "https://x.io/") (lit "x.io");
                Plain []] 3 12 = Some (lit "www.a%zz.com").
Proof. repeat split; vm_compute; reflexivity. Qed.


(** C4, as the claim states it, fails: [socket.io.js] ends in a listed
    extension and [www.notaurl.exe] in an extension like that of
    [notaurl.exe], and both get an anchor. *)
Lemma extension_tokens_linkified :
  linkifyPieces URLStd.new_URL (lit "socket.io.js")
  = Some [Plain []; Anchor 0 (lit "https://socket.io/") (lit "socket.io"); Plain (lit ".js")] /\
  linkifyPieces URLStd.new_URL (lit "www.notaurl.exe")
  = Some [Plain []; Anchor 0 (lit "https://www.notaurl.exe/") (lit "www.notaurl.exe"); Plain []].
Proof. split; vm_compute; reflexivity. Qed.

(** C4, amended. Every match of [URL_REGEX] whose text ends in a listed
    extension is skipped: the text of every anchor is a match on which
    [isFileExtension] is false. The token [notaurl.exe], alone or set off
    from the text around it by units that cannot be part of a match, gets no
    anchor and no anchor reaches into it. *)
Theorem extension_matches_skipped (new_URL : jsstring -> option URLObject)
        (text pre post : jsstring) :
  ends_clear pre = true -> starts_clear post = true ->
  (exists ps, linkifyPieces new_URL text = Some ps /\ Forall (no_extension text) ps) /\
  linkifyPieces new_URL (lit "notaurl.exe") = Some [Plain (lit "notaurl.exe")] /\
  (exists ps, linkifyPieces new_URL (pre ++ lit "notaurl.exe" ++ post) = Some ps /\
              untouched (length pre) (length (lit "notaurl.exe")) ps).
Proof.
  intros Hpre Hpost.
  assert (Halone : linkifyPieces new_URL (lit "notaurl.exe") = Some [Plain (lit "notaurl.exe")])
    by (vm_compute; reflexivity).
  split; [|split; [exact Halone|]].
  - destruct (linkifyPieces_spec new_URL text) as (ps & Hps & _ & Hok).
    exists ps. split; [exact Hps|].
    eapply List.Forall_impl; [|exact Hok]. intros [t|i h l]; simpl; [auto|]. intuition.
  - destruct (linkify_window new_URL pre (lit "notaurl.exe") post Hpre Hpost)
      as (ps & pw & Hps & Hpw & Hf).
    rewrite Halone in Hpw. inversion Hpw; subst pw.
    exists ps. split; [exact Hps|]. exact Hf.
Qed.

Lemma extension_matches_skipped_witness :
  (exists ps, linkifyPieces URLStd.new_URL (lit "see logo.png at example.org/logo.png") = Some ps /\
              Forall (no_extension (lit "see logo.png at example.org/logo.png")) ps) /\
  linkifyPieces URLStd.new_URL (lit "notaurl.exe") = Some [Plain (lit "notaurl.exe")] /\
  (exists ps, linkifyPieces URLStd.new_URL (lit "run " ++ lit "notaurl.exe" ++ lit " from example.org")
              = Some ps /\
              untouched (length (lit "run ")) (length (lit "notaurl.exe")) ps).
Proof.
  apply (extension_matches_skipped URLStd.new_URL (lit "see logo.png at example.org/logo.png")
           (lit "run ") (lit " from example.org")); vm_compute; reflexivity.
Defined.





End LinkifyClaims.

(** ** The processed mark *)

Module DomFacts.
Import JS Regex Content Vocabulary.

(** Induction over a tree, with the property known of every child. *)
Lemma node_rect_children (P : node -> Prop) :
  (forall d, P (TextNode d)) ->
  (forall i tag attrs ch, Forall P ch -> P (Element i tag attrs ch)) ->
  forall n, P n.
Proof.
  intros Ht He. fix IH 1. intros [d|i tag attrs ch]; [apply Ht|].
  apply He. induction ch as [|c t IHt]; constructor; [apply IH|exact IHt].
Qed.

Lemma find_eid id n x : find id n = Some x -> eid_of x = Some id.
Proof.
  revert x. induction n as [d|i tag attrs ch IH] using node_rect_children; intros x H;
    [discriminate|].
  simpl in H. destruct (Nat.eqb_spec i id) as [->|Hne].
  - inversion H; subst. reflexivity.
  - induction ch as [|c t IHt]; [discriminate|].
    inversion IH as [|? ? Hc Htl]; subst.
    destruct (find id c) as [r|] eqn:E.
    + inversion H; subst. apply Hc. reflexivity.
    + apply IHt; assumption.
Qed.

Lemma replace_absent id e n : find id n = None -> replace_element id e n = n.
Proof.
  induction n as [d|i tag attrs ch IH] using node_rect_children; intros H; [reflexivity|].
  simpl in *. destruct (i =? id)%nat; [discriminate|]. f_equal.
  induction ch as [|c t IHt]; [reflexivity|].
  inversion IH as [|? ? Hc Htl]; subst.
  destruct (find id c) as [r|] eqn:E; [discriminate|].
  simpl. rewrite (Hc eq_refl), (IHt Htl H). reflexivity.
Qed.

(** After the replacement, the element found under the identity is the
    replacing element. *)
Lemma find_replace id e n x :
  find id n = Some x -> eid_of e = Some id -> find id (replace_element id e n) = Some e.
Proof.
  intros Hx He. revert Hx.
  assert (Hfe : find id e = Some e).
  { destruct e as [d|i tag attrs ch]; [discriminate|]. simpl in He. inversion He; subst.
    simpl. rewrite Nat.eqb_refl. reflexivity. }
  induction n as [d|i tag attrs ch IH] using node_rect_children; intros H; [discriminate|].
  simpl in *. destruct (i =? id)%nat eqn:Ei; [exact Hfe|].
  simpl. rewrite Ei.
  induction ch as [|c t IHt]; [discriminate|].
  inversion IH as [|? ? Hc Htl]; subst.
  simpl. destruct (find id c) as [r|] eqn:E.
  - rewrite (Hc H). reflexivity.
  - rewrite (replace_absent id e c E), E. apply IHt; assumption.
Qed.

Lemma hasAttribute_set name value attrs : hasAttribute name (setAttribute name value attrs) = true.
Proof.
  unfold setAttribute. destruct (hasAttribute name attrs) eqn:E.
  - unfold hasAttribute in *. rewrite existsb_exists in *.
    destruct E as (a & Ha & Hn). exists (name, value). split.
    + apply in_map_iff. exists a. rewrite Hn. auto.
    + unfold streq. apply bool_decide_eq_true. reflexivity.
  - unfold hasAttribute. rewrite existsb_app. simpl.
    unfold streq at 2. rewrite bool_decide_eq_true_2 by reflexivity.
    rewrite orb_true_r. reflexivity.
Qed.

Section Mark.

Variable new_URL : jsstring -> option URLObject.
Variable getURL : jsstring -> jsstring.
Variable settings : Settings.
Variables hasManager hasObserver : bool.
Variable innerHTML : jsstring -> nat -> list node * nat.

Local Abbreviation processElement :=
  (processElement new_URL getURL settings hasManager hasObserver innerHTML).

(** Processing an element gives back one element, with the same identity,
    tag and attributes. *)
Lemma process_node_element inA parentTag pg i tag attrs ch ns k pg' :
  process_node new_URL getURL settings hasManager hasObserver innerHTML inA parentTag pg
               (Element i tag attrs ch) = Some (ns, k, pg') ->
  exists ch', ns = [Element i tag attrs ch'].
Proof.
  cbn [process_node]. destruct ((fix go (l : list node) (pg0 : Page) := _) ch pg) as [[[ch' k'] pg'']|];
    [|discriminate].
  intros H; inversion H; subst. exists ch'. reflexivity.
Qed.

(** C5. An element that carries the processed mark is skipped:
    [processElement] returns 0 and leaves the page as it is (no anchor is
    created, no node is changed, nothing is asked of the preview manager or
    the observer), and [LinkProcessor.add] leaves the queue as it is. *)
Theorem marked_element_skipped (pg : Page) (lp : LinkProcessor) (id : nat) (e : node) :
  find id (document pg) = Some e -> marked e = true ->
  processElement pg (Some id) = Some (0%nat, pg) /\ add pg lp (Some id) = lp.
Proof.
  intros Hf Hm. unfold Content.processElement, add. rewrite Hf.
  destruct e as [d|i tag attrs ch]; [discriminate|]. simpl in Hm. rewrite Hm.
  destruct (enabled settings); split; reflexivity.
Qed.

(** Calling [processElement] a second time on the same element returns 0
    and changes nothing, whatever the first call did. *)
Lemma processElement_twice (pg : Page) (element : option nat) (k : nat) (pg1 : Page) :
  processElement pg element = Some (k, pg1) ->
  processElement pg1 element = Some (0%nat, pg1).
Proof.
  unfold Content.processElement. destruct element as [id|]; [|intros H; inversion H; reflexivity].
  destruct (find id (document pg)) as [[d|i tag attrs ch]|] eqn:Ef;
    try (intros H; inversion H; subst; rewrite Ef; reflexivity).
  destruct (negb (enabled settings)) eqn:Een;
    [intros H; inversion H; subst; rewrite Ef; reflexivity|].
  destruct (hasAttribute PROCESSED attrs) eqn:Em;
    [intros H; inversion H; subst; rewrite Ef, ?Em; reflexivity|].
  destruct (default false (in_anchor id false (document pg))) eqn:Ea;
    [intros H; inversion H; subst; rewrite Ef, ?Em, ?Ea; reflexivity|].
  destruct (streq tag (lit "SCRIPT") || streq tag (lit "STYLE")) eqn:Es;
    [intros H; inversion H; subst; rewrite Ef, ?Em, ?Ea, ?Es; reflexivity|].
  destruct (process_node _ _ _ _ _ _ _ _ _ _) as [[[ns k'] pg']|] eqn:Ep; [|discriminate].
  destruct (process_node_element _ _ _ _ _ _ _ _ _ _ Ep) as (ch' & ->).
  intros H; inversion H; subst; clear H. cbn [document].
  rewrite (find_replace id (Element id tag (setAttribute PROCESSED (lit "true") attrs) ch')
             (document pg) _ Ef eq_refl).
  rewrite hasAttribute_set. reflexivity.
Qed.

End Mark.

Lemma marked_element_skipped_witness :
  exists pg1 e,
    processElement URLStd.new_URL (fun s => lit "chrome-extension://id/" ++ s) default_settings
                   true true HTMLStd.innerHTML sample_page (Some 2%nat) = Some (1%nat, pg1) /\
    find 2 (document pg1) = Some e /\ marked e = true /\
    processElement URLStd.new_URL (fun s => lit "chrome-extension://id/" ++ s) default_settings
                   true true HTMLStd.innerHTML pg1 (Some 2%nat) = Some (0%nat, pg1) /\
    add pg1 (mkProcessor [] false false) (Some 2%nat) = mkProcessor [] false false.
Proof.
  eexists. eexists. split; [vm_compute; reflexivity|].
  split; [vm_compute; reflexivity|]. split; [vm_compute; reflexivity|].
  eapply (marked_element_skipped URLStd.new_URL (fun s => lit "chrome-extension://id/" ++ s)
            default_settings true true HTMLStd.innerHTML); vm_compute; reflexivity.
Defined.

End DomFacts.

(** ** The preview cache *)

Module PreviewFacts.
Import JS Preview Vocabulary.

Lemma constructor_cacheDuration : cacheDuration constructor = 1800000%Z.
Proof. reflexivity. Qed.

Lemma setCache_lookup m url data now :
  cache (setCache m url data now) !! url = Some (mkEntry data now).
Proof. unfold setCache, with_cache; simpl. apply lookup_insert_eq. Qed.

Lemma setCache_cacheDuration m url data now :
  cacheDuration (setCache m url data now) = cacheDuration m.
Proof. reflexivity. Qed.

Lemma getFromCache_cacheDuration m url now :
  cacheDuration (snd (getFromCache m url now)) = cacheDuration m.
Proof.
  unfold getFromCache. destruct (cache m !! url) as [e|]; [|reflexivity].
  destruct (_ >? _)%Z; reflexivity.
Qed.

(** A stale entry is deleted by the lookup that finds it. *)
Lemma getFromCache_stale_deleted m url e now :
  cache m !! url = Some e ->
  (now - timestamp e > cacheDuration m)%Z ->
  getFromCache m url now = (None, with_cache (delete url (cache m)) m).
Proof.
  intros He Hlt. unfold getFromCache. rewrite He.
  destruct (Z.gtb_spec (now - timestamp e) (cacheDuration m)); [reflexivity | lia].
Qed.

(** C6. An entry that [setCache] stored at time [t_insert] is looked up at a
    later time [t_lookup], the cache duration being the constructor's 30
    minutes: past the duration [getFromCache] returns null (and drops the
    entry), within it [getFromCache] returns exactly the stored data. *)
Theorem cache_entry_ttl (m : Manager) (url : jsstring) (d : PreviewData)
        (t_insert t_lookup : Z) :
  cacheDuration m = (30 * 60 * 1000)%Z ->
  (t_insert < t_lookup)%Z ->
  let m1 := setCache m url d t_insert in
  ((t_lookup - t_insert > 30 * 60 * 1000)%Z ->
     fst (getFromCache m1 url t_lookup) = None /\
     cache (snd (getFromCache m1 url t_lookup)) !! url = None) /\
  ((t_lookup - t_insert <= 30 * 60 * 1000)%Z ->
     getFromCache m1 url t_lookup = (Some d, m1)).
Proof.
  intros Hd Hlt m1. unfold getFromCache.
  subst m1. rewrite setCache_lookup, setCache_cacheDuration, Hd. simpl timestamp.
  split; intros H.
  - destruct (Z.gtb_spec (t_lookup - t_insert) (30 * 60 * 1000)); [|lia].
    split; [reflexivity|]. simpl. apply lookup_delete_eq.
  - destruct (Z.gtb_spec (t_lookup - t_insert) (30 * 60 * 1000)); [lia|].
    reflexivity.
Qed.

Lemma cache_entry_ttl_witness :
  let m1 := setCache constructor (lit "https://example.com/") sample_data 1000 in
  ((1801001 - 1000 > 30 * 60 * 1000)%Z ->
     fst (getFromCache m1 (lit "https://example.com/") 1801001) = None /\
     cache (snd (getFromCache m1 (lit "https://example.com/") 1801001))
       !! lit "https://example.com/" = None) /\
  ((1801001 - 1000 <= 30 * 60 * 1000)%Z ->
     getFromCache m1 (lit "https://example.com/") 1801001 = (Some sample_data, m1)).
Proof.
  apply (cache_entry_ttl constructor (lit "https://example.com/") sample_data 1000 1801001).
  - reflexivity.
  - lia.
Defined.

End PreviewFacts.

(** ** Superseded previews *)

Module ShowFacts.
Import JS Preview PreviewFacts Vocabulary.

Section Show.

Variable new_URL : jsstring -> option URLObject.
Variable encodeURIComponent : jsstring -> option jsstring.
Variable siteHandler : Site -> jsstring -> URLObject -> PreviewData.

Local Abbreviation show := (show new_URL encodeURIComponent siteHandler).
Local Abbreviation show_resume := (show_resume new_URL).

Lemma hideQRPopup_current m : currentUrl (hideQRPopup m) = currentUrl m.
Proof.
  unfold hideQRPopup. destruct (qrPopup m); simpl;
    destruct (previewElement m); reflexivity.
Qed.

Lemma hideQRPopup_card m card :
  previewElement m = Some card -> exists card', previewElement (hideQRPopup m) = Some card'.
Proof.
  intros H. unfold hideQRPopup. destruct (qrPopup m); simpl; rewrite H; simpl; eauto.
Qed.

Lemma getFromCache_current m url now : currentUrl (snd (getFromCache m url now)) = currentUrl m.
Proof.
  unfold getFromCache. destruct (cache m !! url); [|reflexivity].
  destruct (_ >? _)%Z; reflexivity.
Qed.

Lemma getFromCache_card m url now :
  previewElement (snd (getFromCache m url now)) = previewElement m.
Proof.
  unfold getFromCache. destruct (cache m !! url); [|reflexivity].
  destruct (_ >? _)%Z; reflexivity.
Qed.

(** After [show(link, url)] the manager's current URL is [url] and the card
    exists. *)
Lemma show_current m w linkElement url now m' w' p :
  url <> [] -> show m w linkElement url now = (m', w', p) ->
  currentUrl m' = Some url /\ exists card, previewElement m' = Some card.
Proof.
  intros Hu. unfold Preview.show. destruct url as [|u0 u]; [congruence|].
  destruct (createPreviewElement _) as [preview m1] eqn:Ec.
  assert (Hc1 : currentUrl m1 = Some (u0 :: u)).
  { unfold createPreviewElement in Ec. simpl in Ec.
    destruct (previewElement m); inversion Ec; reflexivity. }
  set (w1 := match fetchController m1 with Some c => abort c w | None => w end).
  set (m2 := hideQRPopup (with_card _ m1)).
  assert (Hc2 : currentUrl m2 = Some (u0 :: u)) by (unfold m2; rewrite hideQRPopup_current; exact Hc1).
  set (preview2 := set_prop _ _ _ (set_prop _ _ _ (set_prop _ _ _ (default _ (previewElement m2))))).
  destruct (getFromCache (with_card preview2 m2) (u0 :: u) now) as [cached m3] eqn:Eg.
  assert (Hc3 : currentUrl m3 = Some (u0 :: u)).
  { pose proof (getFromCache_current (with_card preview2 m2) (u0 :: u) now) as Hg.
    rewrite Eg in Hg. simpl in Hg. rewrite Hg. exact Hc2. }
  destruct cached as [data|].
  - intros H; inversion H; subst. simpl. split; [exact Hc3|eauto].
  - destruct (new_controller w1) as [c w2].
    destruct (fetchPreviewData _ _ _ _ _) as [pending w3].
    intros H; inversion H; subst. simpl. split; [exact Hc3|eauto].
Qed.

(** The completion of a fetch that was issued for another URL than the
    current one changes nothing. *)
Lemma show_resume_stale m w url data now :
  currentUrl m <> Some url -> show_resume m w url (Data data) now = (m, w).
Proof.
  intros H. unfold Preview.show_resume. rewrite bool_decide_eq_false_2 by exact H. reflexivity.
Qed.

(** The completion of the fetch issued for the current URL renders its
    data and caches it. *)
Lemma show_resume_current m w url data now card :
  currentUrl m = Some url -> previewElement m = Some card ->
  show_resume m w url (Data data) now
  = (with_card (renderPreview data card) (setCache m url data now),
     if is404 data then markDeadLink w url else w).
Proof.
  intros Hc Hp. unfold Preview.show_resume. rewrite bool_decide_eq_true_2 by exact Hc.
  simpl. rewrite Hp. reflexivity.
Qed.

(** C7. [show] is called for [A] and then for another URL [B] while the
    fetch for [A] is pending. When the fetch for [A] completes, with any
    data, the manager and the page stay as they are: nothing is rendered
    and nothing is cached. The completion of the fetch for [B] renders
    [B]'s data on the card, and this holds in both orders of the two
    completions. *)
Theorem stale_response_discarded
        (m0 m1 m2 : Manager) (w0 w1 w2 : World) (pA pB : option Pending)
        (linkA linkB : LinkElement) (A B : jsstring) (t1 t2 t3 t4 : Z)
        (dataA dataB : PreviewData) :
  A <> B -> B <> [] ->
  show m0 w0 linkA A t1 = (m1, w1, pA) ->
  show m1 w1 linkB B t2 = (m2, w2, pB) ->
  exists card,
    previewElement m2 = Some card /\
    show_resume m2 w2 A (Data dataA) t3 = (m2, w2) /\
    previewElement (fst (show_resume m2 w2 B (Data dataB) t3))
    = Some (renderPreview dataB card) /\
    show_resume (fst (show_resume m2 w2 B (Data dataB) t3))
                (snd (show_resume m2 w2 B (Data dataB) t3)) A (Data dataA) t4
    = show_resume m2 w2 B (Data dataB) t3.
Proof.
  intros Hne HB HsA HsB.
  destruct (show_current _ _ _ _ _ _ _ _ HB HsB) as [Hc (card & Hp)].
  exists card. split; [exact Hp|].
  assert (Hstale : currentUrl m2 <> Some A) by (rewrite Hc; congruence).
  split; [apply show_resume_stale; exact Hstale|].
  rewrite (show_resume_current _ _ _ dataB t3 card Hc Hp). cbn [fst snd].
  split; [reflexivity|].
  apply show_resume_stale. simpl. exact Hstale.
Qed.

(** A request that carries no abort signal stays in flight through [show]. *)
Lemma abort_keeps_unsignalled c w r :
  In r (inflight w) -> signal r = None -> In r (inflight (abort c w)).
Proof.
  intros Hin Hs. unfold abort. simpl. apply filter_In. split; [exact Hin|].
  rewrite Hs. reflexivity.
Qed.

Lemma fetchPreviewData_keeps w url p w' r :
  fetchPreviewData new_URL encodeURIComponent siteHandler w url = (p, w') ->
  In r (inflight w) -> In r (inflight w').
Proof.
  unfold fetchPreviewData, fetchGenericPreview, fetch.
  destruct (new_URL url); [|intros H; inversion H; subst; auto].
  destruct (getSiteHandler _); [intros H; inversion H; subst; auto|].
  destruct (includes _ _); [intros H; inversion H; subst; auto|].
  destruct (encodeURIComponent url); intros H; inversion H; subst; simpl; auto.
  intros Hin. apply in_or_app. left. exact Hin.
Qed.

Lemma show_keeps_unsignalled m w linkElement url now m' w' p r :
  show m w linkElement url now = (m', w', p) ->
  In r (inflight w) -> signal r = None -> In r (inflight w').
Proof.
  unfold Preview.show. destruct url as [|u0 u]; [intros H; inversion H; subst; auto|].
  destruct (createPreviewElement _) as [preview m1].
  set (w1 := match fetchController m1 with Some c => abort c w | None => w end).
  destruct (getFromCache _ _ _) as [[data|] m3].
  - intros H; inversion H; subst. intros Hin Hs. unfold w1.
    destruct (fetchController m1); [apply abort_keeps_unsignalled|]; assumption.
  - destruct (new_controller w1) as [c w2] eqn:En.
    destruct (fetchPreviewData _ _ _ _ _) as [pending w3] eqn:Ef.
    intros H; inversion H; subst. intros Hin Hs.
    eapply fetchPreviewData_keeps; [exact Ef|].
    unfold new_controller in En. inversion En; subst. simpl. unfold w1.
    destruct (fetchController m1); [apply abort_keeps_unsignalled|]; assumption.
Qed.

End Show.

(** C8, on the code: [show] is called for [https://example.com/a] and
    then, with that fetch pending, for [https://example.org/b]. The abort
    controller of the first call is aborted, but the request for the first
    URL carries no signal and is still in flight after the second call. *)
Theorem superseded_fetch_still_in_flight
        (siteHandler : Site -> jsstring -> URLObject -> PreviewData) :
  let w2 := snd (fst (after_two_shows siteHandler)) in
  aborted w2 = [0%nat] /\
  inflight w2
  = [mkRequest (lit "https://api.microlink.io?url=https%3A%2F%2Fexample.com%2Fa") None;
     mkRequest (lit "https://api.microlink.io?url=https%3A%2F%2Fexample.org%2Fb") None].
Proof. split; vm_compute; reflexivity. Qed.

Lemma stale_response_discarded_witness :
  lit "https://example.com/a" <> lit "https://example.org/b" /\
  lit "https://example.org/b" <> [] /\
  exists card,
    previewElement (fst (fst after_second_show)) = Some card /\
    show_resume URLStd.new_URL (fst (fst after_second_show)) (snd (fst after_second_show))
                (lit "https://example.com/a") (Data sample_data) 900
    = (fst (fst after_second_show), snd (fst after_second_show)) /\
    previewElement
      (fst (show_resume URLStd.new_URL (fst (fst after_second_show)) (snd (fst after_second_show))
                        (lit "https://example.org/b") (Data sample_data) 900))
    = Some (renderPreview sample_data card) /\
    show_resume URLStd.new_URL
      (fst (show_resume URLStd.new_URL (fst (fst after_second_show)) (snd (fst after_second_show))
                        (lit "https://example.org/b") (Data sample_data) 900))
      (snd (show_resume URLStd.new_URL (fst (fst after_second_show)) (snd (fst after_second_show))
                        (lit "https://example.org/b") (Data sample_data) 900))
      (lit "https://example.com/a") (Data sample_data) 901
    = show_resume URLStd.new_URL (fst (fst after_second_show)) (snd (fst after_second_show))
                  (lit "https://example.org/b") (Data sample_data) 900.
Proof.
  split; [discriminate|]. split; [discriminate|].
  apply (stale_response_discarded URLStd.new_URL URLStd.encodeURIComponent
           (fun _ _ _ => sample_data) constructor (fst (fst after_first_show))
           (fst (fst after_second_show)) sample_world (snd (fst after_first_show))
           (snd (fst after_second_show)) (snd after_first_show) (snd after_second_show)
           (sample_link 1) (sample_link 2)
           (lit "https://example.com/a") (lit "https://example.org/b") 0 50 900 901
           sample_data sample_data).
  - discriminate.
  - discriminate.
  - unfold after_first_show. destruct (show _ _ _ _ _ _ _ _) as [[? ?] ?]. reflexivity.
  - unfold after_second_show. destruct (show _ _ _ _ _ _ _ _) as [[? ?] ?]. reflexivity.
Defined.

End ShowFacts.

(** ** The click tracker *)

Module BackgroundFacts.
Import JS Regex Background SanitizerFacts Vocabulary.

Lemma leading_www_spec h : replace_first false LEADING_WWW [] h = strip_www h.
Proof.
  unfold replace_first, LEADING_WWW, strip_www. rewrite scan_anchored_start.
  unfold match_at.
  destruct h as [|c1 [|c2 [|c3 [|c4 h]]]]; cbn -[chr_match N.eqb];
    unfold chr_match, canonicalize;
    repeat match goal with
           | |- context [(?a =? ?c)%N] => destruct (a =? c)%N; cbn -[N.eqb]
           end; reflexivity.
Qed.

Section Track.

Variable new_URL : jsstring -> option URLObject.
Variable invalid_url : jsstring.

(** C9. A TRACK_CLICK request carries a URL that parses. With
    [trackHistory] off, the handler reports success and the stored history
    and stats are unchanged. With [trackHistory] on, it reports success and
    the stored history is the previous one with one new entry at the front
    (the URL, its hostname without a leading [www.], the timestamp, and the
    id made of the time and the random string), cut to its 100 first
    entries. *)
Theorem track_click_history (st : Storage) (url : jsstring) (parsed : URLObject)
        (now_timestamp now_id : Z) (random : jsstring) :
  url <> [] -> new_URL url = Some parsed ->
  let r := trackLinkClick new_URL invalid_url st (Some url) now_timestamp now_id random in
  let entry := mkEntry url (strip_www (Platform.hostname parsed)) now_timestamp
                       (number now_id ++ lit "-" ++ random) in
  (trackHistory (settings_in_force st) = false -> r = (Success false, st)) /\
  (trackHistory (settings_in_force st) = true ->
     fst r = Success true /\
     settings (snd r) = settings st /\
     clickHistory (snd r) = Some (firstn 100 (entry :: default [] (clickHistory st))) /\
     (length (default [] (clickHistory (snd r))) <= 100)%nat).
Proof.
  intros Hu Hp r entry. subst r entry. unfold trackLinkClick, settings_in_force.
  destruct url as [|u0 u]; [congruence|].
  split; intros Ht; rewrite Ht; cbn [negb]; [reflexivity|].
  rewrite Hp, leading_www_spec. cbn [fst snd settings clickHistory default].
  repeat split. apply firstn_le_length.
Qed.

End Track.

Lemma track_click_history_witness :
  lit "https://www.example.com/page" <> [] /\
  (exists parsed, URLStd.new_URL (lit "https://www.example.com/page") = Some parsed /\
                  strip_www (Platform.hostname parsed) = lit "example.com") /\
  trackLinkClick URLStd.new_URL (lit "Invalid URL") (sample_storage false)
                 (Some (lit "https://www.example.com/page")) 1700000000000 1700000000001
                 (lit "k3j9x0q2z")
  = (Success false, sample_storage false) /\
  clickHistory (snd (trackLinkClick URLStd.new_URL (lit "Invalid URL") (sample_storage true)
                                    (Some (lit "https://www.example.com/page"))
                                    1700000000000 1700000000001 (lit "k3j9x0q2z")))
  = Some [mkEntry (lit "https://www.example.com/page") (lit "example.com") 1700000000000
                  (lit "1700000000001-k3j9x0q2z");
          mkEntry (lit "https://old.example/") (lit "old.example") 5 (lit "5-abc")].
Proof.
  split; [discriminate|].
  split; [eexists; split; vm_compute; reflexivity|].
  destruct (URLStd.new_URL (lit "https://www.example.com/page")) as [parsed|] eqn:E;
    [|vm_compute in E; discriminate].
  split.
  - apply (track_click_history URLStd.new_URL (lit "Invalid URL") (sample_storage false)
             (lit "https://www.example.com/page") parsed 1700000000000 1700000000001
             (lit "k3j9x0q2z") ltac:(discriminate) E). reflexivity.
  - vm_compute. reflexivity.
Defined.

End BackgroundFacts.

(** ** The linkifier's output: escaping, labels, order *)

Module ShapeFacts.
Import JS Regex Content RegexFacts ContentFacts UrlChars Locality SanitizerFacts Shape Vocabulary.

Lemma escape_unit_plain c : plain_unit c = true -> escape_unit c = [c].
Proof.
  unfold plain_unit, escape_unit. intros H. apply negb_true_iff in H.
  repeat (apply orb_false_elim in H; destruct H as [H ?]).
  rewrite H. repeat match goal with E : (_ =? _)%N = false |- _ => rewrite E; clear E end.
  reflexivity.
Qed.

Lemma escape_unit_safe c :
  Forall (fun d => d <> 60 /\ d <> 62 /\ d <> 160)%N (escape_unit c) /\
  (1 <= length (escape_unit c))%nat.
Proof.
  unfold escape_unit.
  destruct (N.eqb_spec c 38); [split; [vm_compute; repeat constructor; discriminate|simpl; lia]|].
  destruct (N.eqb_spec c 160); [split; [vm_compute; repeat constructor; discriminate|simpl; lia]|].
  destruct (N.eqb_spec c 60); [split; [vm_compute; repeat constructor; discriminate|simpl; lia]|].
  destruct (N.eqb_spec c 62); [split; [vm_compute; repeat constructor; discriminate|simpl; lia]|].
  split; [repeat constructor; assumption|simpl; lia].
Qed.

(** X1. [escapeHtml] never lets markup through: its result holds no
    less-than sign, no greater-than sign and no no-break space, it is at
    least as long as the text, and a text without these and without
    ampersand comes back unchanged. *)
Theorem escapeHtml_safe (text : jsstring) :
  Forall (fun d => d <> 60 /\ d <> 62 /\ d <> 160)%N (escapeHtml text) /\
  (length text <= length (escapeHtml text))%nat /\
  (forallb plain_unit text = true -> escapeHtml text = text).
Proof.
  split; [|split].
  - unfold escapeHtml. induction text as [|c t IH]; simpl; [constructor|].
    apply Forall_app. split; [apply escape_unit_safe|exact IH].
  - unfold escapeHtml. induction text as [|c t IH]; simpl; [lia|].
    rewrite length_app. pose proof (proj2 (escape_unit_safe c)). lia.
  - unfold escapeHtml. induction text as [|c t IH]; simpl; [reflexivity|].
    intros H. apply andb_true_iff in H. destruct H as [Hc Ht].
    rewrite (escape_unit_plain c Hc), (IH Ht). reflexivity.
Qed.

Lemma url_char_consumed c : consumes true URL_REGEX c = true -> url_char c = true.
Proof.
  intros H. destruct (N.ltb_spec c 128) as [Hlt|Hge].
  - assert (Hall : implb (consumes true URL_REGEX c) (url_char c) = true).
    { apply (ascii_cases (fun c => implb (consumes true URL_REGEX c) (url_char c)));
        [vm_compute; reflexivity|exact Hlt]. }
    rewrite H in Hall. exact Hall.
  - destruct (ascii_only_high true URL_REGEX c) as [Hc _]; [vm_compute; reflexivity|exact Hge|].
    congruence.
Qed.

(** X2. The label of every anchor that [linkifyText] makes has at least
    four units, and all of them are ASCII letters, digits or one of
    [-@:%._+~#=?&/()]: a label holds no white space, no quote and no angle
    bracket. *)
Theorem anchor_labels_are_url_text (new_URL : jsstring -> option URLObject) (text : jsstring) :
  exists ps, linkifyPieces new_URL text = Some ps /\ Forall label_ok ps.
Proof.
  destruct (linkifyPieces_spec new_URL text) as (ps & Hps & _ & Hok).
  exists ps. split; [exact Hps|].
  eapply List.Forall_impl; [|exact Hok]. intros [t|i h l]; simpl; [auto|].
  intros (_ & Hb & Hl & Hat & _).
  split.
  - unfold attempt in Hat. destruct (match_at_ok _ _ _ _ _ Hat) as (_ & _ & _ & _ & Hm & _).
    rewrite URL_REGEX_min_len in Hm. exact Hm.
  - destruct (attempt_ok _ _ _ _ _ Hat) as [_ Hc]; [lia|]. rewrite <- Hl in Hc.
    apply forallb_forall. intros c Hin. apply url_char_consumed.
    rewrite forallb_forall in Hc. apply Hc, Hin.
Qed.

(** A text in which [URL_REGEX] matches nowhere comes back as one plain
    piece. *)
Lemma linkifyPieces_no_match new_URL text :
  (forall j, (j <= length text)%nat -> attempt true URL_REGEX text j = None) ->
  linkifyPieces new_URL text = Some [Plain text].
Proof.
  intros H. unfold linkifyPieces. cbn [linkify_loop].
  rewrite (exec_global_nothing true URL_REGEX text 0) by (intros j Hj; apply H; lia).
  reflexivity.
Qed.

(** X3. A text of fewer than four units, the empty text among them, is
    never linkified: [linkifyText] returns it escaped, as one plain piece. *)
Theorem short_text_not_linkified (new_URL : jsstring -> option URLObject)
        (getURL : jsstring -> jsstring) (settings : Settings) (text : jsstring) :
  (length text < 4)%nat ->
  linkifyPieces new_URL text = Some [Plain text] /\
  linkifyText new_URL getURL settings text = Some (escapeHtml text).
Proof.
  intros Hlen.
  assert (H : linkifyPieces new_URL text = Some [Plain text]).
  { apply linkifyPieces_no_match. intros j Hj.
    destruct (attempt true URL_REGEX text j) as [len|] eqn:E; [|reflexivity].
    destruct (attempt_ok _ _ _ _ _ E Hj) as [Hb _].
    unfold attempt in E. destruct (match_at_ok _ _ _ _ _ E) as (_ & _ & _ & _ & Hm & _).
    rewrite URL_REGEX_min_len in Hm. lia. }
  split; [exact H|]. unfold linkifyText. rewrite H. simpl. rewrite app_nil_r. reflexivity.
Qed.

Lemma short_text_not_linkified_witness :
  (length (lit "a.b") < 4)%nat /\
  linkifyPieces URLStd.new_URL (lit "a.b") = Some [Plain (lit "a.b")] /\
  linkifyText URLStd.new_URL (fun s => lit "chrome-extension://id/" ++ s) default_settings
              (lit "a.b") = Some (escapeHtml (lit "a.b")).
Proof.
  split; [simpl; lia|].
  apply (short_text_not_linkified URLStd.new_URL (fun s => lit "chrome-extension://id/" ++ s)
           default_settings (lit "a.b")). simpl; lia.
Defined.

Section Order.

Variable new_URL : jsstring -> option URLObject.
Variable text : jsstring.

Lemma aligned_app pos a b :
  aligned pos a -> aligned (pos + length (flat_map piece_text a)) b -> aligned pos (a ++ b).
Proof.
  revert pos. induction a as [|p a IH]; intros pos Ha Hb.
  - simpl in *. rewrite Nat.add_0_r in Hb. exact Hb.
  - destruct p as [t|i h l]; simpl in *.
    + apply IH; [exact Ha|]. rewrite length_app in Hb.
      replace (pos + length t + length (flat_map piece_text a))%nat
        with (pos + (length t + length (flat_map piece_text a)))%nat by lia. exact Hb.
    + destruct Ha as [Hi Ha]. split; [exact Hi|]. apply IH; [exact Ha|].
      rewrite length_app in Hb.
      replace (pos + length l + length (flat_map piece_text a))%nat
        with (pos + (length l + length (flat_map piece_text a)))%nat by lia. exact Hb.
Qed.

Lemma linkify_loop_aligned :
  forall fuel li last res out last',
    (last <= li <= length text)%nat ->
    linkify_loop new_URL fuel text li last res = Some (out, last') ->
    exists added, out = res ++ added /\ aligned last added /\
                  (last + length (flat_map piece_text added) = last')%nat.
Proof.
  induction fuel as [|fuel IH]; intros li last res out last' Hli; [discriminate|].
  simpl. destruct (exec_global true URL_REGEX text li) as [[[i len]|] li'] eqn:E.
  - destruct (exec_global_some _ _ _ _ _ _ _ E) as (H1 & H2 & H3 & _). subst li'.
    destruct (isFileExtension _ || isTruncatedUrl _); [apply IH; lia|].
    destruct (sanitizeUrl new_URL _) as [[|h0 h]|]; [apply IH; lia| |apply IH; lia].
    assert (Hlen : length (slice text i (i + len)) = len) by (rewrite slice_length; lia).
    rewrite Hlen. intros Hl. apply IH in Hl; [|lia].
    destruct Hl as (added & -> & Ha & Hlast).
    exists ([Plain (slice text last i); Anchor i (h0 :: h) (slice text i (i + len))] ++ added).
    split; [rewrite <- app_assoc; reflexivity|].
    assert (Hp : length (slice text last i) = (i - last)%nat) by (rewrite slice_length; lia).
    split.
    + simpl. rewrite Hp, Hlen. split; [lia|].
      replace (last + (i - last) + len)%nat with (i + len)%nat by lia. exact Ha.
    + rewrite flat_map_app, length_app. simpl. rewrite app_nil_r, length_app, Hp, Hlen. lia.
  - intros H; inversion H; subst. exists []. rewrite app_nil_r. simpl. split; [reflexivity|].
    split; [exact I|lia].
Qed.

End Order.

(** X4. The anchors of [linkifyText]'s output are in the order of the
    text and do not overlap: the index recorded for each anchor is the
    offset at which its label starts when the labels and the plain pieces
    are laid one after the other. *)
Theorem anchors_in_text_order (new_URL : jsstring -> option URLObject) (text : jsstring) :
  exists ps, linkifyPieces new_URL text = Some ps /\ aligned 0 ps /\
             flat_map piece_text ps = text.
Proof.
  destruct (linkifyPieces_spec new_URL text) as (ps & Hps & Ht & _).
  exists ps. split; [exact Hps|]. split; [|exact Ht].
  clear Ht. revert Hps. unfold linkifyPieces.
  destruct (linkify_loop new_URL (S (length text)) text 0 0 []) as [[res last]|] eqn:El;
    [|discriminate].
  intros H; inversion H; subst; clear H.
  apply linkify_loop_aligned in El; [|lia]. destruct El as (added & -> & Ha & _).
  simpl. apply aligned_app; [exact Ha|]. simpl. exact I.
Qed.

End ShapeFacts.

(** ** The page: guards, marks, regular expression state, counts *)

Module PageFacts.
Import JS Regex Content RegexFacts ContentFacts Locality DomFacts Shape Vocabulary.

Section Page.

Variable new_URL : jsstring -> option URLObject.
Variable getURL : jsstring -> jsstring.
Variable settings : Settings.
Variables hasManager hasObserver : bool.
Variable innerHTML : jsstring -> nat -> list node * nat.

Local Abbreviation processTextNode :=
  (processTextNode new_URL getURL settings hasManager hasObserver innerHTML).
Local Abbreviation process_node :=
  (process_node new_URL getURL settings hasManager hasObserver innerHTML).
Local Abbreviation processElement :=
  (processElement new_URL getURL settings hasManager hasObserver innerHTML).

(** What a state keeps over the processing of a node: the document, and
    a [lastIndex] of 0. *)
Local Abbreviation kept pg pg' :=
  ((reLastIndex pg = 0%nat -> reLastIndex pg' = 0%nat) /\ document pg' = document pg).

Lemma kept_refl pg : kept pg pg.
Proof. split; auto. Qed.

Lemma kept_trans a b c : kept a b -> kept b c -> kept a c.
Proof. intros [H1 H2] [H3 H4]. split; [auto|congruence]. Qed.

(** [processTextNode] returns, whatever the text and the parser. *)
Lemma processTextNode_returns pg text :
  exists r k pg', processTextNode pg text = Some (r, k, pg') /\ kept pg pg'.
Proof.
  unfold Content.processTextNode. destruct text as [|c t].
  - exists None, 0%nat, pg. split; [reflexivity|apply kept_refl].
  - destruct (exec_global true URL_REGEX (c :: t) (reLastIndex pg)) as [[m|] li] eqn:E.
    + destruct (linkifyPieces_spec new_URL (c :: t)) as (ps & Hps & _).
      unfold linkifyText. rewrite Hps. cbn [option_map].
      destruct (negb (includes _ _)).
      * eexists _, _, _. split; [reflexivity|]. split; reflexivity.
      * destruct (innerHTML _ (nextId pg)) as [ns nx].
        eexists _, _, _. split; [reflexivity|]. split; reflexivity.
    + destruct (exec_global_none _ _ _ _ _ E) as [-> _].
      eexists _, _, _. split; [reflexivity|]. split; reflexivity.
Qed.

(** Processing a node returns. *)
Lemma process_node_returns n : forall inA parentTag pg,
  exists ns k pg', process_node inA parentTag pg n = Some (ns, k, pg') /\ kept pg pg'.
Proof.
  induction n as [d|i tag attrs ch IH] using node_rect_children; intros inA parentTag pg.
  - cbn [Content.process_node].
    destruct (inA || _ || _ || _).
    + eexists _, _, _. split; [reflexivity|apply kept_refl].
    + destruct (processTextNode_returns pg d) as (r & k & pg' & -> & Hk).
      destruct r; eexists _, _, _; (split; [reflexivity|exact Hk]).
  - cbn [Content.process_node].
    set (go := fix go (l : list node) (pg0 : Page) {struct l} : option (list node * nat * Page) := _).
    assert (Hgo : forall l,
              Forall (fun n => forall inA parentTag pg,
                        exists ns k pg', process_node inA parentTag pg n = Some (ns, k, pg') /\
                                         kept pg pg') l ->
              forall pg0, exists ns0 k0 pg0', go l pg0 = Some (ns0, k0, pg0') /\ kept pg0 pg0').
    { induction l as [|c t IHt]; intros Hall pg0.
      - eexists _, _, _. split; [reflexivity|apply kept_refl].
      - inversion Hall as [|? ? Hc Htl]; subst.
        destruct (Hc (inA || streq tag (lit "A")) tag pg0) as (ns1 & k1 & pg1 & E1 & K1).
        destruct (IHt Htl pg1) as (ns2 & k2 & pg2 & E2 & K2).
        cbn [go]. fold go. rewrite E1, E2.
        eexists _, _, _. split; [reflexivity|exact (kept_trans _ _ _ K1 K2)]. }
    destruct (Hgo ch IH pg) as (ch' & k & pg' & -> & K).
    eexists _, _, _. split; [reflexivity|exact K].
Qed.

(** [processElement] returns, and the state it returns keeps a
    [lastIndex] of 0. *)
Lemma processElement_returns (pg : Page) (element : option nat) :
  exists k pg', processElement pg element = Some (k, pg') /\
                (reLastIndex pg = 0%nat -> reLastIndex pg' = 0%nat).
Proof.
  unfold Content.processElement.
  destruct element as [id|]; [|eexists _, _; split; [reflexivity|auto]].
  destruct (find id (document pg)) as [[d|i tag attrs ch]|];
    try (eexists _, _; split; [reflexivity|auto]; fail).
  destruct (negb (enabled settings)); [eexists _, _; split; [reflexivity|auto]|].
  destruct (hasAttribute PROCESSED attrs); [eexists _, _; split; [reflexivity|auto]|].
  destruct (default false _); [eexists _, _; split; [reflexivity|auto]|].
  destruct (_ || _); [eexists _, _; split; [reflexivity|auto]|].
  destruct (process_node_returns
              (Element id tag (setAttribute PROCESSED (lit "true") attrs) ch) false [] pg)
    as (ns & k & pg' & Ep & K1 & _).
  destruct (process_node_element _ _ _ _ _ _ _ _ _ _ _ _ _ _ _ _ Ep) as (ch' & ->).
  rewrite Ep. eexists _, _. split; [reflexivity|]. exact K1.
Qed.

(** X5. [processTextNode] returns for every text, whatever the parser
    gives. A node that it leaves in place counts 0, and the document, the
    identities and the requests made are as before; where it replaces the
    node, the new nodes are those that the parser reads from the markup of
    [linkifyText], and the number returned is the number of elements of
    class [instaclick-link] among them. That number is not always the
    number of anchors that [linkifyText] wrote: for the text
    [www.a%22class=%22x%22.com] it writes one anchor, whose href holds the
    quotes of the decoded host name as they are; the parser reads from it
    an anchor with href [https://www.a] and class [x], and
    [processTextNode] puts this anchor in the page, returns 0 and asks for
    no preload. *)
Theorem processTextNode_counts_parsed_links (pg : Page) (text : jsstring) :
  (exists r k pg',
      processTextNode pg text = Some (r, k, pg') /\
      match r with
      | None => k = 0%nat /\ document pg' = document pg /\ nextId pg' = nextId pg /\
                effects pg' = effects pg
      | Some ns =>
          exists markup,
            linkifyText new_URL getURL settings text = Some markup /\
            ns = fst (innerHTML markup (nextId pg)) /\
            k = length (flat_map (select_class (lit "instaclick-link")) ns)
      end) /\
  (let text := lit "www.a%22class=%22x%22.com" in
   let href := lit "https://www.a" ++ quote ++ lit "class=" ++ quote ++ lit "x" ++ quote ++
               lit ".com/" in
   linkifyPieces URLStd.new_URL text = Some [Plain []; Anchor 0 href text; Plain []] /\
   exists attrs ch pg',
     Content.processTextNode URLStd.new_URL (fun s => lit "chrome-extension://id/" ++ s)
                             default_settings true true HTMLStd.innerHTML sample_page text
     = Some (Some [Element 3 (lit "A") attrs ch], 0%nat, pg') /\
     getAttribute (lit "href") attrs = Some (lit "https://www.a") /\
     getAttribute (lit "class") attrs = Some (lit "x") /\
     effects pg' = []).
Proof.
  split.
  - unfold Content.processTextNode. destruct text as [|c t].
    + exists None, 0%nat, pg. split; [reflexivity|auto].
    + destruct (exec_global true URL_REGEX (c :: t) (reLastIndex pg)) as [[m|] li] eqn:E.
      * destruct (linkifyPieces_spec new_URL (c :: t)) as (ps & Hps & _).
        unfold linkifyText. rewrite Hps. cbn [option_map].
        destruct (negb (includes _ _)).
        -- eexists None, _, _. split; [reflexivity|]. cbn. auto.
        -- destruct (innerHTML _ (nextId pg)) as [ns nx] eqn:Ei.
           eexists (Some ns), _, _. split; [reflexivity|].
           eexists. split; [reflexivity|]. rewrite Ei. split; reflexivity.
      * eexists None, _, _. split; [reflexivity|]. cbn. auto.
  - cbv zeta. split; [vm_compute; reflexivity|].
    eexists _, _, _. split; [vm_compute; reflexivity|].
    split; [vm_compute; reflexivity|]. split; vm_compute; reflexivity.
Qed.

(** X6. [processElement] returns, whatever the element holds and
    whatever the parser gives, and it leaves the regular expression's
    [lastIndex] at 0 when it finds it at 0, so that the test of the next
    text node starts at the beginning of its text. *)
Theorem processElement_keeps_lastIndex (pg : Page) (element : option nat) :
  reLastIndex pg = 0%nat ->
  exists k pg', processElement pg element = Some (k, pg') /\ reLastIndex pg' = 0%nat.
Proof.
  intros Hli. destruct (processElement_returns pg element) as (k & pg' & E & H).
  exists k, pg'. split; [exact E|exact (H Hli)].
Qed.

(** X7. [processElement] does nothing to an element it must not touch:
    with the extension disabled, for an anchor or an element inside one,
    and for a SCRIPT or STYLE element, it returns 0 and the page is as
    before, the mark not set. *)
Theorem processElement_guards (pg : Page) (id i : nat) (tag : jsstring)
        (attrs : list (jsstring * jsstring)) (ch : list node) :
  find id (document pg) = Some (Element i tag attrs ch) ->
  enabled settings = false \/ in_anchor id false (document pg) = Some true \/
  tag = lit "SCRIPT" \/ tag = lit "STYLE" ->
  processElement pg (Some id) = Some (0%nat, pg).
Proof.
  intros Hf Hg. unfold Content.processElement. rewrite Hf.
  destruct (enabled settings) eqn:Een; [|reflexivity]. cbn [negb].
  destruct (hasAttribute PROCESSED attrs); [reflexivity|].
  destruct Hg as [Hg|[Hg|[Hg|Hg]]]; [discriminate| | |].
  - rewrite Hg. reflexivity.
  - destruct (default false _); [reflexivity|]. subst tag.
    unfold streq at 1. rewrite bool_decide_eq_true_2 by reflexivity. reflexivity.
  - destruct (default false _); [reflexivity|]. subst tag.
    unfold streq at 2. rewrite bool_decide_eq_true_2 by reflexivity.
    rewrite orb_true_r. reflexivity.
Qed.

(** X8. A call of [processElement] returns, and it either changes
    nothing and returns 0, or leaves the element marked; in both cases a
    second call on the same element returns 0 and changes nothing. *)
Theorem processElement_settles (pg : Page) (element : option nat) :
  exists k pg1,
    processElement pg element = Some (k, pg1) /\
    ((k = 0%nat /\ pg1 = pg) \/
     exists id e', element = Some id /\ find id (document pg1) = Some e' /\ marked e' = true) /\
    processElement pg1 element = Some (0%nat, pg1).
Proof.
  destruct (processElement_returns pg element) as (k & pg1 & Hp & _).
  exists k, pg1. split; [exact Hp|].
  split; [|exact (processElement_twice _ _ _ _ _ _ _ _ _ _ Hp)].
  revert Hp. unfold Content.processElement.
  destruct element as [id|]; [|intros H; inversion H; auto].
  destruct (find id (document pg)) as [[d|i tag attrs ch]|] eqn:Hf;
    try (intros H; inversion H; auto; fail).
  destruct (negb (enabled settings)); [intros H; inversion H; auto|].
  destruct (hasAttribute PROCESSED attrs); [intros H; inversion H; auto|].
  destruct (default false _); [intros H; inversion H; auto|].
  destruct (_ || _); [intros H; inversion H; auto|].
  destruct (Content.process_node _ _ _ _ _ _ _ _ _ _) as [[[ns k'] pg2]|] eqn:Ep; [|discriminate].
  destruct (process_node_element _ _ _ _ _ _ _ _ _ _ _ _ _ _ _ _ Ep) as (ch' & ->).
  intros H; inversion H; subst; clear H. right. cbn [document].
  eexists id, _. split; [reflexivity|]. split.
  - apply (find_replace id _ (document pg) _ Hf). reflexivity.
  - simpl. apply hasAttribute_set.
Qed.

End Page.

(** X9. The queue of [LinkProcessor] is a set: [add] never puts an
    element in twice, adding the same element again changes nothing more,
    and what was queued stays queued. *)
Theorem add_keeps_queue_a_set (pg : Page) (lp : LinkProcessor) (element : option nat) :
  NoDup (queue lp) ->
  NoDup (queue (add pg lp element)) /\
  add pg (add pg lp element) element = add pg lp element /\
  incl (queue lp) (queue (add pg lp element)).
Proof.
  intros Hnd. unfold add. destruct element as [id|]; [|auto using incl_refl].
  destruct (find id (document pg)) as [[d|i tag attrs ch]|]; auto using incl_refl.
  destruct (hasAttribute PROCESSED attrs); [auto using incl_refl|].
  destruct (existsb (Nat.eqb id) (queue lp)) eqn:Ex; cbn [queue isProcessing timerPending].
  - rewrite Ex. auto using incl_refl.
  - assert (Hin : ~ In id (queue lp)).
    { intros Hin. assert (existsb (Nat.eqb id) (queue lp) = true); [|congruence].
      apply existsb_exists. exists id. split; [exact Hin|apply Nat.eqb_refl]. }
    rewrite existsb_app. simpl. rewrite Nat.eqb_refl, orb_true_r.
    split; [|split; [reflexivity|apply incl_appl, incl_refl]].
    apply NoDup_app. split; [exact Hnd|]. split; [|apply NoDup_singleton].
    intros x Hx Hx'. apply list_elem_of_singleton in Hx'. subst x.
    apply Hin, list_elem_of_In, Hx.
Qed.

Lemma processElement_keeps_lastIndex_witness :
  reLastIndex sample_page = 0%nat /\
  exists k pg',
    processElement URLStd.new_URL (fun s => lit "chrome-extension://id/" ++ s) default_settings
                   true true HTMLStd.innerHTML sample_page (Some 1%nat) = Some (k, pg') /\
    reLastIndex pg' = 0%nat.
Proof.
  split; [reflexivity|].
  apply (processElement_keeps_lastIndex URLStd.new_URL
           (fun s => lit "chrome-extension://id/" ++ s) default_settings true true
           HTMLStd.innerHTML sample_page (Some 1%nat)).
  reflexivity.
Defined.

Lemma processElement_guards_witness :
  find 2 (document sample_page)
  = Some (Element 2 (lit "SPAN") [(lit "dir", lit "auto")]
            [TextNode (lit "see https://example.com/path for details")]) /\
  enabled (mkSettings false true true true (lit "default") false) = false /\
  processElement URLStd.new_URL (fun s => lit "chrome-extension://id/" ++ s)
                 (mkSettings false true true true (lit "default") false)
                 true true HTMLStd.innerHTML sample_page (Some 2%nat) = Some (0%nat, sample_page).
Proof.
  split; [reflexivity|]. split; [reflexivity|].
  apply (processElement_guards URLStd.new_URL (fun s => lit "chrome-extension://id/" ++ s)
           (mkSettings false true true true (lit "default") false) true true
           HTMLStd.innerHTML sample_page 2 2 (lit "SPAN") [(lit "dir", lit "auto")]
           [TextNode (lit "see https://example.com/path for details")]);
    [reflexivity|left; reflexivity].
Defined.

Lemma processElement_settles_witness :
  exists k pg1,
    processElement URLStd.new_URL (fun s => lit "chrome-extension://id/" ++ s) default_settings
                   true true HTMLStd.innerHTML sample_page (Some 2%nat) = Some (k, pg1) /\
    k = 1%nat /\
    ((k = 0%nat /\ pg1 = sample_page) \/
     exists id e', Some 2%nat = Some id /\ find id (document pg1) = Some e' /\ marked e' = true) /\
    processElement URLStd.new_URL (fun s => lit "chrome-extension://id/" ++ s) default_settings
                   true true HTMLStd.innerHTML pg1 (Some 2%nat) = Some (0%nat, pg1).
Proof.
  destruct (processElement_settles URLStd.new_URL (fun s => lit "chrome-extension://id/" ++ s)
              default_settings true true HTMLStd.innerHTML sample_page (Some 2%nat))
    as (k & pg1 & E & H1 & H2).
  exists k, pg1. split; [exact E|].
  split; [vm_compute in E; inversion E; reflexivity|]. split; assumption.
Defined.

Lemma add_keeps_queue_a_set_witness :
  NoDup (queue (mkProcessor [1%nat] false false)) /\
  queue (add sample_page (mkProcessor [1%nat] false false) (Some 2%nat)) = [1%nat; 2%nat] /\
  NoDup (queue (add sample_page (mkProcessor [1%nat] false false) (Some 2%nat))) /\
  add sample_page (add sample_page (mkProcessor [1%nat] false false) (Some 2%nat)) (Some 2%nat)
  = add sample_page (mkProcessor [1%nat] false false) (Some 2%nat) /\
  incl (queue (mkProcessor [1%nat] false false))
       (queue (add sample_page (mkProcessor [1%nat] false false) (Some 2%nat))).
Proof.
  split; [apply NoDup_singleton|]. split; [reflexivity|].
  apply (add_keeps_queue_a_set sample_page (mkProcessor [1%nat] false false) (Some 2%nat)).
  apply NoDup_singleton.
Defined.

End PageFacts.

(** ** The exclusion tests read as string predicates *)

Module SuffixFacts.
Import JS Regex Content RegexFacts ContentFacts SanitizerFacts Suffix Vocabulary.

Lemma advance_0 x : advance x 0 = x.
Proof. destruct x as [b a c]. unfold advance. simpl. rewrite Nat.add_0_r. reflexivity. Qed.

Lemma advance_step x c t n :
  after x = c :: t -> advance (step x c t) n = advance x (S n).
Proof.
  intros H. unfold advance, step. simpl. rewrite H. simpl.
  rewrite <- app_assoc. simpl. f_equal. lia.
Qed.

(** A literal run of pattern characters matches exactly a prefix equal to
    it up to letter case, and moves over it. *)
Lemma str_chars_spec l : forall x k,
  rmatch true (str_chars l) x k
  = if starts_with_ci (map ch l) (after x) then k (advance x (length l)) else None.
Proof.
  induction l as [|a l IH]; intros x k.
  - simpl. rewrite advance_0. reflexivity.
  - assert (Hone : forall r, rmatch true (Seq (Chr (ch a)) r) x k
                             = match after x with
                               | c :: t => if chr_match true (ch a) c
                                           then rmatch true r (step x c t) k else None
                               | [] => None
                               end).
    { intros r. cbn [rmatch]. destruct (after x) as [|c t]; [reflexivity|].
      destruct (chr_match true (ch a) c); reflexivity. }
    destruct l as [|b l].
    + cbn [str_chars rmatch map starts_with_ci length].
      destruct (after x) as [|c t] eqn:E; [reflexivity|].
      destruct (chr_match true (ch a) c); [|reflexivity]. cbn [andb].
      rewrite <- (advance_step x c t 0 E), advance_0. reflexivity.
    + change (str_chars (a :: b :: l)) with (Seq (Chr (ch a)) (str_chars (b :: l))).
      rewrite Hone. cbn [map starts_with_ci length].
      destruct (after x) as [|c t] eqn:E; [reflexivity|].
      destruct (chr_match true (ch a) c); [|reflexivity]. cbn [andb].
      rewrite IH. cbn [step after map length].
      rewrite (advance_step x c t _ E). reflexivity.
Qed.

Lemma str_spec s x k :
  rmatch true (str s) x k
  = if starts_with_ci (lit s) (after x) then k (advance x (String.length s)) else None.
Proof.
  unfold str, lit. rewrite str_chars_spec. unfold ch.
  replace (length (list_ascii_of_string s)) with (String.length s); [reflexivity|].
  induction s; simpl; congruence.
Qed.

(** Alternatives: a success is the success of a listed alternative, and a
    listed alternative that succeeds makes the whole succeed. *)
Lemma alts_sound ss : ss <> [] -> forall x k z,
  rmatch true (alts ss) x k = Some z ->
  exists e, In e ss /\ starts_with_ci (lit e) (after x) = true /\
            k (advance x (String.length e)) = Some z.
Proof.
  induction ss as [|s ss IH]; [congruence|]. intros _ x k z.
  destruct ss as [|s' ss].
  - cbn [alts]. rewrite str_spec.
    destruct (starts_with_ci (lit s) (after x)) eqn:E; [|discriminate].
    intros H. exists s. simpl. auto.
  - change (alts (s :: s' :: ss)) with (Alt (str s) (alts (s' :: ss))). cbn [rmatch].
    rewrite str_spec.
    destruct (starts_with_ci (lit s) (after x)) eqn:E.
    + destruct (k (advance x (String.length s))) as [z'|] eqn:Ek.
      * intros H; inversion H; subst. exists s. simpl. auto.
      * intros H. destruct (IH ltac:(discriminate) x k z H) as (e & Hin & He).
        exists e. split; [right; exact Hin|exact He].
    + intros H. destruct (IH ltac:(discriminate) x k z H) as (e & Hin & He).
      exists e. split; [right; exact Hin|exact He].
Qed.

Lemma alts_complete ss e : In e ss -> forall x k z,
  starts_with_ci (lit e) (after x) = true -> k (advance x (String.length e)) = Some z ->
  exists z', rmatch true (alts ss) x k = Some z'.
Proof.
  induction ss as [|s ss IH]; [intros []|]. intros Hin x k z Hs Hk.
  destruct ss as [|s' ss].
  - destruct Hin as [->|[]]. cbn [alts]. rewrite str_spec, Hs, Hk. eauto.
  - change (alts (s :: s' :: ss)) with (Alt (str s) (alts (s' :: ss))). cbn [rmatch].
    rewrite str_spec.
    destruct Hin as [->|Hin].
    + rewrite Hs, Hk. eauto.
    + destruct (starts_with_ci (lit s) (after x));
        [destruct (k (advance x (String.length s))); [eauto|]|]; eapply IH; eauto.
Qed.

(** Some attempt succeeds exactly when the scan does. *)
Lemma test_true ic r s :
  test ic r s = true <->
  exists pre rest len, s = pre ++ rest /\ match_at ic r (rev pre) rest = Some len.
Proof.
  unfold test. split.
  - destruct (scan ic r [] s 0) as [[i len]|] eqn:E; [|discriminate]. intros _.
    destruct (scan_some _ _ _ _ _ _ _ E) as (pre & rest & Hs & _ & Hm & _).
    rewrite app_nil_r in Hm. eauto.
  - intros (pre & rest & len & Hs & Hm).
    destruct (scan ic r [] s 0) as [[i l]|] eqn:E; [reflexivity|].
    pose proof (scan_none _ _ _ _ _ E pre rest Hs) as Hn. rewrite app_nil_r in Hn. congruence.
Qed.

Lemma ends_with_ci_split p s :
  ends_with_ci p s = true <->
  exists pre rest, s = pre ++ rest /\ length rest = length p /\ starts_with_ci p rest = true.
Proof.
  unfold ends_with_ci. split.
  - intros H. apply andb_true_iff in H. destruct H as [Hl Hs]. apply Nat.leb_le in Hl.
    exists (firstn (length s - length p) s), (skipn (length s - length p) s).
    split; [symmetry; apply firstn_skipn|]. split; [rewrite length_skipn; lia|exact Hs].
  - intros (pre & rest & -> & Hl & Hs). rewrite length_app.
    apply andb_true_iff. split; [apply Nat.leb_le; lia|].
    replace (length pre + length rest - length p)%nat with (length pre + 0)%nat by lia.
    rewrite skipn_app, Nat.add_0_r, skipn_all.
    replace (length pre - length pre)%nat with 0%nat by lia. exact Hs.
Qed.

Lemma starts_with_ci_length p s : starts_with_ci p s = true -> (length p <= length s)%nat.
Proof.
  revert s. induction p as [|a p IH]; intros [|c s]; simpl; try lia; try discriminate.
  intros H. apply andb_true_iff in H. destruct H as [_ H]. apply IH in H. lia.
Qed.

Lemma lit_length s : length (lit s) = String.length s.
Proof. unfold lit. rewrite length_map. induction s; simpl; congruence. Qed.

(** X10. [isFileExtension] is true exactly of a text that ends with a
    dot followed by one of the listed extensions, in any letter case; what
    stands before the dot does not matter. *)
Theorem isFileExtension_spec (text : jsstring) :
  isFileExtension text = has_listed_extension text.
Proof.
  apply eq_true_iff_eq. unfold isFileExtension, has_listed_extension.
  rewrite test_true, existsb_exists. split.
  - intros (pre & rest & len & Hs & Hm). unfold match_at in Hm.
    destruct (rmatch true FILE_EXTENSIONS (MState (rev pre) rest 0) Some) as [z|] eqn:E;
      [|discriminate].
    unfold FILE_EXTENSIONS in E. cbn [rmatch after] in E.
    destruct rest as [|c t]; [discriminate|].
    destruct (chr_match true (ch ".") c) eqn:Ec; [|discriminate].
    apply alts_sound in E; [|discriminate]. destruct E as (e & Hin & Hst & Hk).
    cbn [step after] in Hst. unfold advance in Hk. cbn [rmatch after step] in Hk.
    destruct (skipn (String.length e) t) as [|? ?] eqn:Esk; [|discriminate].
    exists e. split; [exact Hin|]. apply ends_with_ci_split. exists pre, (c :: t).
    split; [exact Hs|]. split.
    + simpl. rewrite lit_length. f_equal.
      pose proof (starts_with_ci_length _ _ Hst) as Hle. rewrite lit_length in Hle.
      assert (Hz : length (skipn (String.length e) t) = 0%nat) by (rewrite Esk; reflexivity).
      rewrite length_skipn in Hz. lia.
    + cbn [starts_with_ci]. rewrite Ec. exact Hst.
  - intros (e & Hin & He). apply ends_with_ci_split in He.
    destruct He as (pre & rest & Hs & Hl & Hst).
    destruct rest as [|c t]; [discriminate|]. cbn [starts_with_ci] in Hst.
    apply andb_true_iff in Hst. destruct Hst as [Hc Hst].
    simpl in Hl. rewrite lit_length in Hl.
    assert (Hk : (fun y => rmatch true EndA y Some)
                   (advance (step (MState (rev pre) (c :: t) 0) c t) (String.length e))
                 = Some (advance (step (MState (rev pre) (c :: t) 0) c t) (String.length e))).
    { cbn [rmatch advance after step]. rewrite skipn_all2 by lia. reflexivity. }
    destruct (alts_complete _ e Hin (step (MState (rev pre) (c :: t) 0) c t) _ _ Hst Hk)
      as (z' & Hz).
    exists pre, (c :: t), (consumed z'). split; [exact Hs|].
    assert (Hm : rmatch true FILE_EXTENSIONS (MState (rev pre) (c :: t) 0) Some = Some z').
    { unfold FILE_EXTENSIONS. cbn [rmatch after]. rewrite Hc. exact Hz. }
    unfold match_at. rewrite Hm. reflexivity.
Qed.

Lemma starts_with_eq p s : starts_with p s = true -> length s = length p -> s = p.
Proof.
  revert s. induction p as [|a p IH]; intros [|c s]; simpl; try discriminate; auto.
  intros H Hl. apply andb_true_iff in H. destruct H as [Hc H].
  apply N.eqb_eq in Hc. subst. f_equal. apply IH; [exact H|lia].
Qed.

Lemma starts_with_refl p : starts_with p p = true.
Proof. induction p as [|a p IH]; simpl; [reflexivity|]. rewrite N.eqb_refl. exact IH. Qed.

Lemma ends_with_split p s : ends_with p s = true <-> exists pre, s = pre ++ p.
Proof.
  unfold ends_with. split.
  - intros H. apply andb_true_iff in H. destruct H as [Hl Hs]. apply Nat.leb_le in Hl.
    exists (firstn (length s - length p) s).
    rewrite <- (firstn_skipn (length s - length p) s) at 1. f_equal.
    apply starts_with_eq; [exact Hs|]. rewrite length_skipn. lia.
  - intros (pre & ->). rewrite length_app. apply andb_true_iff.
    split; [apply Nat.leb_le; lia|].
    replace (length pre + length p - length p)%nat with (length pre + 0)%nat by lia.
    rewrite skipn_app, Nat.add_0_r, skipn_all.
    replace (length pre - length pre)%nat with 0%nat by lia. apply starts_with_refl.
Qed.

(** A run of two or more dots ends with two dots. *)
Lemma dots_tail l :
  forallb (chr_match false 46) l = true -> (2 <= length l)%nat ->
  exists l0, l = l0 ++ lit "..".
Proof.
  induction l as [|c l IH]; [simpl; lia|]. intros H Hl. simpl in H.
  apply andb_true_iff in H. destruct H as [Hc H].
  destruct l as [|c2 l]; [simpl in Hl; lia|].
  destruct l as [|c3 l].
  - exists []. simpl in H. apply andb_true_iff in H. destruct H as [Hc2 _].
    unfold chr_match, canonicalize in Hc, Hc2. apply N.eqb_eq in Hc, Hc2. subst. reflexivity.
  - destruct (IH H ltac:(simpl; lia)) as (l0 & E). exists (c :: l0). rewrite E. reflexivity.
Qed.

Lemma repeat_matcher_min m k fuel n x :
  repeat_matcher m k (S fuel) (S n) None x
  = m x (fun y => repeat_matcher m k fuel n None y).
Proof. reflexivity. Qed.

Lemma chr_step ic p x d :
  rmatch ic (Chr p) x d
  = match after x with
    | c :: t => if chr_match ic p c then d (step x c t) else None
    | [] => None
    end.
Proof. reflexivity. Qed.

Lemma trailing_dots_spec s : test false TRAILING_DOTS s = ends_with (lit "..") s.
Proof.
  apply eq_true_iff_eq. rewrite test_true, ends_with_split. split.
  - intros (pre & rest & len & -> & Hm). unfold match_at in Hm.
    destruct (rmatch false TRAILING_DOTS (MState (rev pre) rest 0) Some) as [z|] eqn:E;
      [|discriminate]. clear Hm.
    change (rmatch false TRAILING_DOTS (MState (rev pre) rest 0) Some)
      with (repeat_matcher (rmatch false (Chr (ch "."))) (fun y => rmatch false EndA y Some)
              (S (S (S (length rest)))) 2 None (MState (rev pre) rest 0)) in E.
    rewrite repeat_matcher_min, chr_step in E. cbn [after] in E.
    destruct rest as [|c1 t1]; [discriminate|].
    destruct (chr_match false (ch ".") c1) eqn:E1; [|discriminate].
    rewrite repeat_matcher_min, chr_step in E. cbn [after step] in E.
    destruct t1 as [|c2 t2]; [discriminate|].
    destruct (chr_match false (ch ".") c2) eqn:E2; [|discriminate].
    apply (repeat_matcher_ok (chr_match false (ch ".")) 1) in E.
    + destruct E as (y & mid & Hk & (Ha & _) & _ & Hall).
      cbn [rmatch] in Hk. destruct (after y) eqn:Ey; [|discriminate].
      cbn [after step] in Ha. rewrite app_nil_r in Ha. subst t2.
      destruct (dots_tail (c1 :: c2 :: mid)) as (l0 & El).
      { cbn [forallb]. change (ch ".") with 46%N in *. rewrite E1, E2. exact Hall. }
      { simpl. lia. }
      exists (pre ++ l0). rewrite El, app_assoc. reflexivity.
    + intros x d z' H. exact (rmatch_ok false (Chr (ch ".")) x d z' H).
  - intros (pre & ->). exists pre, (lit ".."), 2%nat. split; [reflexivity|].
    vm_compute. reflexivity.
Qed.

Lemma trailing_ellipsis_spec s :
  test false TRAILING_ELLIPSIS s = ends_with [226; 8364; 166]%N s.
Proof.
  apply eq_true_iff_eq. rewrite test_true, ends_with_split. split.
  - intros (pre & rest & len & -> & Hm). unfold match_at in Hm.
    destruct (rmatch false TRAILING_ELLIPSIS (MState (rev pre) rest 0) Some) as [z|] eqn:E;
      [|discriminate]. clear Hm.
    unfold TRAILING_ELLIPSIS in E. cbn [rmatch after step] in E.
    unfold chr_match, canonicalize in E.
    destruct rest as [|c1 [|c2 [|c3 [|c4 t]]]]; cbn [after step] in E;
      repeat match type of E with
             | context [(?a =? ?c)%N] => destruct (N.eqb_spec a c); [subst|discriminate]
             end; try discriminate.
    exists pre. reflexivity.
  - intros (pre & ->). exists pre, [226; 8364; 166]%N, 3%nat. split; [reflexivity|].
    vm_compute. reflexivity.
Qed.

Lemma trimStart_id s :
  match s with c :: _ => is_space c = false | [] => True end -> trimStart s = s.
Proof. destruct s as [|c t]; [reflexivity|]. simpl. intros ->. reflexivity. Qed.

Lemma url_char_not_space c : Shape.url_char c = true -> is_space c = false.
Proof.
  intros H. destruct (N.ltb_spec c 128) as [Hlt|Hge].
  - assert (Hall : implb (Shape.url_char c) (negb (is_space c)) = true).
    { apply (UrlChars.ascii_cases (fun c => implb (Shape.url_char c) (negb (is_space c))));
        [vm_compute; reflexivity|exact Hlt]. }
    rewrite H in Hall. apply negb_true_iff. exact Hall.
  - exfalso. revert H. unfold Shape.url_char, is_alnum, is_alpha, is_lower, is_upper, is_digit.
    rewrite !UrlChars.between_high by lia. cbn [orb existsb lit map list_ascii_of_string].
    repeat match goal with
           | |- context [(c =? ?k)%N] => destruct (N.eqb_spec c k); [subst; vm_compute in Hge; congruence|]
           end. discriminate.
Qed.

(** X11. [isTruncatedUrl] is true exactly of a text that, once trimmed,
    ends with two dots or with the three units U+00E2 U+20AC U+00A6 that
    the source spells its second pattern with; for a match of
    [URL_REGEX], which holds no white space and none of these units, it is
    true exactly when the match ends with two dots. *)
Theorem isTruncatedUrl_spec (text : jsstring) :
  isTruncatedUrl text = ends_truncated (trim text) /\
  (forallb Shape.url_char text = true -> isTruncatedUrl text = ends_with (lit "..") text).
Proof.
  assert (H : isTruncatedUrl text = ends_truncated (trim text)).
  { unfold isTruncatedUrl, ends_truncated.
    rewrite trailing_dots_spec, trailing_ellipsis_spec. reflexivity. }
  split; [exact H|]. intros Hall. rewrite H.
  assert (Htrim : trim text = text).
  { unfold trim. rewrite (trimStart_id text).
    - rewrite trimStart_id; [apply rev_involutive|].
      destruct (rev text) as [|c r] eqn:Er; [exact I|].
      apply url_char_not_space. rewrite forallb_forall in Hall. apply Hall.
      apply in_rev. rewrite Er. left. reflexivity.
    - destruct text as [|c t]; [exact I|]. apply url_char_not_space.
      simpl in Hall. apply andb_true_iff in Hall. tauto. }
  rewrite Htrim. unfold ends_truncated.
  destruct (ends_with [226; 8364; 166]%N text) eqn:E; [|apply orb_false_r].
  exfalso. apply ends_with_split in E. destruct E as (pre & ->).
  rewrite forallb_app in Hall. apply andb_true_iff in Hall. destruct Hall as [_ Hall].
  vm_compute in Hall. discriminate.
Qed.

End SuffixFacts.

(** ** No full stop, no link *)

Module DotFacts.
Import JS Regex Content RegexFacts ContentFacts Locality Shape ShapeFacts Dots Vocabulary.

Lemma chr_match_dot ic c : chr_match ic 46 c = true -> c = 46%N.
Proof.
  unfold chr_match, canonicalize. destruct ic; [|intros H; apply N.eqb_eq in H; auto].
  unfold to_upper at 1. change (is_lower 46) with false. cbv iota.
  unfold to_upper, is_lower, between. intros H. apply N.eqb_eq in H.
  destruct ((97 <=? c)%N && (c <=? 122)%N) eqn:E; [|auto].
  apply andb_true_iff in E. destruct E as [E1 E2].
  apply N.leb_le in E1, E2. lia.
Qed.

Lemma repeat_matcher_has (b : bool) m k :
  (forall x d z, m x d = Some z -> run_has b x d z) ->
  forall fuel mn mx x z,
    repeat_matcher m k fuel mn mx x = Some z ->
    run_has (b && match mn, mx with S _, Some O => false | S _, _ => true | O, _ => false end)
            x k z.
Proof.
  intros Hm. induction fuel as [|fuel IH]; intros mn mx x z; [discriminate|].
  cbn [repeat_matcher].
  assert (Hstep :
            m x (fun y => if (mn =? 0)%nat && (consumed y =? consumed x)%nat then None
                          else repeat_matcher m k fuel (Nat.pred mn) (option_map Nat.pred mx) y)
            = Some z -> run_has b x k z).
  { intros H. apply Hm in H. destruct H as (y & mid & Hd & Hmv & Hdot).
    destruct ((mn =? 0)%nat && (consumed y =? consumed x)%nat); [discriminate|].
    apply IH in Hd. destruct Hd as (y' & mid' & Hk & Hmv' & _).
    exists y', (mid ++ mid'). split; [exact Hk|]. split; [eapply moved_trans; eauto|].
    intros Hb. apply in_or_app. left. auto. }
  assert (Hnone : k x = Some z -> run_has false x k z).
  { intros H. exists x, []. split; [exact H|]. split; [apply moved_refl|discriminate]. }
  destruct mx as [[|mx]|].
  - intros H. apply Hnone in H. destruct mn; rewrite ?andb_false_r; exact H.
  - destruct mn as [|mn].
    + rewrite andb_false_r. intros H.
      destruct (m x _) eqn:E in H.
      * inversion H; subst. apply Hstep in E. destruct E as (y & mid & ? & ? & _).
        exists y, mid. split; [assumption|]. split; [assumption|discriminate].
      * apply Hnone, H.
    + rewrite andb_true_r. exact Hstep.
  - destruct mn as [|mn].
    + rewrite andb_false_r. intros H.
      destruct (m x _) eqn:E in H.
      * inversion H; subst. apply Hstep in E. destruct E as (y & mid & ? & ? & _).
        exists y, mid. split; [assumption|]. split; [assumption|discriminate].
      * apply Hnone, H.
    + rewrite andb_true_r. exact Hstep.
Qed.

(** Every successful run of a pattern that needs a full stop moved over one. *)
Lemma rmatch_has ic r :
  forall x k z, rmatch ic r x k = Some z -> run_has (needs_dot r) x k z.
Proof.
  assert (Hnone : forall x (k : mstate -> option mstate) z, k x = Some z -> run_has false x k z).
  { intros x k z H. exists x, []. split; [exact H|]. split; [apply moved_refl|discriminate]. }
  induction r as [|p|rs|a IHa b IHb|a IHa b IHb|r IHr mn mx| | | |rs]; intros x k z;
    cbn [rmatch needs_dot]; try (apply Hnone).
  - destruct (after x) as [|c t] eqn:E; [discriminate|].
    destruct (chr_match ic p c) eqn:Ec; [|discriminate]. intros H.
    exists (step x c t), [c]. split; [exact H|]. split; [apply moved_step; exact E|].
    intros Hp. apply N.eqb_eq in Hp. subst p. apply chr_match_dot in Ec. subst c. left. reflexivity.
  - destruct (after x) as [|c t] eqn:E; [discriminate|].
    destruct (class_match ic rs c); [|discriminate]. intros H.
    exists (step x c t), [c]. split; [exact H|]. split; [apply moved_step; exact E|discriminate].
  - intros H. apply IHa in H. destruct H as (y & mid & Hk & Hmv & Hd).
    apply IHb in Hk. destruct Hk as (y' & mid' & Hk & Hmv' & Hd').
    exists y', (mid ++ mid'). split; [exact Hk|]. split; [eapply moved_trans; eauto|].
    intros Ho. apply orb_true_iff in Ho. apply in_or_app. destruct Ho; auto.
  - destruct (rmatch ic a x k) as [z'|] eqn:Ea.
    + intros H; inversion H; subst. apply IHa in Ea. destruct Ea as (y & mid & ? & ? & Hd).
      exists y, mid. split; [assumption|]. split; [assumption|]. intros Ho. apply andb_true_iff in Ho. tauto.
    + intros H. apply IHb in H. destruct H as (y & mid & ? & ? & Hd).
      exists y, mid. split; [assumption|]. split; [assumption|]. intros Ho. apply andb_true_iff in Ho. tauto.
  - intros H. apply (repeat_matcher_has (needs_dot r)) in H; [|exact IHr].
    destruct H as (y & mid & ? & ? & Hd). exists y, mid. split; [assumption|]. split; [assumption|].
    intros Hf. apply Hd. destruct mn as [|mn]; [discriminate|].
    destruct mx as [[|mx]|]; [discriminate| |]; rewrite Hf; reflexivity.
  - destruct (xorb _ _); [apply Hnone|discriminate].
  - destruct (before x); [apply Hnone|discriminate].
  - destruct (after x); [apply Hnone|discriminate].
  - destruct (before x) as [|c ?]; [apply Hnone|]. destruct (class_match ic rs c); [discriminate|].
    apply Hnone.
Qed.

Lemma attempt_has_dot ic r s j len :
  needs_dot r = true -> attempt ic r s j = Some len -> In 46%N (slice s j (j + len)).
Proof.
  intros Hn. unfold attempt, match_at.
  destruct (rmatch ic r _ Some) as [z|] eqn:E; [|discriminate].
  intros H; inversion H; subst; clear H.
  apply rmatch_has in E. destruct E as (y & mid & Hk & (Ha & _ & Hc) & Hd).
  inversion Hk; subst y. cbn [after consumed] in Ha, Hc.
  unfold slice. replace (j + consumed z - j)%nat with (consumed z) by lia.
  rewrite Ha, Hc. simpl. rewrite firstn_app, firstn_all, Nat.sub_diag. simpl.
  rewrite app_nil_r. auto.
Qed.

Lemma URL_REGEX_needs_dot : needs_dot URL_REGEX = true.
Proof. vm_compute. reflexivity. Qed.

(** X12. No full stop, no link: the label of every anchor that
    [linkifyText] makes holds a full stop, and a text without a full stop
    comes back escaped, as one plain piece. *)
Theorem dotless_text_not_linkified (new_URL : jsstring -> option URLObject) (text : jsstring) :
  (exists ps, linkifyPieces new_URL text = Some ps /\ Forall label_has_dot ps) /\
  (dotless text = true -> linkifyPieces new_URL text = Some [Plain text]).
Proof.
  split.
  - destruct (linkifyPieces_spec new_URL text) as (ps & Hps & _ & Hok).
    exists ps. split; [exact Hps|].
    eapply List.Forall_impl; [|exact Hok]. intros [t|i h l]; simpl; [auto|].
    intros (_ & _ & Hl & Hat & _). rewrite Hl.
    apply (attempt_has_dot true URL_REGEX); [exact URL_REGEX_needs_dot|exact Hat].
  - intros Hd. apply linkifyPieces_no_match. intros j Hj.
    destruct (attempt true URL_REGEX text j) as [len|] eqn:E; [|reflexivity].
    pose proof (attempt_has_dot _ _ _ _ _ URL_REGEX_needs_dot E) as Hin.
    assert (Hsub : forall (l : list N) n x, In x (firstn n l) \/ In x (skipn n l) -> In x l).
    { intros l n x H. rewrite <- (firstn_skipn n l). apply in_or_app. exact H. }
    unfold slice in Hin. apply (fun H => Hsub _ _ _ (or_introl H)) in Hin.
    apply (fun H => Hsub _ _ _ (or_intror H)) in Hin.
    unfold dotless in Hd. rewrite forallb_forall in Hd. apply Hd in Hin. discriminate.
Qed.

End DotFacts.

(** ** The preview manager: cache frame, card, requests *)

Module ManagerFacts.
Import JS Preview CardView PreviewFacts ShowFacts Vocabulary.

Ltac look :=
  unfold set_prop;
  repeat (rewrite lookup_insert_eq || (rewrite lookup_insert_ne by (intros ?; discriminate))).

Lemma hideQRPopup_cache m : cache (hideQRPopup m) = cache m.
Proof. unfold hideQRPopup. destruct (qrPopup m); simpl; destruct (previewElement m); reflexivity. Qed.

Lemma hideQRPopup_controller m : fetchController (hideQRPopup m) = fetchController m.
Proof. unfold hideQRPopup. destruct (qrPopup m); simpl; destruct (previewElement m); reflexivity. Qed.

Lemma hideQRPopup_duration m : cacheDuration (hideQRPopup m) = cacheDuration m.
Proof. unfold hideQRPopup. destruct (qrPopup m); simpl; destruct (previewElement m); reflexivity. Qed.

Lemma hideQRPopup_some m card :
  previewElement m = Some card ->
  previewElement (hideQRPopup m) = Some (set_prop ".preview-qr-btn" "textContent" LABEL_QR card).
Proof. intros H. unfold hideQRPopup. destruct (qrPopup m); simpl; rewrite H; reflexivity. Qed.

(** X13. The cache keeps its keys apart. A lookup of a URL that was never
    stored is a miss and changes nothing; storing an entry for one URL, or
    a lookup of it (which may evict it), does not change what a lookup of
    another URL returns. *)
Theorem cache_keys_independent (m : Manager) (url url' : jsstring) (d : PreviewData)
        (t now now' : Z) :
  (cache m !! url = None -> getFromCache m url now = (None, m)) /\
  (url' <> url ->
   fst (getFromCache (setCache m url d t) url' now) = fst (getFromCache m url' now) /\
   fst (getFromCache (snd (getFromCache m url now')) url' now) = fst (getFromCache m url' now)).
Proof.
  split.
  - intros H. unfold getFromCache. rewrite H. reflexivity.
  - intros Hne. split.
    + unfold getFromCache, setCache, with_cache. cbn [cache cacheDuration].
      rewrite lookup_insert_ne by congruence. destruct (cache m !! url') as [e|]; [|reflexivity].
      destruct (_ >? _)%Z; reflexivity.
    + unfold getFromCache at 2. destruct (cache m !! url) as [e|] eqn:E; [|reflexivity].
      destruct (_ >? _)%Z; [|reflexivity]. cbn [snd].
      unfold getFromCache, with_cache. cbn [cache cacheDuration].
      rewrite lookup_delete_ne by congruence. destruct (cache m !! url') as [e'|]; [|reflexivity].
      destruct (_ >? _)%Z; reflexivity.
Qed.

(** X14. Storing an entry again for the same URL replaces data and time
    stamp: the manager is the one that the second store alone gives, so
    the freshness of the entry counts from the last store. *)
Theorem setCache_overwrites (m : Manager) (url : jsstring) (d1 d2 : PreviewData)
        (t1 t2 now : Z) :
  setCache (setCache m url d1 t1) url d2 t2 = setCache m url d2 t2 /\
  ((now - t2 <= cacheDuration m)%Z ->
   fst (getFromCache (setCache (setCache m url d1 t1) url d2 t2) url now) = Some d2).
Proof.
  assert (E : setCache (setCache m url d1 t1) url d2 t2 = setCache m url d2 t2).
  { unfold setCache, with_cache. cbn [cache cacheDuration previewElement qrPopup currentUrl
      currentLink hoverTimeout hideTimeout fetchController preloadQueue isPreloading].
    rewrite insert_insert_eq. reflexivity. }
  split; [exact E|]. intros H. rewrite E. unfold getFromCache.
  rewrite setCache_lookup, setCache_cacheDuration. cbn [timestamp data].
  destruct (Z.gtb_spec (now - t2) (cacheDuration m)); [lia|reflexivity].
Qed.

(** X15. The card shows one panel at a time: after [showLoading] the
    loading panel is displayed and the other two are not, and after
    [renderPreview] the error panel alone is displayed for a dead link and
    the content panel alone for any other data. *)
Theorem one_panel_displayed (data : PreviewData) (card : Card) :
  panels (showLoading card) = (Some (lit "flex"), Some (lit "none"), Some (lit "none")) /\
  panels (renderPreview data card)
  = if is404 data then (Some (lit "none"), Some (lit "none"), Some (lit "flex"))
    else (Some (lit "none"), Some (lit "flex"), Some (lit "none")).
Proof.
  split; [unfold panels, showLoading; look; reflexivity|].
  unfold panels, renderPreview. destruct (is404 data); [look; reflexivity|].
  destruct (truthy (image data)), (truthy (siteBadge data)), (favicon data);
    look; reflexivity.
Qed.

(** X16. [positionPreview] keeps the card at least 10 pixels from the top
    and the left edge of the window; in a window at least 340 wide the
    card, 320 wide, ends within the window's width; and in a window at
    least 360 high, for a link that starts within the window's height, the
    card, 350 high, ends within the window's height. *)
Theorem preview_position_bounds (w : World) (l : LinkElement) (card : Card) :
  exists top left,
    positionPreview w l card !! (CARD, "style.top"%string) = Some (px top) /\
    positionPreview w l card !! (CARD, "style.left"%string) = Some (px left) /\
    (10 <= top)%Z /\ (10 <= left)%Z /\
    ((340 <= innerWidth w)%Z -> (left + 320 <= innerWidth w)%Z) /\
    ((360 <= innerHeight w)%Z -> (rect_top l <= innerHeight w)%Z ->
     (top + 350 <= innerHeight w)%Z).
Proof.
  unfold positionPreview. cbv zeta.
  match goal with
  | |- context [set_prop CARD "style.left" (px ?left) (set_prop CARD "style.top" (px ?top) card)] =>
      exists top, left
  end.
  split; [look; reflexivity|]. split; [look; reflexivity|].
  repeat match goal with
         | |- context [(?a >? ?b)%Z] => destruct (Z.gtb_spec a b)
         | |- context [(?a <? ?b)%Z] => destruct (Z.ltb_spec a b)
         end; repeat split; intros; lia.
Qed.

(** X17. [hide] forgets the hovered link and the current URL, takes the
    [visible] class off the card and keeps the cache; a metadata response
    that arrives after it, for any URL, is dropped: it is neither rendered
    nor cached, and no link is flagged dead. *)
Theorem response_after_hide_dropped (new_URL : jsstring -> option URLObject)
        (m : Manager) (w : World) (url : jsstring) (data : PreviewData) (now : Z) :
  currentUrl (hide m) = None /\ currentLink (hide m) = None /\
  cache (hide m) = cache m /\
  match previewElement (hide m) with Some card => visible card = false | None => True end /\
  show_resume new_URL (hide m) w url (Data data) now = (hide m, w).
Proof.
  split; [reflexivity|]. split; [reflexivity|]. split.
  { unfold hide. cbn [with_current cache]. rewrite hideQRPopup_cache.
    destruct (previewElement m); reflexivity. }
  split.
  - unfold hide. cbn [with_current previewElement].
    destruct (previewElement m) as [card|] eqn:E.
    + rewrite (hideQRPopup_some _ (delete (CARD, "class.visible"%string) card)) by reflexivity.
      unfold visible. apply bool_decide_eq_false_2. look.
      rewrite lookup_delete_eq. discriminate.
    + unfold hideQRPopup. destruct (qrPopup m); cbn [with_qr previewElement]; rewrite E;
        cbn [with_qr previewElement]; rewrite ?E; exact I.
  - apply show_resume_stale. discriminate.
Qed.

(** X18. The generic preview flags a page as dead only on the service's
    word: the record has [is404] set exactly when the service answered
    with a failure whose message contains [404], [not found] or
    [ENOTFOUND]; in every case the record is of type [website] and carries
    the URL and the domain it was asked for. *)
Theorem dead_link_only_on_reported_failure (url domain encoded : jsstring) (r : Response) :
  (is404 (generic_data url domain encoded r) = true <->
   exists message, r = ApiFail (Some message) /\ tells_dead message = true) /\
  type (generic_data url domain encoded r) = lit "website" /\
  Preview.url (generic_data url domain encoded r) = url /\
  Preview.domain (generic_data url domain encoded r) = domain.
Proof.
  split.
  - destruct r as [|[message|]|t d i l]; cbn [generic_data].
    + split; [discriminate|]. intros (message & H & _). discriminate.
    + fold (tells_dead (or_else (Some message) [])).
      assert (Ht : tells_dead (or_else (Some message) []) = tells_dead message)
        by (destruct message; unfold or_else; reflexivity).
      rewrite Ht. destruct (tells_dead message) eqn:E; cbn [is404 fallback_data].
      * split; [intros _; exists message; auto|reflexivity].
      * split; [discriminate|]. intros (m' & H & H'). inversion H; subst. congruence.
    + cbn [or_else]. change (includes (lit "404") [] || includes (lit "not found") []
                             || includes (lit "ENOTFOUND") []) with false.
      cbn [is404 fallback_data]. split; [discriminate|]. intros (m' & H & _). discriminate.
    + split; [discriminate|]. intros (m' & H & _). discriminate.
  - destruct r as [|message|t d i l]; cbn [generic_data];
      [repeat split| |repeat split].
    destruct (_ || _); repeat split.
Qed.

Section Manager.

Variable new_URL : jsstring -> option URLObject.
Variable encodeURIComponent : jsstring -> option jsstring.
Variable siteHandler : Site -> jsstring -> URLObject -> PreviewData.

Local Abbreviation show := (show new_URL encodeURIComponent siteHandler).
Local Abbreviation show_resume := (show_resume new_URL).
Local Abbreviation fetchPreviewData := (fetchPreviewData new_URL encodeURIComponent siteHandler).

(** [show] on a fresh cache entry. *)
Lemma show_hit (m : Manager) (w : World) (l : LinkElement)
        (url : jsstring) (now : Z) (e : CacheEntry) :
  url <> [] -> cache m !! url = Some e -> (now - timestamp e <= cacheDuration m)%Z ->
  let r := show m w l url now in
  snd r = None /\
  snd (fst r) = match fetchController m with Some c => abort c w | None => w end /\
  cache (fst (fst r)) = cache m /\
  fetchController (fst (fst r)) = fetchController m /\
  currentUrl (fst (fst r)) = Some url /\
  exists card,
    previewElement (fst (fst r))
    = Some (set_prop CARD "class.visible" (lit "true") (renderPreview (data e) card)).
Proof.
  intros Hu He Hfresh r. subst r. unfold Preview.show. destruct url as [|u0 u]; [congruence|].
  set (url := u0 :: u) in *.
  destruct (createPreviewElement (with_current (Some url) (Some l) m)) as [preview m1] eqn:Ec.
  assert (Hm1 : cache m1 = cache m /\ cacheDuration m1 = cacheDuration m /\
                fetchController m1 = fetchController m /\ currentUrl m1 = Some url).
  { unfold createPreviewElement in Ec. cbn [with_current previewElement] in Ec.
    destruct (previewElement m); inversion Ec; subst; repeat split; reflexivity. }
  destruct Hm1 as (Hc1 & Hd1 & Hf1 & Hu1).
  set (w1 := match fetchController m1 with Some c => abort c w | None => w end).
  set (m2 := hideQRPopup (with_card _ m1)).
  set (preview2 := set_prop _ _ _ (set_prop _ _ _ (set_prop _ _ _ (default _ (previewElement m2))))).
  assert (Hg : getFromCache (with_card preview2 m2) url now = (Some (data e), with_card preview2 m2)).
  { unfold getFromCache. cbn [with_card cache cacheDuration]. unfold m2.
    rewrite hideQRPopup_cache, hideQRPopup_duration. cbn [with_card cache cacheDuration].
    rewrite Hc1, Hd1, He. destruct (Z.gtb_spec (now - timestamp e) (cacheDuration m)); [lia|].
    reflexivity. }
  rewrite Hg. cbn [fst snd with_card cache fetchController currentUrl previewElement].
  unfold m2. rewrite hideQRPopup_cache, hideQRPopup_controller, hideQRPopup_current.
  cbn [with_card cache fetchController currentUrl]. unfold w1. rewrite Hf1.
  repeat split; try assumption.
  eexists. reflexivity.
Qed.

(** X19. [show] for a URL with a fresh cache entry needs no network: the
    call returns at once, no request is made and no abort controller is
    created (the world changes only by the abort of the previous
    controller), the cache is as before, and the card is visible and shows
    the cached data. *)
Theorem show_cached_needs_no_request (m : Manager) (w : World) (l : LinkElement)
        (url : jsstring) (now : Z) (e : CacheEntry) :
  url <> [] -> cache m !! url = Some e -> (now - timestamp e <= cacheDuration m)%Z ->
  let r := show m w l url now in
  snd r = None /\
  snd (fst r) = match fetchController m with Some c => abort c w | None => w end /\
  cache (fst (fst r)) = cache m /\
  fetchController (fst (fst r)) = fetchController m /\
  currentUrl (fst (fst r)) = Some url /\
  exists card,
    previewElement (fst (fst r))
    = Some (set_prop CARD "class.visible" (lit "true") (renderPreview (data e) card)).
Proof. exact (show_hit m w l url now e). Qed.

(** X20. [show] for a URL with no fresh cache entry puts the card in its
    loading state and makes it visible, creates one abort controller and
    keeps it as the manager's, and waits for the metadata; the URL is the
    manager's current one. *)
Theorem show_uncached_waits (m : Manager) (w : World) (l : LinkElement)
        (url : jsstring) (now : Z) :
  url <> [] -> fst (getFromCache m url now) = None ->
  let r := show m w l url now in
  exists card pending,
    snd r = Some pending /\
    previewElement (fst (fst r)) = Some card /\ visible card = true /\
    panels card = (Some (lit "flex"), Some (lit "none"), Some (lit "none")) /\
    currentUrl (fst (fst r)) = Some url /\
    fetchController (fst (fst r)) = Some (nextController w) /\
    nextController (snd (fst r)) = S (nextController w).
Proof.
  intros Hu Hmiss r. subst r. unfold Preview.show. destruct url as [|u0 u]; [congruence|].
  set (url := u0 :: u) in *.
  destruct (createPreviewElement (with_current (Some url) (Some l) m)) as [preview m1] eqn:Ec.
  assert (Hm1 : cache m1 = cache m /\ cacheDuration m1 = cacheDuration m /\
                currentUrl m1 = Some url).
  { unfold createPreviewElement in Ec. cbn [with_current previewElement] in Ec.
    destruct (previewElement m); inversion Ec; subst; repeat split; reflexivity. }
  destruct Hm1 as (Hc1 & Hd1 & Hu1).
  set (w1 := match fetchController m1 with Some c => abort c w | None => w end).
  assert (Hn1 : nextController w1 = nextController w)
    by (unfold w1; destruct (fetchController m1); reflexivity).
  set (m2 := hideQRPopup (with_card _ m1)).
  set (preview2 := set_prop _ _ _ (set_prop _ _ _ (set_prop _ _ _ (default _ (previewElement m2))))).
  assert (Hg : fst (getFromCache (with_card preview2 m2) url now) = None).
  { revert Hmiss. unfold getFromCache. cbn [with_card cache cacheDuration]. unfold m2.
    rewrite hideQRPopup_cache, hideQRPopup_duration. cbn [with_card cache cacheDuration].
    rewrite Hc1, Hd1. destruct (cache m !! url) as [e|]; [|reflexivity].
    destruct (_ >? _)%Z; [reflexivity|discriminate]. }
  destruct (getFromCache (with_card preview2 m2) url now) as [cached m3] eqn:Eg.
  cbn [fst] in Hg. subst cached.
  assert (Hu3 : currentUrl m3 = Some url).
  { pose proof (getFromCache_current (with_card preview2 m2) url now) as H.
    rewrite Eg in H. cbn [snd with_card currentUrl] in H. rewrite H. unfold m2.
    rewrite hideQRPopup_current. exact Hu1. }
  unfold new_controller.
  destruct (Preview.fetchPreviewData _ _ _ _ _) as [pending w3] eqn:Ef.
  assert (Hn3 : nextController w3 = S (nextController w1)).
  { revert Ef. unfold Preview.fetchPreviewData, fetchGenericPreview.
    destruct (new_URL url) as [parsed|]; [|intros H; inversion H; reflexivity].
    destruct (getSiteHandler _); [intros H; inversion H; reflexivity|].
    destruct (includes _ _); [intros H; inversion H; reflexivity|].
    destruct (encodeURIComponent url); intros H; inversion H; reflexivity. }
  cbn [fst snd with_controller with_card previewElement currentUrl fetchController].
  eexists. exists pending. split; [reflexivity|]. split; [reflexivity|].
  split; [unfold visible; apply bool_decide_eq_true_2; look; reflexivity|].
  split; [unfold panels, showLoading; look; reflexivity|].
  split; [exact Hu3|]. rewrite Hn3, Hn1. split; reflexivity.
Qed.

(** X21. A fetch sends at most one request, and only for a page without a
    site-specific preview: [fetchPreviewData] leaves the world as it is
    unless it ends waiting for the metadata service, and then it has added
    exactly the request for that URL, encoded, with no abort signal. *)
Theorem fetch_sends_at_most_one_request (w : World) (url : jsstring) :
  match fst (fetchPreviewData w url) with
  | Fetching domain encoded =>
      encodeURIComponent url = Some encoded /\
      getSiteHandler domain = None /\ includes (lit "instagram.com") domain = false /\
      inflight (snd (fetchPreviewData w url)) = inflight w ++ [mkRequest (api_url encoded) None] /\
      aborted (snd (fetchPreviewData w url)) = aborted w
  | _ => snd (fetchPreviewData w url) = w
  end.
Proof.
  unfold Preview.fetchPreviewData, fetchGenericPreview.
  destruct (new_URL url) as [parsed|]; [|reflexivity].
  destruct (getSiteHandler _) eqn:Eh; [reflexivity|].
  destruct (includes _ _) eqn:Ei; [reflexivity|].
  destruct (encodeURIComponent url) eqn:Ee; [|reflexivity].
  cbn [fst snd]. repeat split; assumption || reflexivity.
Qed.

(** X22. A failed fetch leaves no trace in the cache: when the wait of
    [show] ends with an error, the cache, the world and the current URL
    are as before; an abort changes nothing at all; any other error puts
    the fallback record of the failed URL on the card, and this without
    the check that the URL is still the current one. *)
Theorem fetch_failure_not_cached (m : Manager) (w : World) (url name : jsstring) (now : Z) :
  let r := show_resume m w url (Error name) now in
  cache (fst r) = cache m /\ snd r = w /\ currentUrl (fst r) = currentUrl m /\
  (name = lit "AbortError" -> r = (m, w)) /\
  (forall parsed card,
      name <> lit "AbortError" -> new_URL url = Some parsed -> previewElement m = Some card ->
      let domain := replace_str (lit "www.") [] (Platform.hostname parsed) in
      previewElement (fst r)
      = Some (renderPreview (mkData (lit "website") url domain (google_favicon domain) None
                                    domain url None false) card)).
Proof.
  intros r. subst r. unfold Preview.show_resume.
  split; [|split; [|split; [|split]]].
  - destruct (streq name _); [reflexivity|].
    destruct (new_URL url), (previewElement m); reflexivity.
  - destruct (streq name _); [reflexivity|].
    destruct (new_URL url), (previewElement m); reflexivity.
  - destruct (streq name _); [reflexivity|].
    destruct (new_URL url), (previewElement m); reflexivity.
  - intros ->. unfold streq. rewrite bool_decide_eq_true_2 by reflexivity. reflexivity.
  - intros parsed card Hn Hp Hc. unfold streq.
    rewrite bool_decide_eq_false_2 by exact Hn. rewrite Hp, Hc. reflexivity.
Qed.

End Manager.

Lemma show_cached_needs_no_request_witness :
  lit "https://example.com/a" <> [] /\
  cache (setCache constructor (lit "https://example.com/a") sample_data 0)
    !! lit "https://example.com/a" = Some (mkEntry sample_data 0) /\
  (60000 - timestamp (mkEntry sample_data 0)
   <= cacheDuration (setCache constructor (lit "https://example.com/a") sample_data 0))%Z /\
  let r := show URLStd.new_URL URLStd.encodeURIComponent (fun _ _ _ => sample_data)
                (setCache constructor (lit "https://example.com/a") sample_data 0)
                sample_world (sample_link 1) (lit "https://example.com/a") 60000 in
  snd r = None /\
  snd (fst r)
  = match fetchController (setCache constructor (lit "https://example.com/a") sample_data 0) with
    | Some c => abort c sample_world
    | None => sample_world
    end /\
  cache (fst (fst r)) = cache (setCache constructor (lit "https://example.com/a") sample_data 0) /\
  fetchController (fst (fst r))
  = fetchController (setCache constructor (lit "https://example.com/a") sample_data 0) /\
  currentUrl (fst (fst r)) = Some (lit "https://example.com/a") /\
  exists card,
    previewElement (fst (fst r))
    = Some (set_prop CARD "class.visible" (lit "true")
              (renderPreview (data (mkEntry sample_data 0)) card)).
Proof.
  split; [discriminate|]. split; [apply setCache_lookup|]. split; [vm_compute; discriminate|].
  apply (show_cached_needs_no_request URLStd.new_URL URLStd.encodeURIComponent
           (fun _ _ _ => sample_data)
           (setCache constructor (lit "https://example.com/a") sample_data 0) sample_world
           (sample_link 1) (lit "https://example.com/a") 60000 (mkEntry sample_data 0));
    [discriminate|apply setCache_lookup|vm_compute; discriminate].
Defined.

Lemma show_uncached_waits_witness :
  lit "https://example.com/a" <> [] /\
  fst (getFromCache constructor (lit "https://example.com/a") 0) = None /\
  let r := show URLStd.new_URL URLStd.encodeURIComponent (fun _ _ _ => sample_data)
                constructor sample_world (sample_link 1) (lit "https://example.com/a") 0 in
  exists card pending,
    snd r = Some pending /\
    previewElement (fst (fst r)) = Some card /\ visible card = true /\
    panels card = (Some (lit "flex"), Some (lit "none"), Some (lit "none")) /\
    currentUrl (fst (fst r)) = Some (lit "https://example.com/a") /\
    fetchController (fst (fst r)) = Some (nextController sample_world) /\
    nextController (snd (fst r)) = S (nextController sample_world).
Proof.
  assert (H : fst (getFromCache constructor (lit "https://example.com/a") 0) = None)
    by (unfold getFromCache, constructor; cbn [cache]; rewrite lookup_empty; reflexivity).
  split; [discriminate|]. split; [exact H|].
  apply (show_uncached_waits URLStd.new_URL URLStd.encodeURIComponent
           (fun _ _ _ => sample_data) constructor sample_world (sample_link 1)
           (lit "https://example.com/a") 0); [discriminate|exact H].
Defined.

End ManagerFacts.

(** ** The preloader: guards, one loop at a time, its queue *)

Module PreloadFacts.
Import JS Preview CardView Preload PreviewFacts ShowFacts ManagerFacts Vocabulary.

Section Preloader.

Variable new_URL : jsstring -> option URLObject.
Variable encodeURIComponent : jsstring -> option jsstring.
Variable siteHandler : Site -> jsstring -> URLObject -> PreviewData.
Variable runtime : bool.

Local Abbreviation preloadLink := (preloadLink new_URL encodeURIComponent siteHandler runtime).
Local Abbreviation processPreloadQueue :=
  (processPreloadQueue new_URL encodeURIComponent siteHandler runtime).
Local Abbreviation preload_turn := (preload_turn new_URL encodeURIComponent siteHandler runtime).
Local Abbreviation fetchPreviewData := (fetchPreviewData new_URL encodeURIComponent siteHandler).
Local Abbreviation show := (show new_URL encodeURIComponent siteHandler).

(** X23. [preloadLink] turns away what it must not fetch: for the empty
    URL, a URL that is in the cache or in the queue already, a URL that
    does not parse, and a URL whose hostname contains [instagram.com], it
    returns at once, and the manager and the world are as before. *)
Theorem preloadLink_turns_away (m : Manager) (w : World) (url : jsstring) :
  url = [] \/ cache_has m url = true \/ queue_has m url = true \/ new_URL url = None \/
  (exists parsed, new_URL url = Some parsed /\
                  includes (lit "instagram.com") (Platform.hostname parsed) = true) ->
  preloadLink m w url = (m, w, Idle).
Proof.
  unfold Preload.preloadLink. intros H. destruct url as [|u0 u]; [reflexivity|].
  destruct (cache_has m (u0 :: u)); [reflexivity|].
  destruct (queue_has m (u0 :: u)); [reflexivity|]. cbn [orb].
  destruct H as [H|[H|[H|[H|(parsed & Hp & Hi)]]]]; try discriminate.
  - rewrite H. reflexivity.
  - rewrite Hp, Hi. reflexivity.
Qed.

(** X24. One preload loop at a time: while a loop is running,
    [preloadLink] at most puts the URL at the end of the queue; it makes
    no request, starts no second loop, and leaves the cache alone. *)
Theorem preload_one_loop_at_a_time (m : Manager) (w : World) (url : jsstring) :
  isPreloading m = true ->
  let r := preloadLink m w url in
  snd r = Idle /\ snd (fst r) = w /\
  isPreloading (fst (fst r)) = true /\ cache (fst (fst r)) = cache m /\
  (preloadQueue (fst (fst r)) = preloadQueue m \/
   preloadQueue (fst (fst r)) = preloadQueue m ++ [url]).
Proof.
  intros Hp r. subst r. unfold Preload.preloadLink.
  destruct url as [|u0 u]; [cbn [fst snd]; repeat split; auto|].
  destruct (cache_has m (u0 :: u) || queue_has m (u0 :: u)); [cbn [fst snd]; repeat split; auto|].
  destruct (new_URL (u0 :: u)) as [parsed|]; [|cbn [fst snd]; repeat split; auto].
  destruct (includes _ _); [cbn [fst snd]; repeat split; auto|].
  cbn [with_preload isPreloading]. rewrite Hp.
  cbn [negb fst snd with_preload isPreloading cache preloadQueue]. repeat split; auto.
Qed.

(** X25. The first URL that [preloadLink] accepts, with an empty queue
    and no loop running, is fetched at once: the loop starts, the URL
    leaves the queue, and the call waits for its metadata; if the
    extension is no longer loaded, the URL is dropped instead and nothing
    is fetched. *)
Theorem first_preload_starts_at_once (m : Manager) (w : World) (url : jsstring)
        (parsed : URLObject) :
  url <> [] -> cache_has m url = false -> preloadQueue m = [] -> isPreloading m = false ->
  new_URL url = Some parsed ->
  includes (lit "instagram.com") (Platform.hostname parsed) = false ->
  preloadLink m w url
  = if runtime
    then (with_preload [] true m, snd (fetchPreviewData w url),
          Waiting (AwaitData url (fst (fetchPreviewData w url)) []))
    else (with_preload [] false m, w, Idle).
Proof.
  intros Hu Hc Hq Hp Hn Hi. unfold Preload.preloadLink. destruct url as [|u0 u]; [congruence|].
  set (url := u0 :: u) in *. rewrite Hc. unfold queue_has. rewrite Hq. cbn [existsb orb].
  rewrite Hn, Hi. cbn [with_preload isPreloading]. rewrite Hp. cbn [negb app].
  unfold Preload.processPreloadQueue. cbn [with_preload isPreloading preloadQueue length Nat.eqb orb].
  destruct runtime; cbn [negb]; [|reflexivity].
  change (take 5 [url]) with [url].
  cbn [Preload.preload_turn with_preload preloadQueue isPreloading].
  assert (Hs : streq url url = true) by (unfold streq; apply bool_decide_eq_true_2; reflexivity).
  unfold queue_delete. cbn [List.filter]. rewrite Hs. cbn [negb].
  unfold cache_has in *. cbn [with_preload cache]. rewrite Hc. cbn [negb].
  destruct (Preview.fetchPreviewData _ _ _ w url) as [p w']. reflexivity.
Qed.

Lemma queue_delete_NoDup url q : NoDup q -> NoDup (queue_delete url q).
Proof.
  unfold queue_delete. induction 1 as [|x l Hx Hl IH]; cbn [List.filter]; [constructor|].
  destruct (negb (streq url x)); [|exact IH]. constructor; [|exact IH].
  intros Hin. apply Hx. apply list_elem_of_In in Hin. apply filter_In in Hin.
  apply list_elem_of_In. tauto.
Qed.

Lemma preload_turn_queue m w urls :
  NoDup (preloadQueue m) -> NoDup (preloadQueue (fst (fst (preload_turn m w urls)))).
Proof.
  intros H. unfold Preload.preload_turn. destruct urls as [|url rest]; [exact H|].
  destruct (negb _).
  - destruct (Preview.fetchPreviewData _ _ _ _ _). cbn. apply queue_delete_NoDup, H.
  - cbn. apply queue_delete_NoDup, H.
Qed.

(** X26. The preload queue is a set, and stays one: after
    [preloadLink], and after every step of the loop, no URL is in the
    queue twice. *)
Theorem preload_queue_stays_a_set (m : Manager) (w : World) (url : jsstring)
        (urls : list jsstring) :
  NoDup (preloadQueue m) ->
  NoDup (preloadQueue (fst (fst (preloadLink m w url)))) /\
  NoDup (preloadQueue (fst (fst (processPreloadQueue m w)))) /\
  NoDup (preloadQueue (fst (fst (preload_turn m w urls)))).
Proof.
  intros Hnd.
  assert (Hq : forall m', NoDup (preloadQueue m') ->
                          NoDup (preloadQueue (fst (fst (processPreloadQueue m' w))))).
  { intros m' H. unfold Preload.processPreloadQueue.
    destruct (isPreloading m' || _); [exact H|].
    destruct (negb runtime); [cbn; constructor|].
    apply preload_turn_queue. exact H. }
  split; [|split; [apply Hq, Hnd|apply preload_turn_queue, Hnd]].
  unfold Preload.preloadLink. destruct url as [|u0 u]; [exact Hnd|].
  destruct (cache_has m (u0 :: u)); [exact Hnd|]. cbn [orb].
  destruct (queue_has m (u0 :: u)) eqn:Eq; [exact Hnd|].
  destruct (new_URL (u0 :: u)) as [parsed|]; [|exact Hnd].
  destruct (includes _ _); [exact Hnd|].
  assert (Hnew : NoDup (preloadQueue m ++ [u0 :: u])).
  { apply NoDup_app. split; [exact Hnd|]. split; [|apply NoDup_singleton].
    intros x Hx Hx'. apply list_elem_of_singleton in Hx'. subst x.
    unfold queue_has in Eq. apply not_true_iff_false in Eq. apply Eq.
    apply existsb_exists. exists (u0 :: u). split; [apply list_elem_of_In, Hx|].
    unfold streq. apply bool_decide_eq_true_2. reflexivity. }
  destruct (negb _); [apply Hq; exact Hnew|exact Hnew].
Qed.

(** X27. A preloaded link shows without the network: once the loop has
    stored the metadata of a URL, [show] for that URL within the cache
    duration returns at once with those metadata on the card, and makes
    no request, whatever the current URL was when the metadata came. *)
Theorem preloaded_link_needs_no_request (m : Manager) (w : World) (l : LinkElement)
        (url : jsstring) (rest : list jsstring) (data : PreviewData) (now now' : Z) :
  url <> [] -> (now' - now <= cacheDuration m)%Z ->
  let s := preload_settled m w (Data data) url rest now in
  let r := show (fst (fst s)) (snd (fst s)) l url now' in
  snd r = None /\
  inflight (snd (fst r))
  = inflight (match fetchController m with
              | Some c => abort c (snd (fst s))
              | None => snd (fst s)
              end) /\
  exists card,
    previewElement (fst (fst r))
    = Some (set_prop CARD "class.visible" (lit "true") (renderPreview data card)).
Proof.
  intros Hu Hfresh s r. subst s r. cbn [preload_settled fst snd].
  destruct (show_hit new_URL encodeURIComponent siteHandler (setCache m url data now)
              (if is404 data then markDeadLink w url else w) l url now' (mkEntry data now) Hu
              (setCache_lookup m url data now) Hfresh)
    as (H1 & H2 & _ & _ & _ & card & H6).
  split; [exact H1|]. split; [rewrite H2; reflexivity|]. exists card. exact H6.
Qed.

End Preloader.

Lemma preloadLink_turns_away_witness :
  (exists parsed,
      URLStd.new_URL (lit "https://www.instagram.com/p/abc") = Some parsed /\
      includes (lit "instagram.com") (Platform.hostname parsed) = true) /\
  preloadLink URLStd.new_URL URLStd.encodeURIComponent (fun _ _ _ => sample_data) true
              constructor sample_world (lit "https://www.instagram.com/p/abc")
  = (constructor, sample_world, Idle).
Proof.
  assert (H : exists parsed,
             URLStd.new_URL (lit "https://www.instagram.com/p/abc") = Some parsed /\
             includes (lit "instagram.com") (Platform.hostname parsed) = true)
    by (eexists; split; vm_compute; reflexivity).
  split; [exact H|].
  apply (preloadLink_turns_away URLStd.new_URL URLStd.encodeURIComponent
           (fun _ _ _ => sample_data) true constructor sample_world
           (lit "https://www.instagram.com/p/abc")).
  right. right. right. right. exact H.
Defined.

Lemma preload_one_loop_at_a_time_witness :
  isPreloading (with_preload [lit "https://a.example/"] true constructor) = true /\
  let r := preloadLink URLStd.new_URL URLStd.encodeURIComponent (fun _ _ _ => sample_data) true
                       (with_preload [lit "https://a.example/"] true constructor) sample_world
                       (lit "https://b.example/") in
  snd r = Idle /\ snd (fst r) = sample_world /\
  isPreloading (fst (fst r)) = true /\
  cache (fst (fst r)) = cache (with_preload [lit "https://a.example/"] true constructor) /\
  (preloadQueue (fst (fst r))
   = preloadQueue (with_preload [lit "https://a.example/"] true constructor) \/
   preloadQueue (fst (fst r))
   = preloadQueue (with_preload [lit "https://a.example/"] true constructor)
     ++ [lit "https://b.example/"]).
Proof.
  split; [reflexivity|].
  apply (preload_one_loop_at_a_time URLStd.new_URL URLStd.encodeURIComponent
           (fun _ _ _ => sample_data) true
           (with_preload [lit "https://a.example/"] true constructor) sample_world
           (lit "https://b.example/")).
  reflexivity.
Defined.

Lemma first_preload_starts_at_once_witness :
  exists parsed,
    URLStd.new_URL (lit "https://example.com/a") = Some parsed /\
    includes (lit "instagram.com") (Platform.hostname parsed) = false /\
    cache_has constructor (lit "https://example.com/a") = false /\
    preloadLink URLStd.new_URL URLStd.encodeURIComponent (fun _ _ _ => sample_data) true
                constructor sample_world (lit "https://example.com/a")
    = (with_preload [] true constructor,
       snd (fetchPreviewData URLStd.new_URL URLStd.encodeURIComponent
              (fun _ _ _ => sample_data) sample_world (lit "https://example.com/a")),
       Waiting (AwaitData (lit "https://example.com/a")
                  (fst (fetchPreviewData URLStd.new_URL URLStd.encodeURIComponent
                          (fun _ _ _ => sample_data) sample_world
                          (lit "https://example.com/a"))) [])).
Proof.
  destruct (URLStd.new_URL (lit "https://example.com/a")) as [parsed|] eqn:E;
    [|vm_compute in E; discriminate].
  assert (Hi : includes (lit "instagram.com") (Platform.hostname parsed) = false)
    by (vm_compute in E; inversion E; vm_compute; reflexivity).
  assert (Hc : cache_has constructor (lit "https://example.com/a") = false)
    by (unfold cache_has, constructor; cbn [cache]; rewrite lookup_empty; reflexivity).
  exists parsed. split; [reflexivity|]. split; [exact Hi|]. split; [exact Hc|].
  apply (first_preload_starts_at_once URLStd.new_URL URLStd.encodeURIComponent
           (fun _ _ _ => sample_data) true constructor sample_world
           (lit "https://example.com/a") parsed);
    [discriminate|exact Hc|reflexivity|reflexivity|exact E|exact Hi].
Defined.

Lemma preload_queue_stays_a_set_witness :
  NoDup (preloadQueue (with_preload [lit "https://a.example/"] false constructor)) /\
  NoDup (preloadQueue
           (fst (fst (preloadLink URLStd.new_URL URLStd.encodeURIComponent
                        (fun _ _ _ => sample_data) true
                        (with_preload [lit "https://a.example/"] false constructor)
                        sample_world (lit "https://b.example/"))))) /\
  NoDup (preloadQueue
           (fst (fst (processPreloadQueue URLStd.new_URL URLStd.encodeURIComponent
                        (fun _ _ _ => sample_data) true
                        (with_preload [lit "https://a.example/"] false constructor)
                        sample_world)))) /\
  NoDup (preloadQueue
           (fst (fst (preload_turn URLStd.new_URL URLStd.encodeURIComponent
                        (fun _ _ _ => sample_data) true
                        (with_preload [lit "https://a.example/"] false constructor)
                        sample_world [lit "https://a.example/"])))).
Proof.
  split; [apply NoDup_singleton|].
  apply (preload_queue_stays_a_set URLStd.new_URL URLStd.encodeURIComponent
           (fun _ _ _ => sample_data) true
           (with_preload [lit "https://a.example/"] false constructor) sample_world
           (lit "https://b.example/") [lit "https://a.example/"]).
  apply NoDup_singleton.
Defined.

Lemma preloaded_link_needs_no_request_witness :
  lit "https://example.com/a" <> [] /\ (60000 - 0 <= cacheDuration constructor)%Z /\
  let s := preload_settled constructor sample_world (Data sample_data)
                           (lit "https://example.com/a") [] 0 in
  let r := show URLStd.new_URL URLStd.encodeURIComponent (fun _ _ _ => sample_data)
                (fst (fst s)) (snd (fst s)) (sample_link 1) (lit "https://example.com/a") 60000 in
  snd r = None /\
  inflight (snd (fst r))
  = inflight (match fetchController constructor with
              | Some c => abort c (snd (fst s))
              | None => snd (fst s)
              end) /\
  exists card,
    previewElement (fst (fst r))
    = Some (set_prop CARD "class.visible" (lit "true") (renderPreview sample_data card)).
Proof.
  split; [discriminate|]. split; [vm_compute; discriminate|].
  apply (preloaded_link_needs_no_request URLStd.new_URL URLStd.encodeURIComponent
           (fun _ _ _ => sample_data) constructor sample_world (sample_link 1)
           (lit "https://example.com/a") [] sample_data 0 60000);
    [discriminate|vm_compute; discriminate].
Defined.

End PreloadFacts.

(** ** The click tracker: failures, statistics, clearing *)

Module TrackerFacts.
Import JS Regex Background Handlers Vocabulary.

Section Tracker.

Variable new_URL : jsstring -> option URLObject.
Variable invalid_url : jsstring.

Local Abbreviation trackLinkClick := (trackLinkClick new_URL invalid_url).

(** X28. A TRACK_CLICK request that cannot be recorded changes nothing in
    the storage: without a URL (or with the empty string) the handler
    answers [No URL provided], and with tracking on and a URL that does not
    parse it answers with the parser's error; in both cases the history and
    the stats are as before. *)
Theorem track_click_failure_keeps_storage (st : Storage) (url : jsstring)
        (now_timestamp now_id : Z) (random : jsstring) :
  trackLinkClick st None now_timestamp now_id random
  = (Failure (lit "No URL provided"), st) /\
  trackLinkClick st (Some []) now_timestamp now_id random
  = (Failure (lit "No URL provided"), st) /\
  (url <> [] -> trackHistory (settings_in_force st) = true -> new_URL url = None ->
   trackLinkClick st (Some url) now_timestamp now_id random = (Failure invalid_url, st)).
Proof.
  split; [reflexivity|]. split; [reflexivity|].
  intros Hu Ht Hp. unfold Background.trackLinkClick.
  destruct url as [|u0 u]; [congruence|].
  unfold settings_in_force in Ht. rewrite Ht, Hp. reflexivity.
Qed.

(** X29. A recorded click counts once in the total, and touches the
    count of no other hostname. The count of the entry's hostname goes up
    by one (from 0 for a hostname not seen before) when the hostname is not
    the name of a property that a plain object inherits and its count is
    not a string. For such a name the count is no number: a name like
    [constructor] gets the text of the inherited function with [1] put
    after it, and for [__proto__] nothing is stored. *)
Theorem track_click_counts_once (st : Storage) (url : jsstring) (parsed : URLObject)
        (now_timestamp now_id : Z) (random : jsstring) :
  url <> [] -> trackHistory (settings_in_force st) = true -> new_URL url = Some parsed ->
  let st' := snd (trackLinkClick st (Some url) now_timestamp now_id random) in
  let h := hostname (entry_of url parsed now_timestamp now_id random) in
  let old := domains (getStats st) in
  totalClicks (getStats st') = (totalClicks (getStats st) + 1)%Z /\
  (forall h', h' <> h -> domains (getStats st') !! h' = old !! h') /\
  (forall n, old !! h = Some (Num n) -> domains (getStats st') !! h = Some (Num (n + 1))) /\
  (old !! h = None -> inherited h = None -> domains (getStats st') !! h = Some (Num 1)) /\
  (forall name, old !! h = None -> inherited h = Some (Builtin name) ->
                domains (getStats st') !! h = Some (Str (native_text name ++ lit "1"))) /\
  (old !! h = None -> inherited h = Some Proto -> domains (getStats st') = old).
Proof.
  intros Hu Ht Hp st' h old. subst st' h old. unfold Background.trackLinkClick.
  destruct url as [|u0 u]; [congruence|].
  unfold settings_in_force in Ht. rewrite Ht, Hp. cbn [negb snd].
  unfold getStats, NO_STATS, entry_of. cbn [stats default totalClicks domains hostname].
  set (h := replace_first false LEADING_WWW [] (Platform.hostname parsed)).
  set (old := domains (default (mkStats 0 ∅) (stats st))).
  split; [reflexivity|]. split; [|split; [|split; [|split]]].
  - intros h' Hne. unfold assign.
    destruct (old !! h), (inherited h) as [[name|]|]; try reflexivity;
      apply lookup_insert_ne; congruence.
  - intros n Hn. unfold assign, bumped. rewrite Hn. apply lookup_insert_eq.
  - intros Hn Hi. unfold assign, bumped. rewrite Hn, Hi. apply lookup_insert_eq.
  - intros name Hn Hi. unfold assign, bumped. rewrite Hn, Hi. apply lookup_insert_eq.
  - intros Hn Hi. unfold assign. rewrite Hn, Hi. reflexivity.
Qed.

(** X30. Clearing empties the history and zeroes the stats and leaves the
    settings alone; the first click recorded after it is the whole history,
    and the stats then count exactly that click, for a hostname that is not
    the name of a property that a plain object inherits. *)
Theorem clear_then_track (st : Storage) (url : jsstring) (parsed : URLObject)
        (now_timestamp now_id : Z) (random : jsstring) :
  url <> [] -> trackHistory (settings_in_force st) = true -> new_URL url = Some parsed ->
  let cleared := clearClickHistory st in
  let st' := snd (trackLinkClick cleared (Some url) now_timestamp now_id random) in
  let e := entry_of url parsed now_timestamp now_id random in
  getClickHistory cleared = [] /\ getStats cleared = NO_STATS /\
  settings cleared = settings st /\
  getClickHistory st' = [e] /\
  totalClicks (getStats st') = 1%Z /\
  (inherited (hostname e) = None -> getStats st' = mkStats 1 {[ hostname e := Num 1 ]}).
Proof.
  intros Hu Ht Hp cleared st' e. subst cleared st' e.
  split; [reflexivity|]. split; [reflexivity|]. split; [reflexivity|].
  unfold Background.trackLinkClick. destruct url as [|u0 u]; [congruence|].
  unfold settings_in_force in Ht. cbn [clearClickHistory settings].
  rewrite Ht, Hp. cbn [negb snd].
  unfold getClickHistory, getStats, entry_of, NO_STATS.
  cbn [clickHistory stats default totalClicks domains hostname firstn].
  split; [reflexivity|]. unfold clearClickHistory, NO_STATS, default.
  cbn [stats from_option totalClicks domains Datatypes.id].
  split; [reflexivity|]. intros Hi. unfold assign, bumped. rewrite lookup_empty, Hi. reflexivity.
Qed.

End Tracker.

Lemma track_click_failure_keeps_storage_witness :
  lit "not a url" <> [] /\
  trackHistory (settings_in_force (sample_storage true)) = true /\
  URLStd.new_URL (lit "not a url") = None /\
  trackLinkClick URLStd.new_URL (lit "Invalid URL") (sample_storage true)
                 (Some (lit "not a url")) 7 8 (lit "k3j9x0q2z")
  = (Failure (lit "Invalid URL"), sample_storage true).
Proof.
  split; [discriminate|]. split; [reflexivity|]. split; [vm_compute; reflexivity|].
  apply (track_click_failure_keeps_storage URLStd.new_URL (lit "Invalid URL")
           (sample_storage true) (lit "not a url") 7 8 (lit "k3j9x0q2z"));
    [discriminate|reflexivity|vm_compute; reflexivity].
Defined.

Lemma track_click_counts_once_witness :
  exists parsed,
    URLStd.new_URL (lit "https://www.old.example/x") = Some parsed /\
    trackHistory (settings_in_force (sample_storage true)) = true /\
    let st' := snd (trackLinkClick URLStd.new_URL (lit "Invalid URL") (sample_storage true)
                                   (Some (lit "https://www.old.example/x")) 7 8 (lit "k3j9x0q2z")) in
    let h := hostname (entry_of (lit "https://www.old.example/x") parsed 7 8 (lit "k3j9x0q2z")) in
    let old := domains (getStats (sample_storage true)) in
    h = lit "old.example" /\
    totalClicks (getStats st') = (totalClicks (getStats (sample_storage true)) + 1)%Z /\
    (forall h', h' <> h -> domains (getStats st') !! h' = old !! h') /\
    (forall n, old !! h = Some (Num n) -> domains (getStats st') !! h = Some (Num (n + 1))) /\
    (old !! h = None -> inherited h = None -> domains (getStats st') !! h = Some (Num 1)) /\
    (forall name, old !! h = None -> inherited h = Some (Builtin name) ->
                  domains (getStats st') !! h = Some (Str (native_text name ++ lit "1"))) /\
    (old !! h = None -> inherited h = Some Proto -> domains (getStats st') = old).
Proof.
  destruct (URLStd.new_URL (lit "https://www.old.example/x")) as [parsed|] eqn:E;
    [|vm_compute in E; discriminate].
  exists parsed. split; [reflexivity|]. split; [reflexivity|].
  split; [vm_compute in E; inversion E; vm_compute; reflexivity|].
  apply (track_click_counts_once URLStd.new_URL (lit "Invalid URL") (sample_storage true)
           (lit "https://www.old.example/x") parsed 7 8 (lit "k3j9x0q2z"));
    [discriminate|reflexivity|exact E].
Defined.

Lemma clear_then_track_witness :
  exists parsed,
    URLStd.new_URL (lit "https://www.example.com/page") = Some parsed /\
    trackHistory (settings_in_force (sample_storage true)) = true /\
    let cleared := clearClickHistory (sample_storage true) in
    let st' := snd (trackLinkClick URLStd.new_URL (lit "Invalid URL") cleared
                                   (Some (lit "https://www.example.com/page")) 7 8
                                   (lit "k3j9x0q2z")) in
    let e := entry_of (lit "https://www.example.com/page") parsed 7 8 (lit "k3j9x0q2z") in
    getClickHistory cleared = [] /\ getStats cleared = NO_STATS /\
    settings cleared = settings (sample_storage true) /\
    getClickHistory st' = [e] /\
    totalClicks (getStats st') = 1%Z /\
    (inherited (hostname e) = None -> getStats st' = mkStats 1 {[ hostname e := Num 1 ]}).
Proof.
  destruct (URLStd.new_URL (lit "https://www.example.com/page")) as [parsed|] eqn:E;
    [|vm_compute in E; discriminate].
  exists parsed. split; [reflexivity|]. split; [reflexivity|].
  apply (clear_then_track URLStd.new_URL (lit "Invalid URL") (sample_storage true)
           (lit "https://www.example.com/page") parsed 7 8 (lit "k3j9x0q2z"));
    [discriminate|reflexivity|exact E].
Defined.

(** The hostname [constructor], from a link like [https://www.constructor/],
    is counted as a text. *)
Lemma inherited_hostname_counted_as_text :
  bumped ∅ (lit "constructor") = Str (lit "function Object() { [native code] }1") /\
  bumped ∅ (lit "toString") = Str (lit "function toString() { [native code] }1") /\
  assign ∅ (lit "__proto__") (bumped ∅ (lit "__proto__")) = ∅ /\
  bumped ∅ (lit "example.com") = Num 1.
Proof.
  unfold bumped, assign. rewrite !lookup_empty. repeat split; vm_compute; reflexivity.
Qed.

End TrackerFacts.
